(** * Parks-McClellan filter design: the Remez exchange fitter

    A shallow embedding of the functions [solve], [find_error_extrema],
    [remez_fit] and [remez_fit2] of
    [12_Parks-McClellan-Filter-Design.py], and the properties of the
    minimax fitter that hold (or fail) on them.

    Numbers.  The notebook computes with IEEE doubles; here a double is
    the rational it denotes and an operation gives its exact result
    ([Q], compared with [==]).  Integers ([order], [iterations], point
    counts) are [Z].  NumPy arrays and Python lists are [list]s.  A
    float has one representation, so the results of the solver's and of
    the polynomial's arithmetic are kept in lowest terms ([Qred], the
    identity up to [==]).  Python exceptions are the constructors of
    [exn].

    Two places where rounding decides a discrete outcome are kept
    apart.  Where the code truncates a quotient of doubles to an
    integer ([int(pts * A / ...)]), the rounding of the quotient can
    change the integer: [initial_points_from], [remez_fit2_from] and
    [MSE_fit_from] take the quotient [s] as the code computed it, and
    [initial_points], [remez_fit], [remez_fit2] and [MSE_fit] are the
    same functions at the exact quotient.  And [np.linalg.solve]
    (LAPACK [gesv]) is Gaussian elimination with partial pivoting that
    fails on an exactly zero pivot: [Linalg.gesv] is the exact
    elimination, which agrees with it on regular systems; on a
    singular system the exact elimination stops, whereas in doubles a
    rounding error can leave a nonzero pivot and the call return. *)

From Stdlib Require Import String.
From Stdlib Require Import List ZArith QArith Qabs Qround Qpower Lia Lqa Bool.
From Stdlib Require Import Permutation Sorted.
Import ListNotations.
Open Scope Q_scope.

(** ** Exceptions and results *)

Inductive exn : Type :=
| ValueError (msg : string)
| LinAlgError (msg : string)
| IndexError
| ZeroDivisionError
| UnboundLocalError (var : string).

Inductive result (A : Type) : Type :=
| Ok (a : A)
| Raise (e : exn).
Arguments Ok {A} a.
Arguments Raise {A} e.

Definition bind {A B : Type} (r : result A) (k : A -> result B) : result B :=
  match r with
  | Ok a => k a
  | Raise e => Raise e
  end.

Notation "x <- r ;; k" := (bind r (fun x => k))
  (at level 61, r at next level, right associativity).
Notation "' pat <- r ;; k" := (bind r (fun x => match x with pat => k end))
  (at level 61, pat pattern, r at next level, right associativity).

Fixpoint mapM {A B : Type} (f : A -> result B) (l : list A) : result (list B) :=
  match l with
  | [] => Ok []
  | a :: l' => b <- f a ;; bs <- mapM f l' ;; Ok (b :: bs)
  end.

(** ** Vectors of rationals *)

Fixpoint dot (a b : list Q) : Q :=
  match a, b with
  | x :: a', y :: b' => x * y + dot a' b'
  | _, _ => 0
  end.

(** [axpy m p r] is the row [r - m * p]. *)
Fixpoint axpy (m : Q) (p r : list Q) : list Q :=
  match p, r with
  | pj :: p', rj :: r' => Qred (rj - m * pj) :: axpy m p' r'
  | _, _ => []
  end.

(** A polynomial is its coefficient list, lowest degree first
    ([np.poly1d] holds the same list reversed); [peval] is the Horner
    scheme of [np.polyval]. *)
Definition poly := list Q.

Fixpoint peval (p : poly) (x : Q) : Q :=
  match p with
  | [] => 0
  | c :: p' => Qred (c + x * peval p' x)
  end.

(** The sum [p[0] + p[1] x + ... + p[M] x^M] written with powers. *)
Fixpoint psum_from (k : nat) (p : poly) (x : Q) : Q :=
  match p with
  | [] => 0
  | c :: p' => c * x ^ (Z.of_nat k) + psum_from (S k) p' x
  end.

Definition psum (p : poly) (x : Q) : Q := psum_from 0 p x.

(** [np.sign], as an integer. *)
Definition np_sign (q : Q) : Z := Z.sgn (Qnum q).

Definition Qlt_bool (a b : Q) : bool := negb (Qle_bool b a).

(** Python's [int()] on a float: truncation toward zero. *)
Definition int_of (q : Q) : Z := Z.quot (Qnum q) (Z.pos (Qden q)).

(** [np.arange(lo, hi)], empty when [hi <= lo]. *)
Definition arange (lo hi : Z) : list Q :=
  map (fun k => inject_Z (lo + Z.of_nat k)) (seq 0 (Z.to_nat (hi - lo))).

(** [(-1)^i] for an index [i]. *)
Definition alt_sign (i : nat) : Q := if Nat.even i then 1 else -1.

(** ** [np.linalg.solve]: Gaussian elimination with partial pivoting *)

Module Linalg.

(** A row of the augmented matrix: coefficients and right-hand side. *)
Definition row : Type := (list Q * Q)%type.

Definition lead (r : row) : Q := hd 0 (fst r).

(** Index of the first entry of largest absolute value (LAPACK [idamax]). *)
Fixpoint argmax_abs (l : list Q) : nat :=
  match l with
  | [] => O
  | a :: tl =>
    match tl with
    | [] => O
    | _ :: _ =>
      let k := argmax_abs tl in
      if Qle_bool (Qabs (nth k tl 0)) (Qabs a) then O else S k
    end
  end.

(** Exchange row [k] with row [0]. *)
Definition swap_front (k : nat) (rows : list row) : list row :=
  match rows, k with
  | r0 :: tl, S k' =>
    match nth_error tl k' with
    | Some rk => rk :: firstn k' tl ++ r0 :: skipn (S k') tl
    | None => rows
    end
  | _, _ => rows
  end.

(** Subtract from [r] the multiple of the pivot row [p] that clears its
    leading entry; the leading column is dropped. *)
Definition eliminate (p r : row) : row :=
  let m := lead r / lead p in
  (axpy m (tl (fst p)) (tl (fst r)), Qred (snd r - m * snd p)).

(** [gesv n rows] solves the [n] x [n] system [rows]; [None] is LAPACK's
    [info > 0] (an exactly zero pivot), which NumPy raises as
    [LinAlgError("Singular matrix")]. *)
Fixpoint gesv (n : nat) (rows : list row) : option (list Q) :=
  match n with
  | O => Some []
  | S n' =>
    match swap_front (argmax_abs (map lead rows)) rows with
    | [] => None
    | p :: rest =>
      if Qeq_bool (lead p) 0 then None
      else
        match gesv n' (map (eliminate p) rest) with
        | None => None
        | Some v => Some (Qred ((snd p - dot (tl (fst p)) v) / lead p) :: v)
        end
    end
  end.

End Linalg.

(** ** The extended interpolation solver *)

(** Row [x] of [np.vander(_, increasing=True)] with [n] columns. *)
Definition vander_row (n : nat) (x : Q) : list Q :=
  map (fun j => x ^ Z.of_nat j) (seq 0 n).

(** [V[:,-1] = col]: the last column of every row is overwritten. *)
Definition set_last (r : list Q) (c : Q) : list Q := removelast r ++ [c].

Definition system (col x y : list Q) : list Linalg.row :=
  map (fun t => (set_last (vander_row (length x) (fst (fst t))) (snd (fst t)),
                 snd t))
      (combine (combine x col) y).

(** The part shared by [solve] and by the inlined solver of [remez_fit2]:
    build the matrix with last column [col], solve, split the unknowns
    into the polynomial and the absolute value of the last one. *)
Definition solve_with (col x y : list Q) : result (poly * Q) :=
  match x with
  | [] => Raise IndexError
  | _ :: _ =>
    if negb (Nat.eqb (length y) (length x))
    then Raise (ValueError "solve: mismatch in core dimension"%string)
    else
      match Linalg.gesv (length x) (system col x y) with
      | None => Raise (LinAlgError "Singular matrix"%string)
      | Some v => Ok (removelast v, Qabs (last v 0))
      end
  end.

(** [pow(-1, np.arange(0, len(x)))] *)
Definition signs (n : nat) : list Q := map alt_sign (seq 0 n).

Definition solve (x y : list Q) : result (poly * Q) :=
  solve_with (signs (length x)) x y.

(** ** The error-extrema locator *)

(** [np.linspace(a, b, num)]: [num - 1] steps, the last sample set to
    [b] itself. *)
Definition linspace (a b : Q) (num : nat) : list Q :=
  match num with
  | O => []
  | S O => [a]
  | S (S _ as div) =>
    let step := (b - a) / inject_Z (Z.of_nat div) in
    map (fun k => inject_Z (Z.of_nat k) * step + a) (seq 0 div) ++ [b]
  end.

(** [np.diff] on floats and on the integer sign array. *)
Fixpoint diff (l : list Q) : list Q :=
  match l with
  | a :: (b :: _) as tl => (b - a) :: diff tl
  | _ => []
  end.

Fixpoint diffZ (l : list Z) : list Z :=
  match l with
  | a :: (b :: _) as tl => (b - a)%Z :: diffZ tl
  | _ => []
  end.

(** [_.nonzero()[0]], with the index of the head of the list being [i]. *)
Fixpoint nonzero_from (i : nat) (l : list Z) : list nat :=
  match l with
  | [] => []
  | z :: tl =>
    if (z =? 0)%Z then nonzero_from (S i) tl else i :: nonzero_from (S i) tl
  end.

(** [np.diff(np.sign(np.diff(y))).nonzero()[0] + 1] *)
Definition turning_points (y : list Q) : list nat :=
  map S (nonzero_from 0 (diffZ (map np_sign (diff y)))).

(** Fancy indexing [t[ix]]. *)
Definition take (t : list Q) (ix : list nat) : list Q :=
  map (fun i => nth i t 0) ix.

(** The number of samples per interval. *)
Definition samples : nat := 100.

(** One pass of the loop over [intervals]: what is appended to [loc]
    and to [err] for the interval [rng] with target value [val]. *)
Definition interval_extrema (p : poly) (rng : Q * Q) (val : Q)
  : list Q * list Q :=
  let t := linspace (fst rng) (snd rng) samples in
  let y := map (fun x => val - peval p x) t in
  let ix := turning_points y in
  (hd 0 t :: take t ix ++ [last t 0], hd 0 y :: take y ix ++ [last y 0]).

(** The dict literal [{(0, A): 1, (B, 1): 0}], in insertion order; the
    two keys are one key when [B = 0] and [A = 1], and the later value
    wins. *)
Definition intervals (A B : Q) : list ((Q * Q) * Q) :=
  if Qeq_bool B 0 && Qeq_bool A 1 then [((0, A), 0)]
  else [((0, A), 1); ((B, 1), 0)].

Definition find_error_extrema (p : poly) (A B : Q) : list Q * list Q :=
  fold_left
    (fun acc iv =>
       let r := interval_extrema p (fst iv) (snd iv) in
       (fst acc ++ fst r, snd acc ++ snd r))
    (intervals A B) ([], []).

(** ** Selecting the alternations *)

Module Cand.
(** The dict [c] built for each extremum. *)
Record t : Type := mk { loc : Q; sign : Z; err_mag : Q }.
End Cand.

(** The tolerance [1e-3]. *)
Definition tol : Q := 1 # 1000.

Definition last_opt {A : Type} (l : list A) : option A :=
  match l with
  | [] => None
  | a :: _ => Some (last l a)
  end.

(** The body of the loop over the extrema, for one candidate [c]. *)
Definition consider (e : Q) (alt : list Cand.t) (c : Cand.t) : list Cand.t :=
  if Qle_bool (e - tol) (Cand.err_mag c) then
    match last_opt alt with
    | None => alt ++ [c]
    | Some l =>
      if negb (Cand.sign l =? Cand.sign c)%Z then alt ++ [c]
      else if Qlt_bool (Cand.err_mag l) (Cand.err_mag c)
           then removelast alt ++ [c]
           else alt
    end
  else alt.

(** [while len(alt) > order + 2: ...]; every round removes one entry,
    so [length alt] rounds of fuel are enough.  [alt[0]] on an empty list
    is an [IndexError]. *)
Fixpoint trim_fuel (fuel : nat) (order : Z) (alt : list Cand.t)
  : result (list Cand.t) :=
  if (Z.of_nat (length alt) >? order + 2)%Z then
    match alt with
    | [] => Raise IndexError
    | a0 :: rest =>
      match fuel with
      | O => Raise IndexError
      | S fuel' =>
        if Qlt_bool (Cand.err_mag (last alt a0)) (Cand.err_mag a0)
        then trim_fuel fuel' order (removelast alt)
        else trim_fuel fuel' order rest
      end
    end
  else Ok alt.

Definition trim (order : Z) (alt : list Cand.t) : result (list Cand.t) :=
  trim_fuel (length alt) order alt.

(** The dict [c] of every extremum; [mag] computes its ['err_mag'] from
    the location and the signed error. *)
Definition candidates (mag : Q -> Q -> result Q) (loc err : list Q)
  : result (list Cand.t) :=
  mapM (fun le =>
          m <- mag (fst le) (snd le) ;;
          Ok (Cand.mk (fst le) (np_sign (snd le)) m))
       (combine loc err).

(** Finding the alternations: the loop over the extrema followed by the
    trimming loop. *)
Definition select (mag : Q -> Q -> result Q) (e : Q) (order : Z)
           (loc err : list Q) : result (list Cand.t) :=
  cs <- candidates mag loc err ;;
  trim order (fold_left (consider e) cs []).

(** ** The exchange driver *)

(** The dict [data]; a key that was never set is [None]. *)
Record data : Type := mkdata {
  prev_x : option (list Q);
  prev_y : option (list Q);
  err : option Q;
  Aerr : option Q;
  Berr : option Q;
  new_x : option (list Q)
}.

Definition no_data : data := mkdata None None None None None None.

(** The initial choice of interpolation points, from the value [s] of
    the quotient [pts * A / (A - B + 1)]. *)
Definition initial_points_from (s A B : Q) (order : Z)
  : result (list Q * list Q) :=
  let pts := (order + 2)%Z in
  let ptsA0 := int_of s in
  let ptsA := if (ptsA0 <? 2)%Z then 2%Z else ptsA0 in
  let ptsB := (pts - ptsA)%Z in
  if (ptsB + 1 =? 0)%Z then Raise ZeroDivisionError
  else if (ptsB <? 0)%Z
  then Raise (ValueError "negative dimensions are not allowed"%string)
  else
    Ok (map (fun k => k * (A / inject_Z (ptsA + 1))) (arange 1 (ptsA + 1))
        ++ map (fun k => B + k * ((1 - B) / inject_Z (ptsB + 1)))
               (arange 1 (ptsB + 1)),
        repeat 1 (Z.to_nat ptsA) ++ repeat 0 (Z.to_nat ptsB)).

(** The initial points at the exact quotient. *)
Definition initial_points (A B : Q) (order : Z) : result (list Q * list Q) :=
  if Qeq_bool (A - B + 1) 0 then Raise ZeroDivisionError
  else initial_points_from (inject_Z (order + 2) * A / (A - B + 1)) A B order.

(** The local variables that live across iterations; [p] is unbound
    until the first iteration has run. *)
Record state : Type := mkstate {
  st_x : list Q;
  st_y : list Q;
  st_p : option poly;
  st_data : data
}.

(** [y = [1 if c <= A else 0 for c in x]] *)
Definition targets (A : Q) (x : list Q) : list Q :=
  map (fun c => if Qle_bool c A then 1 else 0) x.

Fixpoint loop (n : nat) (body : state -> result state) (s : state)
  : result state :=
  match n with
  | O => Ok s
  | S n' => s' <- body s ;; loop n' body s'
  end.

Definition finish (s : state) : result (poly * data) :=
  match st_p s with
  | None => Raise (UnboundLocalError "p"%string)
  | Some p => Ok (p, st_data s)
  end.

Definition remez_body (A B : Q) (order : Z) (s : state) : result state :=
  let x := st_x s in
  let y := st_y s in
  '(p, e) <- solve x y ;;
  let le := find_error_extrema p A B in
  alt <- select (fun _ er => Ok (Qabs er)) e order (fst le) (snd le) ;;
  let x' := map Cand.loc alt in
  Ok (mkstate x' (targets A x') (Some p)
        (mkdata (Some x) (Some y) (Some e) None None (Some x'))).

Definition remez_fit (A B : Q) (order iterations : Z) : result (poly * data) :=
  if (order <? 3)%Z
  then Raise (ValueError "order is too small, we need at least 3"%string)
  else
    '(x, y) <- initial_points A B order ;;
    s <- loop (Z.to_nat iterations) (remez_body A B order)
              (mkstate x y None no_data) ;;
    finish s.

(** ** The weighted variant *)

(** The weighting function on a scalar; [1.0/Aweight] divides Python
    numbers. *)
Definition weigh (A Aweight : Q) (x : Q) : result Q :=
  if Qle_bool x A then
    if Qeq_bool Aweight 0 then Raise ZeroDivisionError else Ok (1 / Aweight)
  else Ok 1.

(** ['err_mag': np.abs(err[n]) / weigh(loc[n])] *)
Definition weighted_mag (A Aweight : Q) (l er : Q) : result Q :=
  w <- weigh A Aweight l ;; Ok (Qabs er / w).

(** [pow(-1, np.arange(0, len(x))) * weigh(x)]: the last column of the
    weighted system. *)
Definition error_column (A Aweight : Q) (x : list Q) : result (list Q) :=
  w <- mapM (weigh A Aweight) x ;;
  Ok (map (fun sw => fst sw * snd sw) (combine (signs (length x)) w)).

(** The solver inlined in [remez_fit2]; on an empty [x] the assignment
    to [V[:,-1]] raises before the weights matter. *)
Definition solve2 (A Aweight : Q) (x y : list Q) : result (poly * Q) :=
  match x with
  | [] => Raise IndexError
  | _ :: _ => col <- error_column A Aweight x ;; solve_with col x y
  end.

Definition remez2_body (A B Aweight : Q) (order : Z) (s : state)
  : result state :=
  let x := st_x s in
  let y := st_y s in
  '(p, e) <- solve2 A Aweight x y ;;
  let le := find_error_extrema p A B in
  alt <- select (weighted_mag A Aweight) e order (fst le) (snd le) ;;
  let x' := map Cand.loc alt in
  Ok (mkstate x' (targets A x') (Some p)
        (mkdata (Some x) (Some y) None (Some (e / Aweight)) (Some e)
                (Some x'))).

Definition remez_fit2 (A B Aweight : Q) (order iterations : Z)
  : result (poly * data) :=
  '(x, y) <- initial_points A B order ;;
  s <- loop (Z.to_nat iterations) (remez2_body A B Aweight order)
            (mkstate x y None no_data) ;;
  finish s.

(** [remez_fit2] from the value [s] of the quotient
    [pts * A / (A - B + 1)]. *)
Definition remez_fit2_from (s A B Aweight : Q) (order iterations : Z)
  : result (poly * data) :=
  '(x, y) <- initial_points_from s A B order ;;
  st <- loop (Z.to_nat iterations) (remez2_body A B Aweight order)
             (mkstate x y None no_data) ;;
  finish st.

(** The values a fit hands back.  [return p, data] builds a tuple of
    two objects: the polynomial and the dict. *)
Inductive pyobj : Type :=
| PyPoly (p : poly)
| PyFloat (q : Q)
| PyDict (d : data).

Definition returned_tuple (r : poly * data) : list pyobj :=
  [PyPoly (fst r); PyDict (snd r)].

(** ** Standard polynomial fitting *)

Section MSE.

(** [np.poly1d(np.polyfit(x, y, order))], NumPy's least-squares fit,
    is not part of the notebook. *)
Variable polyfit : list Q -> list Q -> Z -> result poly.

(** [MSE_fit]: a point at each interval edge, the rest spread evenly;
    from the value [s] of the quotient [pts * A / (A + (1 - B))]. *)
Definition MSE_fit_from (s A B : Q) (order : Z)
  : result (poly * list Q * list Q) :=
  let pts := (order + 1)%Z in
  let ptsA0 := int_of s in
  let ptsA := if (ptsA0 <? 2)%Z then 2%Z else ptsA0 in
  let ptsB := (pts - ptsA)%Z in
  if (ptsB - 1 =? 0)%Z then Raise ZeroDivisionError
  else if (ptsB <? 0)%Z
  then Raise (ValueError "negative dimensions are not allowed"%string)
  else
    let x :=
      map (fun k => k * (A / inject_Z (ptsA - 1))) (arange 0 ptsA)
      ++ map (fun k => B + k * ((1 - B) / inject_Z (ptsB - 1)))
             (arange 0 ptsB) in
    let y := repeat 1 (Z.to_nat ptsA) ++ repeat 0 (Z.to_nat ptsB) in
    p <- polyfit x y order ;;
    Ok (p, x, y).

(** [MSE_fit] at the exact quotient. *)
Definition MSE_fit (A B : Q) (order : Z)
  : result (poly * list Q * list Q) :=
  if (order <? 3)%Z
  then Raise (ValueError "order is too small, we need at least 3"%string)
  else
    if Qeq_bool (A + (1 - B)) 0 then Raise ZeroDivisionError
    else MSE_fit_from (inject_Z (order + 1) * A / (A + (1 - B))) A B order.

End MSE.

(** ** Predicates used in the statements *)

(** A system of [n] equations in [n] unknowns. *)
Definition square (n : nat) (rows : list Linalg.row) : Prop :=
  length rows = n /\ Forall (fun r => length (fst r) = n) rows.

(** A vector [v] satisfies the equation of row [r]. *)
Definition satisfies (v : list Q) (r : Linalg.row) : Prop :=
  dot (fst r) v == snd r.

Definition zero_row (r : Linalg.row) : Prop :=
  Forall (fun c => c == 0) (fst r).

Definition same_coeffs (r1 r2 : Linalg.row) : Prop :=
  Forall2 Qeq (fst r1) (fst r2).

Definition default_row (n : nat) : Linalg.row :=
  (set_last (vander_row n 0) 0, 0).

(** The weighting function as a number, for a nonzero [Aweight]. *)
Definition weight (A Aweight : Q) (x : Q) : Q :=
  if Qle_bool x A then 1 / Aweight else 1.

(** The [n] evenly spaced interior locations of [[a, b]]: the points
    that cut the interval into [n + 1] equal parts. *)
Definition even_interior (a b : Q) (n : nat) : list Q :=
  map (fun k => a + inject_Z (1 + Z.of_nat k)
                    * ((b - a) / inject_Z (Z.of_nat n + 1)))
      (seq 0 n).

(** Sample [i] is a strict local maximum or minimum of the sampled
    error [y]. *)
Definition local_extremum (y : list Q) (i : nat) : Prop :=
  (nth (i - 1) y 0 < nth i y 0 /\ nth (i + 1) y 0 < nth i y 0) \/
  (nth i y 0 < nth (i - 1) y 0 /\ nth i y 0 < nth (i + 1) y 0).

(** A list of reals increases strictly along its indices. *)
Definition increasing (t : list Q) : Prop :=
  forall i j, (i < j < length t)%nat -> nth i t 0 < nth j t 0.

(** The filter of the Selecting step: the magnitude is at least [e]
    minus the tolerance. *)
Definition above_threshold (e : Q) (c : Cand.t) : bool :=
  Qle_bool (e - tol) (Cand.err_mag c).

(** The sample indices the locator reports for one interval: the first
    sample, the flagged interior samples, the last sample. *)
Definition reported (y : list Q) : list nat :=
  O :: turning_points y ++ [99%nat].

(** Neighbouring candidates have different signs. *)
Fixpoint alternating (l : list Cand.t) : Prop :=
  match l with
  | a :: (b :: _) as tl => Cand.sign a <> Cand.sign b /\ alternating tl
  | _ => True
  end.

(** [subseq l1 l2]: [l1] is [l2] with some entries left out, the order
    kept. *)
Inductive subseq {A : Type} : list A -> list A -> Prop :=
| subseq_nil : subseq [] []
| subseq_skip (a : A) (l1 l2 : list A) : subseq l1 l2 -> subseq l1 (a :: l2)
| subseq_keep (a : A) (l1 l2 : list A) :
    subseq l1 l2 -> subseq (a :: l1) (a :: l2).

(** A location lies in one of the two regions. *)
Definition in_regions (A B : Q) (v : Q) : Prop :=
  (0 <= v /\ v <= A) \/ (B <= v /\ v <= 1).

(** The points and ordinates a round of the driver starts from are
    well formed: the points increase strictly and the ordinates are
    their targets. *)
Definition state_ok (A : Q) (s : state) : Prop :=
  StronglySorted Qlt (st_x s) /\ st_y s = targets A (st_x s).

(** Two candidates are the same up to the representation of the
    magnitude. *)
Definition same_cand (c c' : Cand.t) : Prop :=
  Cand.loc c = Cand.loc c' /\ Cand.sign c = Cand.sign c' /\
  Cand.err_mag c == Cand.err_mag c'.

(** Two results agree: both return related values or both raise the
    same exception. *)
Definition agree {X Y : Type} (R : X -> Y -> Prop)
           (r : result X) (r' : result Y) : Prop :=
  match r, r' with
  | Ok a, Ok b => R a b
  | Raise e, Raise e' => e = e'
  | _, _ => False
  end.

(** Two states of the drivers hold the same points and polynomial. *)
Definition same_state (s s' : state) : Prop :=
  st_x s = st_x s' /\ st_y s = st_y s' /\ st_p s = st_p s'.

(** Divided differences of the values [f] at the points [x], both
    indexed from 0: [dd x f k i] is [f[x_i, ..., x_(i+k)]]. *)
Fixpoint dd (x f : nat -> Q) (k i : nat) : Q :=
  match k with
  | O => f i
  | S k' => (dd x f k' (S i) - dd x f k' i) / (x (S (i + k')) - x i)
  end.

(** The quotient of the polynomial [p] by [x - a] (synthetic
    division); the remainder is [peval p a]. *)
Fixpoint pquot (a : Q) (p : poly) : poly :=
  match p with
  | [] => []
  | _ :: p' =>
    match p' with
    | [] => []
    | _ :: _ => peval p' a :: pquot a p'
    end
  end.

(** A location is one of the samples the locator evaluates. *)
Definition on_grid (A B v : Q) : Prop :=
  In v (linspace 0 A samples) \/ In v (linspace B 1 samples).

(** The desired response [D] on the two regions. *)
Definition desired (A v : Q) : Q := if Qle_bool v A then 1 else 0.

(** What a round of the drivers starts from once a round has selected
    its points among the samples: well-formed points, at least one of
    them, every one a sample, and a polynomial at hand. *)
Definition selecting (A B : Q) (s : state) : Prop :=
  state_ok A s /\ st_x s <> [] /\ Forall (on_grid A B) (st_x s) /\
  st_p s <> None.

(** The outcome of [iterations] rounds of a fit, told from its first
    round: the first round returns; if it selected at least one point
    every number of rounds returns, and if it selected none the second
    round raises [IndexError]. *)
Definition rounds_outcome (fit : Z -> result (poly * data)) (iterations : Z)
  : Prop :=
  exists p d nx,
    fit 1%Z = Ok (p, d) /\ new_x d = Some nx /\
    (nx <> [] -> exists r, fit iterations = Ok r) /\
    (nx = [] -> (2 <= iterations)%Z -> fit iterations = Raise IndexError).

(** * Properties *)



(** ** The linear solver *)

#[local] Arguments Qred : simpl never.

Section LinalgFacts.
Import Linalg.

Lemma dot_axpy (m : Q) (p r v : list Q) :
  length p = length r ->
  dot (axpy m p r) v == dot r v - m * dot p v.
Proof.
  revert r v.
  induction p as [|pj p IH]; intros [|rj r] [|vj v] Hlen;
    cbn [dot axpy length] in *; try discriminate; try ring.
  injection Hlen as Hlen.
  rewrite (IH r v Hlen), Qred_correct. ring.
Qed.

Lemma axpy_length (m : Q) (p r : list Q) :
  length p = length r -> length (axpy m p r) = length p.
Proof.
  revert r.
  induction p as [|pj p IH]; intros [|rj r] Hlen; simpl in *;
    try discriminate; auto.
Qed.

Lemma nth_error_decompose {A : Type} (k : nat) :
  forall (l : list A) (a : A),
    nth_error l k = Some a -> l = firstn k l ++ a :: skipn (S k) l.
Proof.
  induction k as [|k IH]; intros [|b l] a H; try discriminate.
  - injection H as ->. reflexivity.
  - cbn [firstn skipn app]. f_equal. now apply IH.
Qed.

Lemma swap_front_perm (k : nat) (rows : list row) :
  Permutation (swap_front k rows) rows.
Proof.
  destruct rows as [|r0 tl]; [reflexivity|].
  destruct k as [|k]; [reflexivity|].
  unfold swap_front.
  destruct (nth_error tl k) as [rk|] eqn:Hk; [|reflexivity].
  set (front := firstn k tl). set (back := skipn (S k) tl).
  transitivity (rk :: r0 :: front ++ back).
  - apply perm_skip, Permutation_sym, Permutation_middle.
  - rewrite perm_swap. apply perm_skip.
    rewrite (nth_error_decompose _ _ _ Hk). apply Permutation_middle.
Qed.

Lemma square_perm (n : nat) (rows rows' : list row) :
  Permutation rows rows' -> square n rows -> square n rows'.
Proof.
  intros HP [Hlen Hall]. split.
  - rewrite <- Hlen. symmetry. now apply Permutation_length.
  - eapply Permutation_Forall; eauto.
Qed.

Lemma square_eliminate (n : nat) (p : row) (rest : list row) :
  square (S n) (p :: rest) -> square n (map (eliminate p) rest).
Proof.
  intros [Hlen Hall]. simpl in Hlen. injection Hlen as Hlen.
  inversion Hall as [|? ? Hp Hrest]; subst.
  split.
  - now rewrite length_map.
  - apply Forall_map.
    eapply Forall_impl; [|exact Hrest].
    intros [[|b tr] sr] Hr; [discriminate|].
    destruct p as [[|a tp] sp]; [discriminate|].
    unfold eliminate. cbn [fst snd tl length] in *.
    injection Hp as Hp. injection Hr as Hr.
    rewrite axpy_length; congruence.
Qed.

(** Whatever [gesv] returns solves every equation of the system. *)
Lemma gesv_sound (n : nat) :
  forall rows v,
    square n rows -> gesv n rows = Some v ->
    length v = n /\ Forall (satisfies v) rows.
Proof.
  induction n as [|n IH]; intros rows v Hsq Hsolve.
  - destruct Hsq as [Hlen _].
    destruct rows; [|discriminate].
    simpl in Hsolve. injection Hsolve as <-. split; auto.
  - cbn [gesv] in Hsolve.
    pose proof (swap_front_perm (argmax_abs (map lead rows)) rows) as HP.
    destruct (swap_front (argmax_abs (map lead rows)) rows) as [|p rest];
      [discriminate|].
    destruct (Qeq_bool (lead p) 0) eqn:Hpiv; [discriminate|].
    apply Qeq_bool_neq in Hpiv.
    destruct (gesv n (map (eliminate p) rest)) as [w|] eqn:Hrec;
      [|discriminate].
    injection Hsolve as <-.
    assert (Hsq' : square (S n) (p :: rest))
      by (eapply square_perm; [apply Permutation_sym; exact HP|exact Hsq]).
    destruct (IH _ _ (square_eliminate _ _ _ Hsq') Hrec) as [Hlw Hall].
    split; [cbn [length]; congruence|].
    eapply Permutation_Forall; [exact HP|].
    destruct Hsq' as [_ Hrows].
    inversion Hrows as [|? ? Hp Hrest]; subst.
    unfold lead in Hpiv.
    destruct p as [[|a tp] sp]; [discriminate|].
    cbn [fst snd hd tl length] in *.
    constructor.
    + unfold satisfies, lead. cbn [fst snd hd tl dot].
      rewrite Qred_correct. field.
      exact Hpiv.
    + rewrite Forall_map in Hall.
      rewrite Forall_forall in Hall, Hrest |- *.
      intros [[|b tr] sr] Hin; specialize (Hrest _ Hin); [discriminate|].
      specialize (Hall _ Hin).
      unfold satisfies, eliminate, lead in *.
      cbn [fst snd hd tl length dot] in *.
      rewrite dot_axpy in Hall by congruence.
      rewrite !Qred_correct in *.
      assert (Hsr : sr == dot tr w - b / a * dot tp w + b / a * sp) by lra.
      rewrite Hsr. field. exact Hpiv.
Qed.

End LinalgFacts.

(** *** Singular systems *)

Section Singular.
Import Linalg.

Lemma same_coeffs_sym (r1 r2 : row) : same_coeffs r1 r2 -> same_coeffs r2 r1.
Proof.
  unfold same_coeffs. induction 1; constructor; auto. now symmetry.
Qed.

Lemma same_coeffs_lead (r1 r2 : row) : same_coeffs r1 r2 -> lead r1 == lead r2.
Proof.
  unfold same_coeffs, lead. destruct 1; cbn [hd]; [reflexivity|assumption].
Qed.

Lemma same_coeffs_tl (r1 r2 : row) :
  same_coeffs r1 r2 -> Forall2 Qeq (tl (fst r1)) (tl (fst r2)).
Proof.
  unfold same_coeffs. destruct 1; cbn [tl]; auto.
Qed.

Lemma axpy_zero (m : Q) (p r : list Q) :
  m == 0 -> Forall (fun c => c == 0) r -> Forall (fun c => c == 0) (axpy m p r).
Proof.
  intros Hm. revert r.
  induction p as [|pj p IH]; intros [|rj r] Hr; cbn [axpy]; auto.
  inversion Hr as [|? ? Hrj Hr']; subst.
  constructor; [|now apply IH].
  rewrite Qred_correct, Hm, Hrj. ring.
Qed.

Lemma axpy_same (m1 m2 : Q) (p r1 r2 : list Q) :
  m1 == m2 -> Forall2 Qeq r1 r2 ->
  Forall2 Qeq (axpy m1 p r1) (axpy m2 p r2).
Proof.
  intros Hm. revert r1 r2.
  induction p as [|pj p IH]; intros r1 r2 Hr; cbn [axpy].
  - constructor.
  - destruct Hr as [|a b r1 r2 Hab Hr]; constructor; [|now apply IH].
    rewrite !Qred_correct, Hm, Hab. reflexivity.
Qed.

Lemma axpy_self (m : Q) (p r : list Q) :
  m == 1 -> Forall2 Qeq p r -> Forall (fun c => c == 0) (axpy m p r).
Proof.
  intros Hm. induction 1 as [|a b p r Hab Hpr IH]; cbn [axpy]; constructor; auto.
  rewrite Qred_correct, Hm, Hab. ring.
Qed.

Lemma zero_row_lead (r : row) : zero_row r -> lead r == 0.
Proof.
  unfold zero_row, lead. destruct 1; cbn [hd]; [reflexivity|assumption].
Qed.

Lemma eliminate_zero (p r : row) : zero_row r -> zero_row (eliminate p r).
Proof.
  intros Hz. unfold zero_row, eliminate. cbn [fst].
  apply axpy_zero.
  - rewrite (zero_row_lead _ Hz). unfold Qdiv. ring.
  - unfold zero_row in Hz. destruct Hz; cbn [tl]; auto.
Qed.

Lemma eliminate_same (p r1 r2 : row) :
  same_coeffs r1 r2 -> same_coeffs (eliminate p r1) (eliminate p r2).
Proof.
  intros Hs. unfold same_coeffs, eliminate. cbn [fst].
  apply axpy_same.
  - now rewrite (same_coeffs_lead _ _ Hs).
  - now apply same_coeffs_tl.
Qed.

Lemma eliminate_self (p r : row) :
  same_coeffs p r -> ~ lead p == 0 -> zero_row (eliminate p r).
Proof.
  intros Hs Hp. unfold zero_row, eliminate. cbn [fst].
  apply axpy_self.
  - rewrite <- (same_coeffs_lead _ _ Hs). now field.
  - now apply same_coeffs_tl.
Qed.

(** A row of zeros makes the elimination meet a zero pivot. *)
Lemma gesv_zero_row (n : nat) :
  forall rows r,
    length rows = n -> In r rows -> zero_row r -> gesv n rows = None.
Proof.
  induction n as [|n IH]; intros rows r Hlen Hin Hz.
  - destruct rows; [contradiction|discriminate].
  - cbn [gesv].
    pose proof (swap_front_perm (argmax_abs (map lead rows)) rows) as HP.
    destruct (swap_front (argmax_abs (map lead rows)) rows) as [|p rest];
      [reflexivity|].
    destruct (Qeq_bool (lead p) 0) eqn:Hpiv; [reflexivity|].
    apply Qeq_bool_neq in Hpiv.
    pose proof (Permutation_length HP) as HL. cbn [length] in HL.
    apply (Permutation_in _ (Permutation_sym HP)) in Hin.
    destruct Hin as [<-|Hin].
    + elim Hpiv. now apply zero_row_lead.
    + rewrite (IH (map (eliminate p) rest) (eliminate p r)).
      * reflexivity.
      * rewrite length_map. lia.
      * now apply in_map.
      * now apply eliminate_zero.
Qed.

(** Two rows with the same coefficients make the system singular. *)
Lemma gesv_equal_rows (n : nat) :
  forall rows r1 r2 others,
    length rows = n ->
    Permutation rows (r1 :: r2 :: others) ->
    same_coeffs r1 r2 ->
    gesv n rows = None.
Proof.
  induction n as [|n IH]; intros rows r1 r2 others Hlen Hperm Hsame.
  - apply Permutation_length in Hperm. cbn [length] in Hperm. lia.
  - cbn [gesv].
    pose proof (swap_front_perm (argmax_abs (map lead rows)) rows) as HP.
    destruct (swap_front (argmax_abs (map lead rows)) rows) as [|p rest];
      [reflexivity|].
    destruct (Qeq_bool (lead p) 0) eqn:Hpiv; [reflexivity|].
    apply Qeq_bool_neq in Hpiv.
    pose proof (Permutation_length HP) as HL. cbn [length] in HL.
    assert (Hall : Permutation (p :: rest) (r1 :: r2 :: others))
      by (etransitivity; eassumption).
    assert (Hlr : length (map (eliminate p) rest) = n)
      by (rewrite length_map; lia).
    assert (Hin : In p (r1 :: r2 :: others))
      by (eapply Permutation_in; [exact Hall|now left]).
    destruct Hin as [<-|[<-|Hin]].
    + apply Permutation_cons_inv in Hall.
      rewrite (gesv_zero_row n _ (eliminate r1 r2) Hlr); auto.
      * apply in_map. eapply Permutation_in;
          [apply Permutation_sym; exact Hall|now left].
      * now apply eliminate_self.
    + rewrite (perm_swap r2 r1 others) in Hall.
      apply Permutation_cons_inv in Hall.
      rewrite (gesv_zero_row n _ (eliminate r2 r1) Hlr); auto.
      * apply in_map. eapply Permutation_in;
          [apply Permutation_sym; exact Hall|now left].
      * apply eliminate_self; auto. now apply same_coeffs_sym.
    + apply in_split in Hin. destruct Hin as (l1 & l2 & ->).
      assert (Hrest : Permutation rest (r1 :: r2 :: l1 ++ l2)).
      { apply (Permutation_cons_inv (a := p)).
        rewrite Hall. apply Permutation_sym.
        exact (Permutation_middle (r1 :: r2 :: l1) l2 p). }
      rewrite (IH (map (eliminate p) rest) (eliminate p r1) (eliminate p r2)
                  (map (eliminate p) (l1 ++ l2))); auto.
      * apply (Permutation_map (eliminate p)) in Hrest. exact Hrest.
      * now apply eliminate_same.
Qed.

Lemma pick_two {A : Type} (l : list A) (i j : nat) (d : A) :
  (i < j < length l)%nat ->
  exists others, Permutation l (nth i l d :: nth j l d :: others).
Proof.
  intros [Hij Hj].
  destruct (nth_split l d (n := i)) as (l1 & l2 & Hl & Hl1); [lia|].
  assert (Hnj : nth j l d = nth (j - i - 1) l2 d).
  { rewrite Hl at 1. rewrite app_nth2 by lia. rewrite Hl1.
    replace (j - i)%nat with (S (j - i - 1)) at 1 by lia. reflexivity. }
  assert (Hlen2 : (j - i - 1 < length l2)%nat).
  { rewrite Hl in Hj. rewrite length_app in Hj. cbn [length] in Hj. lia. }
  destruct (nth_split l2 d Hlen2) as (l3 & l4 & Hl2 & _).
  exists (l1 ++ l3 ++ l4).
  rewrite Hnj. set (a := nth i l d) in *. set (b := nth (j - i - 1) l2 d) in *.
  rewrite Hl, Hl2.
  rewrite <- Permutation_middle. apply perm_skip.
  rewrite app_assoc, <- Permutation_middle, <- app_assoc. reflexivity.
Qed.

End Singular.

(** ** A zero pivot means a singular system *)

Section Kernel.
Import Linalg.

Lemma argmax_abs_spec (l : list Q) :
  l <> [] ->
  (argmax_abs l < length l)%nat /\
  Forall (fun a => Qabs a <= Qabs (nth (argmax_abs l) l 0)) l.
Proof.
  induction l as [|a tl IH]; intros Hne; [congruence|].
  destruct tl as [|b tl'] eqn:Etl.
  - cbn. split; [lia|]. constructor; [apply Qle_refl|constructor].
  - rewrite <- Etl in *.
    assert (Hne' : tl <> []) by (rewrite Etl; discriminate).
    destruct (IH Hne') as [Hk Hall].
    change (argmax_abs (a :: tl))
      with (match tl with
            | [] => O
            | _ :: _ =>
              let k := argmax_abs tl in
              if Qle_bool (Qabs (nth k tl 0)) (Qabs a) then O else S k
            end).
    rewrite Etl. rewrite <- Etl. cbv zeta.
    destruct (Qle_bool (Qabs (nth (argmax_abs tl) tl 0)) (Qabs a)) eqn:E.
    + apply Qle_bool_iff in E. split; [cbn [length]; lia|].
      cbn [nth]. constructor; [apply Qle_refl|].
      eapply Forall_impl; [|exact Hall].
      intros c Hc. cbv beta in Hc. eapply Qle_trans; eauto.
    + assert (E' : Qabs a < Qabs (nth (argmax_abs tl) tl 0)).
      { apply Qnot_le_lt. intros H. apply Qle_bool_iff in H. congruence. }
      split; [cbn [length]; lia|].
      cbn [nth]. constructor; [now apply Qlt_le_weak|exact Hall].
Qed.

Lemma swap_front_hd (k : nat) (rows : list row) (d : row) :
  (k < length rows)%nat -> hd d (swap_front k rows) = nth k rows d.
Proof.
  intros Hk. destruct rows as [|r0 tl]; [cbn in Hk; lia|].
  destruct k as [|k]; [reflexivity|].
  unfold swap_front. cbn [length] in Hk.
  destruct (nth_error tl k) as [rk|] eqn:E.
  - cbn [hd nth]. symmetry. now apply nth_error_nth.
  - apply nth_error_None in E. lia.
Qed.

Lemma dot_zeros (r : list Q) (n : nat) : dot r (repeat 0 n) == 0.
Proof.
  revert n. induction r as [|a r IH]; intros [|n]; cbn [repeat dot];
    try reflexivity.
  rewrite IH. ring.
Qed.

(** When [gesv] finds a zero pivot, the homogeneous system has a
    solution that is not zero. *)
Lemma gesv_singular (n : nat) :
  forall rows,
    square n rows -> gesv n rows = None ->
    exists w,
      length w = n /\ Exists (fun c => ~ c == 0) w /\
      Forall (fun r => dot (fst r) w == 0) rows.
Proof.
  induction n as [|n IH]; intros rows Hsq Hnone; [discriminate|].
  cbn [gesv] in Hnone.
  pose proof (swap_front_perm (argmax_abs (map lead rows)) rows) as HP.
  assert (Hrows : rows <> []).
  { destruct Hsq as [Hlen _]. intros ->. discriminate. }
  assert (Hml : map lead rows <> []).
  { destruct rows; [congruence|discriminate]. }
  destruct (argmax_abs_spec _ Hml) as [Hk Hmax].
  rewrite length_map in Hk.
  pose proof (swap_front_hd _ rows ([], 0) Hk) as Hhd.
  destruct (swap_front (argmax_abs (map lead rows)) rows) as [|p rest].
  { apply Permutation_nil in HP. congruence. }
  cbn [hd] in Hhd.
  assert (Hsq' : square (S n) (p :: rest))
    by (eapply square_perm; [apply Permutation_sym; exact HP|exact Hsq]).
  destruct (Qeq_bool (lead p) 0) eqn:Hpiv.
  - apply Qeq_bool_iff in Hpiv.
    exists (1 :: repeat 0 n). split; [cbn [length]; now rewrite repeat_length|].
    split; [left; lra|].
    assert (Hn : nth (argmax_abs (map lead rows)) (map lead rows) 0 = lead p).
    { rewrite Hhd. apply (map_nth lead rows ([], 0)). }
    rewrite Hn, Forall_map in Hmax.
    destruct Hsq as [_ Hlens].
    rewrite Forall_forall in Hmax, Hlens |- *.
    intros [[|b tr] sr] Hin; specialize (Hlens _ Hin); [discriminate|].
    specialize (Hmax _ Hin). unfold lead in Hmax at 1. cbn [fst hd] in *.
    rewrite Hpiv in Hmax. cbn [dot]. rewrite dot_zeros.
    assert (Hb : b == 0).
    { apply Qabs_Qle_condition in Hmax.
      change (Qabs 0) with 0 in Hmax. lra. }
    rewrite Hb. ring.
  - apply Qeq_bool_neq in Hpiv. clear Hhd Hmax.
    destruct (gesv n (map (eliminate p) rest)) as [v|] eqn:Hrec;
      [discriminate|].
    destruct (IH _ (square_eliminate _ _ _ Hsq') Hrec) as (w & Hlw & Hnz & Hall).
    destruct Hsq' as [_ Hlens].
    inversion Hlens as [|? ? Hp Hrest]; subst.
    unfold lead in Hpiv.
    destruct p as [[|a tp] sp]; [discriminate|].
    cbn [fst snd hd tl length] in *.
    exists (- dot tp w / a :: w).
    split; [cbn [length]; reflexivity|].
    split; [now right|].
    eapply Permutation_Forall; [exact HP|].
    constructor.
    + cbn [fst dot]. field. exact Hpiv.
    + rewrite Forall_map in Hall.
      rewrite Forall_forall in Hall, Hrest |- *.
      intros [[|b tr] sr] Hin; specialize (Hrest _ Hin); [discriminate|].
      specialize (Hall _ Hin).
      unfold eliminate, lead in Hall.
      cbn [fst snd hd tl length dot] in *.
      rewrite dot_axpy in Hall by congruence.
      assert (Hd : dot tr w == b / a * dot tp w) by lra.
      rewrite Hd. field. exact Hpiv.
Qed.

End Kernel.

(** ** The extended interpolation solver *)

Section SolverFacts.
Import Linalg.

Lemma Qpower_S (x : Q) (k : nat) : x ^ Z.of_nat (S k) == x ^ Z.of_nat k * x.
Proof.
  rewrite Nat2Z.inj_succ. unfold Z.succ.
  rewrite Qpower_plus' by lia. now rewrite Qpower_1_r.
Qed.

Lemma psum_from_peval (p : poly) (x : Q) :
  forall k, psum_from k p x == x ^ Z.of_nat k * peval p x.
Proof.
  induction p as [|c p IH]; intros k; cbn [psum_from peval].
  - ring.
  - rewrite IH, Qred_correct, Qpower_S. ring.
Qed.

(** The Horner value is the sum of the monomials. *)
Lemma peval_psum (p : poly) (x : Q) : peval p x == psum p x.
Proof.
  unfold psum. rewrite psum_from_peval. cbn [Z.of_nat Qpower]. ring.
Qed.

Lemma vander_row_length (n : nat) (x : Q) : length (vander_row n x) = n.
Proof. unfold vander_row. now rewrite length_map, length_seq. Qed.

Lemma set_last_vander (m : nat) (x c : Q) :
  set_last (vander_row (S m) x) c = vander_row m x ++ [c].
Proof.
  unfold set_last, vander_row.
  rewrite seq_S, map_app. cbn [map]. now rewrite removelast_last.
Qed.

Lemma dot_app (a b c d : list Q) :
  length a = length b -> dot (a ++ c) (b ++ d) == dot a b + dot c d.
Proof.
  revert b. induction a as [|u a IH]; intros [|w b] Hlen;
    cbn [length app dot] in *; try discriminate.
  - ring.
  - rewrite IH by congruence. ring.
Qed.

Lemma dot_vander (x : Q) (p : poly) :
  forall k,
    dot (map (fun j => x ^ Z.of_nat j) (seq k (length p))) p == psum_from k p x.
Proof.
  induction p as [|c p IH]; intros k; cbn [length seq map dot psum_from].
  - reflexivity.
  - rewrite IH. ring.
Qed.

Lemma system_length (col x y : list Q) :
  length col = length x -> length y = length x ->
  length (system col x y) = length x.
Proof.
  intros Hc Hy. unfold system.
  rewrite length_map, !length_combine. lia.
Qed.

Lemma system_nth (col x y : list Q) (i : nat) :
  length col = length x -> length y = length x ->
  nth i (system col x y) (default_row (length x))
  = (set_last (vander_row (length x) (nth i x 0)) (nth i col 0), nth i y 0).
Proof.
  intros Hc Hy. unfold system, default_row.
  change (set_last (vander_row (length x) 0) 0, 0)
    with ((fun t : Q * Q * Q =>
             (set_last (vander_row (length x) (fst (fst t))) (snd (fst t)),
              snd t)) (0, 0, 0)).
  rewrite map_nth.
  rewrite combine_nth by (rewrite length_combine; lia).
  rewrite combine_nth by lia.
  reflexivity.
Qed.

Lemma system_square (col x y : list Q) :
  length col = length x -> length y = length x ->
  square (length x) (system col x y).
Proof.
  intros Hc Hy. split; [now apply system_length|].
  destruct x as [|x0 xs]; [constructor|].
  unfold system. apply Forall_map, Forall_forall. intros t _.
  cbn [fst length].
  rewrite set_last_vander, length_app, vander_row_length.
  cbn [length]. lia.
Qed.

(** What a successful call of the solver returns: the unknowns without
    the last one, and the absolute value of the last one, which
    together satisfy every equation of the system. *)
Lemma solve_with_identity (col x y : list Q) (p : poly) (e : Q) :
  length col = length x ->
  solve_with col x y = Ok (p, e) ->
  exists eps,
    e = Qabs eps /\
    (length p + 1)%nat = length x /\
    length y = length x /\
    forall i, (i < length x)%nat ->
      psum p (nth i x 0) + nth i col 0 * eps == nth i y 0.
Proof.
  intros Hc Hs. unfold solve_with in Hs.
  destruct x as [|x0 xs] eqn:Ex; [discriminate|]. rewrite <- Ex in *.
  destruct (Nat.eqb (length y) (length x)) eqn:Hy; [|discriminate].
  apply Nat.eqb_eq in Hy. cbn [negb] in Hs.
  destruct (gesv (length x) (system col x y)) as [v|] eqn:Hg; [|discriminate].
  injection Hs as <- <-.
  destruct (gesv_sound _ _ _ (system_square col x y Hc Hy) Hg) as [Hlv Hall].
  assert (Hn : length x = S (length xs)) by (rewrite Ex; reflexivity).
  assert (Hv : v <> []) by (intros ->; cbn [length] in Hlv; lia).
  pose proof (app_removelast_last 0 Hv) as Hsplit.
  assert (Hlp : length (removelast v) = length xs).
  { rewrite Hsplit in Hlv. rewrite length_app in Hlv.
    cbn [length] in Hlv. lia. }
  exists (last v 0). split; [reflexivity|]. split; [lia|]. split; [exact Hy|].
  intros i Hi.
  rewrite Forall_forall in Hall.
  assert (Hin : In (nth i (system col x y) (default_row (length x)))
                   (system col x y)).
  { apply nth_In. rewrite system_length; auto. }
  specialize (Hall _ Hin). rewrite system_nth in Hall by auto.
  unfold satisfies in Hall. cbn [fst snd] in Hall.
  rewrite Hn, set_last_vander in Hall.
  rewrite Hsplit in Hall at 1.
  rewrite dot_app in Hall by (rewrite vander_row_length; lia).
  unfold vander_row in Hall. rewrite <- Hlp, dot_vander in Hall.
  cbn [dot] in Hall. unfold psum. rewrite <- Hall. ring.
Qed.

Lemma signs_length (n : nat) : length (signs n) = n.
Proof. unfold signs. now rewrite length_map, length_seq. Qed.

Lemma signs_nth (n i : nat) : (i < n)%nat -> nth i (signs n) 0 = alt_sign i.
Proof.
  intros Hi. unfold signs.
  rewrite nth_indep with (d' := alt_sign 0) by (now rewrite length_map, length_seq).
  rewrite map_nth, seq_nth by lia. reflexivity.
Qed.

End SolverFacts.

(** ** Claims on the solver *)

Section SolverClaims.

Lemma nth_map_in {A B : Type} (f : A -> B) (l : list A) (i : nat)
      (d : B) (d' : A) :
  (i < length l)%nat -> nth i (map f l) d = f (nth i l d').
Proof.
  intros Hi. rewrite nth_indep with (d' := f d') by (now rewrite length_map).
  apply map_nth.
Qed.

Lemma weigh_ok (A Aweight x : Q) :
  ~ Aweight == 0 -> weigh A Aweight x = Ok (weight A Aweight x).
Proof.
  intros Hw. unfold weigh, weight.
  destruct (Qle_bool x A); [|reflexivity].
  destruct (Qeq_bool Aweight 0) eqn:E; [|reflexivity].
  apply Qeq_bool_iff in E. contradiction.
Qed.

Lemma mapM_weigh (A Aweight : Q) (x : list Q) :
  ~ Aweight == 0 ->
  mapM (weigh A Aweight) x = Ok (map (weight A Aweight) x).
Proof.
  intros Hw. induction x as [|a x IH]; cbn [mapM map]; [reflexivity|].
  rewrite weigh_ok, IH by assumption. reflexivity.
Qed.

Lemma error_column_ok (A Aweight : Q) (x : list Q) :
  ~ Aweight == 0 ->
  exists col,
    error_column A Aweight x = Ok col /\
    length col = length x /\
    forall i, (i < length x)%nat ->
      nth i col 0 = alt_sign i * weight A Aweight (nth i x 0).
Proof.
  intros Hw. unfold error_column. rewrite mapM_weigh by assumption.
  cbn [bind]. eexists. split; [reflexivity|]. split.
  - rewrite length_map, length_combine, signs_length, length_map. lia.
  - intros i Hi.
    rewrite nth_map_in with (d' := (0, 0))
      by (rewrite length_combine, signs_length, length_map; lia).
    rewrite combine_nth by (now rewrite signs_length, length_map).
    cbn [fst snd]. rewrite signs_nth by assumption.
    now rewrite nth_map_in with (d' := 0).
Qed.

(** C1 (as amended).  Whenever the solver returns [(p, e)], unweighted
    ([W] constantly 1) or weighted ([W] the weighting function of
    [remez_fit2]), [e] is non-negative, [p] has one coefficient fewer
    than there are points, and there is a signed value [eps] with
    [|eps| = e] such that for every index [i]
    [sum_k p[k] x[i]^k + (-1)^i * W(x[i]) * eps = y[i]]: the error term
    carries the sign of the last unknown and is multiplied, not divided,
    by the weight. *)
Theorem solve_interpolation_identity
        (W : Q -> Q) (x y : list Q) (p : poly) (e : Q) :
  (W = (fun _ => 1) /\ solve x y = Ok (p, e)) \/
  (exists A Aweight,
      ~ Aweight == 0 /\ W = weight A Aweight /\
      solve2 A Aweight x y = Ok (p, e)) ->
  0 <= e /\
  (length p + 1)%nat = length x /\
  exists eps,
    Qabs eps == e /\
    forall i, (i < length x)%nat ->
      psum p (nth i x 0) + alt_sign i * W (nth i x 0) * eps == nth i y 0.
Proof.
  intros [[-> Hs]|(A & Aweight & Hw & -> & Hs)].
  - unfold solve in Hs.
    destruct (solve_with_identity _ _ _ _ _ (signs_length _) Hs)
      as (eps & -> & Hlen & _ & Hid).
    split; [apply Qabs_nonneg|]. split; [exact Hlen|].
    exists eps. split; [reflexivity|].
    intros i Hi. rewrite <- (Hid i Hi), signs_nth by assumption. ring.
  - unfold solve2 in Hs.
    destruct x as [|x0 xs] eqn:Ex; [discriminate|]. rewrite <- Ex in *.
    destruct (error_column_ok A Aweight x Hw) as (col & Hcol & Hlc & Hnth).
    rewrite Hcol in Hs. cbn [bind] in Hs.
    destruct (solve_with_identity _ _ _ _ _ Hlc Hs)
      as (eps & -> & Hlen & _ & Hid).
    split; [apply Qabs_nonneg|]. split; [exact Hlen|].
    exists eps. split; [reflexivity|].
    intros i Hi. rewrite <- (Hid i Hi), Hnth by assumption. reflexivity.
Qed.

(** The identity at the points [remez_fit(0.4, 0.6, 3, _)] starts from. *)
Lemma solve_interpolation_identity_witness :
  let x := [2#15; 4#15; 7#10; 8#10; 9#10] in
  let y := [1; 1; 0; 0; 0] in
  exists p e,
    solve x y = Ok (p, e) /\
    0 <= e /\
    (length p + 1)%nat = length x /\
    exists eps,
      Qabs eps == e /\
      forall i, (i < length x)%nat ->
        psum p (nth i x 0) + alt_sign i * (fun _ => 1) (nth i x 0) * eps
        == nth i y 0.
Proof.
  intros x y.
  destruct (solve x y) as [[p e]|] eqn:Hs; [|vm_compute in Hs; discriminate].
  exists p, e. split; [reflexivity|].
  apply (solve_interpolation_identity (fun _ => 1) x y p e).
  left. split; [reflexivity|exact Hs].
Defined.

(** C1 as stated fails.  With the non-negative [e] in place of the
    signed unknown the identity is off by [2e] at the points the driver
    starts from; and in the weighted solver, even when the last unknown
    is positive, dividing by [W] instead of multiplying misses the
    ordinate. *)
Lemma solve_identity_counterexample :
  (let x := [2#15; 4#15; 7#10; 8#10; 9#10] in
   let y := [1; 1; 0; 0; 0] in
   exists p e,
     solve x y = Ok (p, e) /\
     ~ (psum p (nth 0 x 0) + alt_sign 0 * e / 1 == nth 0 y 0)) /\
  (let x := [0; 1#2; 3#4; 1] in
   let y := [1; 0; 0; 0] in
   exists p e,
     solve2 (1#4) 10 x y = Ok (p, e) /\
     ~ (psum p (nth 0 x 0) + alt_sign 0 * e / weight (1#4) 10 (nth 0 x 0)
        == nth 0 y 0)).
Proof.
  split; cbv zeta.
  - eexists; eexists. split; [vm_compute; reflexivity|].
    vm_compute. discriminate.
  - eexists; eexists. split; [vm_compute; reflexivity|].
    vm_compute. discriminate.
Qed.

Lemma vander_row_compat (n : nat) (a b : Q) :
  a == b -> Forall2 Qeq (vander_row n a) (vander_row n b).
Proof.
  intros Hab. unfold vander_row.
  induction (seq 0 n) as [|j l IH]; cbn [map]; constructor; auto.
  now rewrite Hab.
Qed.

Lemma Exists_snoc (P : Q -> Prop) (q : list Q) (c : Q) :
  Exists P (q ++ [c]) -> Exists P q \/ P c.
Proof.
  intros H. apply Exists_app in H. destruct H as [H|H]; [now left|].
  inversion H as [? ? Hc|? ? Hn]; subst; [now right|inversion Hn].
Qed.

(** A vector in the kernel of the matrix of the solver, read as a
    polynomial and an error. *)
Lemma system_kernel (col x y w : list Q) :
  x <> [] -> length col = length x -> length y = length x ->
  length w = length x ->
  Forall (fun r => dot (fst r) w == 0) (system col x y) ->
  (length (removelast w) + 1)%nat = length x /\
  forall k, (k < length x)%nat ->
    psum (removelast w) (nth k x 0) + nth k col 0 * last w 0 == 0.
Proof.
  intros Hx Hc Hy Hlw Hker.
  destruct x as [|x0 xs] eqn:Ex; [congruence|]. rewrite <- Ex in *.
  assert (Hn : length x = S (length xs)) by (rewrite Ex; reflexivity).
  assert (Hw : w <> []) by (intros ->; cbn [length] in Hlw; lia).
  pose proof (app_removelast_last 0 Hw) as Hsplit.
  assert (Hlq : length (removelast w) = length xs).
  { rewrite Hsplit, length_app in Hlw. cbn [length] in Hlw. lia. }
  split; [lia|].
  intros k Hk. rewrite Forall_forall in Hker.
  assert (Hin : In (nth k (system col x y) (default_row (length x)))
                   (system col x y)).
  { apply nth_In. rewrite system_length; auto. }
  specialize (Hker _ Hin). rewrite system_nth in Hker by auto.
  cbn [fst] in Hker.
  rewrite Hn, set_last_vander in Hker. rewrite Hsplit in Hker at 1.
  rewrite dot_app in Hker by (rewrite vander_row_length; lia).
  unfold vander_row in Hker. rewrite <- Hlq, dot_vander in Hker.
  cbn [dot] in Hker. unfold psum. lra.
Qed.

Lemma loop_app (body : state -> result state) (a b : nat) :
  forall s, loop (a + b) body s = (s' <- loop a body s ;; loop b body s').
Proof.
  induction a as [|a IH]; intros s; cbn [Nat.add loop bind]; [reflexivity|].
  destruct (body s) as [s1|]; cbn [bind]; [apply IH|reflexivity].
Qed.

(** An exception raised in a round comes out of the loop. *)
Lemma loop_propagates (body : state -> result state) (n k : nat)
      (s sk : state) (ex : exn) :
  (k < n)%nat -> loop k body s = Ok sk -> body sk = Raise ex ->
  loop n body s = Raise ex.
Proof.
  intros Hk Hl Hb.
  replace n with (k + S (n - k - 1))%nat by lia.
  rewrite loop_app, Hl. cbn [bind loop]. now rewrite Hb.
Qed.

(** C5 (as amended).  When two abscissas at positions of equal parity
    coincide, two rows of the matrix of the solver coincide; the solver
    has no check of its own and can fail only with the [LinAlgError]
    of [np.linalg.solve]; the system is singular: the extended
    interpolation problem has no solution if the two ordinates differ,
    and it never has exactly one, since the problem with zero
    ordinates has a solution that is not zero.  An exception of the
    solver in any round of a fit comes out of the fit unchanged: the
    drivers neither catch it nor retry. *)
Theorem repeated_abscissa_singular_system (x y : list Q) (i j : nat) :
  (i < j < length x)%nat ->
  Nat.even i = Nat.even j ->
  nth i x 0 == nth j x 0 ->
  length y = length x ->
  same_coeffs (nth i (system (signs (length x)) x y) (default_row (length x)))
              (nth j (system (signs (length x)) x y) (default_row (length x)))
  /\
  (forall ex,
      solve x y = Raise ex ->
      ex = LinAlgError "Singular matrix"%string /\
      Linalg.gesv (length x) (system (signs (length x)) x y) = None) /\
  (~ nth i y 0 == nth j y 0 ->
   forall q eps,
     ~ (forall k, (k < length x)%nat ->
          psum q (nth k x 0) + alt_sign k * eps == nth k y 0)) /\
  (exists q eps,
      (length q + 1)%nat = length x /\
      (Exists (fun c => ~ c == 0) q \/ ~ eps == 0) /\
      forall k, (k < length x)%nat ->
        psum q (nth k x 0) + alt_sign k * eps == 0) /\
  (forall A B order iterations x0 y0 k sk ex,
      (order <? 3)%Z = false ->
      initial_points A B order = Ok (x0, y0) ->
      (k < Z.to_nat iterations)%nat ->
      loop k (remez_body A B order) (mkstate x0 y0 None no_data) = Ok sk ->
      solve (st_x sk) (st_y sk) = Raise ex ->
      remez_fit A B order iterations = Raise ex) /\
  (forall A B Aweight order iterations x0 y0 k sk ex,
      initial_points A B order = Ok (x0, y0) ->
      (k < Z.to_nat iterations)%nat ->
      loop k (remez2_body A B Aweight order) (mkstate x0 y0 None no_data)
      = Ok sk ->
      solve2 A Aweight (st_x sk) (st_y sk) = Raise ex ->
      remez_fit2 A B Aweight order iterations = Raise ex).
Proof.
  intros Hij Hpar Hx Hy.
  pose proof (signs_length (length x)) as Hc.
  assert (Hne : x <> []) by (intros ->; cbn [length] in Hij; lia).
  assert (Hsame : same_coeffs
                    (nth i (system (signs (length x)) x y)
                         (default_row (length x)))
                    (nth j (system (signs (length x)) x y)
                         (default_row (length x)))).
  { rewrite !system_nth by assumption.
    unfold same_coeffs. cbn [fst].
    destruct x as [|x0 xs] eqn:Ex; [congruence|]. rewrite <- Ex in *.
    assert (Hn : length x = S (length xs)) by (rewrite Ex; reflexivity).
    rewrite Hn, !set_last_vander.
    apply Forall2_app; [now apply vander_row_compat|].
    constructor; [|constructor].
    rewrite <- Hn, !signs_nth by lia.
    unfold alt_sign. now rewrite Hpar. }
  split; [exact Hsame|]. split; [|split; [|split; [|split]]].
  - intros ex Hs. unfold solve, solve_with in Hs.
    destruct x as [|x0 xs] eqn:Ex; [congruence|]. rewrite <- Ex in *.
    rewrite Hy, Nat.eqb_refl in Hs. cbn [negb] in Hs.
    destruct (Linalg.gesv _ _); [discriminate|].
    injection Hs as <-. now split.
  - intros Hyd q eps Hsol.
    pose proof (Hsol i ltac:(lia)) as Hi. pose proof (Hsol j ltac:(lia)) as Hj.
    assert (Hq : psum q (nth i x 0) == psum q (nth j x 0)).
    { rewrite <- !peval_psum. clear - Hx.
      induction q as [|c q IH]; cbn [peval]; [reflexivity|].
      now rewrite !Qred_correct, IH, Hx. }
    assert (Hs : alt_sign i = alt_sign j) by (unfold alt_sign; now rewrite Hpar).
    rewrite Hq, Hs in Hi. apply Hyd. lra.
  - destruct (pick_two (system (signs (length x)) x y) i j
                       (default_row (length x))) as [others HP].
    { now rewrite system_length. }
    pose proof (gesv_equal_rows _ _ _ _ _ (system_length _ _ _ Hc Hy) HP Hsame)
      as Hnone.
    destruct (gesv_singular _ _ (system_square _ x y Hc Hy) Hnone)
      as (w & Hlw & Hnz & Hker).
    destruct (system_kernel _ x y w Hne Hc Hy Hlw Hker) as [Hlq Hk].
    assert (Hw : w <> []) by (intros ->; cbn [length] in Hlw; lia).
    exists (removelast w), (last w 0). split; [exact Hlq|]. split.
    + rewrite (app_removelast_last 0 Hw) in Hnz.
      exact (Exists_snoc (fun c => ~ c == 0) _ _ Hnz).
    + intros k Hlt. specialize (Hk k Hlt).
      rewrite signs_nth in Hk by assumption. exact Hk.
  - intros A B order iterations x0 y0 k sk ex Hord Hinit Hk Hl Hs.
    unfold remez_fit. rewrite Hord, Hinit. cbn [bind].
    rewrite (loop_propagates _ _ k _ sk ex Hk Hl); [reflexivity|].
    unfold remez_body. now rewrite Hs.
  - intros A B Aweight order iterations x0 y0 k sk ex Hinit Hk Hl Hs.
    unfold remez_fit2. rewrite Hinit. cbn [bind].
    rewrite (loop_propagates _ _ k _ sk ex Hk Hl); [reflexivity|].
    unfold remez2_body. now rewrite Hs.
Qed.

Lemma repeated_abscissa_singular_system_witness :
  exists q eps,
    (length q + 1)%nat = 5%nat /\
    (Exists (fun c => ~ c == 0) q \/ ~ eps == 0) /\
    forall k, (k < 5)%nat ->
      psum q (nth k [0; 1#4; 0; 3#4; 1] 0) + alt_sign k * eps == 0.
Proof.
  refine (proj1 (proj2 (proj2 (proj2 (repeated_abscissa_singular_system
                                        [0; 1#4; 0; 3#4; 1] [1; 1; 1; 0; 0]
                                        0 2 _ _ _ _))))).
  - cbn [length]. lia.
  - reflexivity.
  - reflexivity.
  - reflexivity.
Defined.

(** C5 as stated fails: a repeated abscissa at positions of different
    parity leaves the system regular, and the solver returns. *)
Lemma solve_repeated_abscissa_counterexample :
  let x := [0; 0; 1#2; 3#4; 1] in
  let y := [1; 1; 0; 0; 0] in
  nth 0 x 0 == nth 1 x 0 /\
  solve x y = Ok ([1; -13#3; 6; -8#3], 0).
Proof.
  split; [reflexivity|vm_compute; reflexivity].
Qed.

End SolverClaims.

(** ** The initial interpolation points *)

Section InitialPoints.

Lemma int_of_floor (q : Q) : 0 <= q -> int_of q = Qfloor q.
Proof.
  destruct q as [n d]. unfold Qle, int_of, Qfloor. cbn [Qnum Qden].
  intros Hn. apply Z.quot_div_nonneg; lia.
Qed.

Lemma arange_from_1 (n : Z) :
  arange 1 (n + 1)
  = map (fun k => inject_Z (1 + Z.of_nat k)) (seq 0 (Z.to_nat n)).
Proof. unfold arange. now replace (n + 1 - 1)%Z with n by lia. Qed.

Lemma StronglySorted_map_seq (f : nat -> Q) (n : nat) :
  (forall i j, (i < j < n)%nat -> f i < f j) ->
  forall s, (s <= n)%nat -> StronglySorted Qlt (map f (seq s (n - s))).
Proof.
  intros Hf s Hs.
  remember (n - s)%nat as m eqn:Hm. revert s Hs Hm.
  induction m as [|m IH]; intros s Hs Hm; cbn [seq map]; constructor.
  - apply IH; lia.
  - apply Forall_forall. intros v Hv.
    apply in_map_iff in Hv. destruct Hv as (j & <- & Hj).
    apply in_seq in Hj. apply Hf. lia.
Qed.

Lemma StronglySorted_app (l1 l2 : list Q) :
  StronglySorted Qlt l1 -> StronglySorted Qlt l2 ->
  (forall a b, In a l1 -> In b l2 -> a < b) ->
  StronglySorted Qlt (l1 ++ l2).
Proof.
  intros H1 H2 H12.
  induction H1 as [|a l1 Hs IH Ha]; cbn [app]; [exact H2|].
  constructor.
  - apply IH. intros u v Hu Hv. apply H12; [now right|assumption].
  - apply Forall_app. split; [assumption|].
    apply Forall_forall. intros v Hv. apply H12; [now left|assumption].
Qed.

(** The evenly spaced points [a + k * (b - a) / (n + 1)], [k = 1..n],
    lie strictly inside [(a, b)] and increase. *)
Lemma interior_points (a b : Q) (n : Z) (k : nat) :
  a < b -> (Z.of_nat k < n)%Z ->
  let v := a + inject_Z (1 + Z.of_nat k) * ((b - a) / inject_Z (n + 1)) in
  a < v /\ v < b.
Proof.
  intros Hab Hk v. subst v.
  set (s := (b - a) / inject_Z (n + 1)).
  assert (Hn1 : 0 < inject_Z (n + 1)).
  { change 0 with (inject_Z 0). rewrite <- Zlt_Qlt. lia. }
  assert (Hs : 0 < s).
  { unfold s. apply Qlt_shift_div_l; [assumption|]. lra. }
  assert (Hsum : inject_Z (n + 1) * s == b - a).
  { unfold s. field. lra. }
  assert (Hk1 : 1 <= inject_Z (1 + Z.of_nat k)).
  { change 1 with (inject_Z 1). rewrite <- Zle_Qle. lia. }
  assert (Hk2 : inject_Z (1 + Z.of_nat k) + 1 <= inject_Z (n + 1)).
  { change 1 with (inject_Z 1). rewrite <- inject_Z_plus, <- Zle_Qle. lia. }
  split; nra.
Qed.

Lemma interior_points_increase (a b : Q) (n : Z) (i j : nat) :
  a < b -> (0 <= n)%Z -> (i < j)%nat ->
  a + inject_Z (1 + Z.of_nat i) * ((b - a) / inject_Z (n + 1))
  < a + inject_Z (1 + Z.of_nat j) * ((b - a) / inject_Z (n + 1)).
Proof.
  intros Hab Hn Hij.
  set (s := (b - a) / inject_Z (n + 1)).
  assert (Hn1 : 0 < inject_Z (n + 1)).
  { change 0 with (inject_Z 0). rewrite <- Zlt_Qlt. lia. }
  assert (Hs : 0 < s).
  { unfold s. apply Qlt_shift_div_l; [assumption|]. lra. }
  assert (Hk : inject_Z (1 + Z.of_nat i) < inject_Z (1 + Z.of_nat j)).
  { rewrite <- Zlt_Qlt. lia. }
  nra.
Qed.


Lemma even_interior_sorted (a b : Q) (n : nat) :
  a < b -> StronglySorted Qlt (even_interior a b n).
Proof.
  intros Hab. unfold even_interior.
  set (f := fun k : nat => _).
  assert (Hf : forall i j, (i < j < n)%nat -> f i < f j).
  { intros i j Hij. apply interior_points_increase; [assumption|lia|lia]. }
  pose proof (StronglySorted_map_seq f n Hf 0 (Nat.le_0_l n)) as HS.
  now rewrite Nat.sub_0_r in HS.
Qed.

Lemma even_interior_inside (a b : Q) (n : nat) :
  a < b -> Forall (fun v => a < v /\ v < b) (even_interior a b n).
Proof.
  intros Hab. unfold even_interior.
  apply Forall_forall. intros v Hv.
  apply in_map_iff in Hv. destruct Hv as (k & <- & Hk).
  apply in_seq in Hk. apply interior_points; [assumption|lia].
Qed.

Lemma Forall2_Qeq_Forall (P : Q -> Prop) (l l' : list Q) :
  (forall u v, u == v -> P v -> P u) ->
  Forall2 Qeq l l' -> Forall P l' -> Forall P l.
Proof.
  intros HP. induction 1 as [|u v l l' Huv Hl IH]; intros HF; [constructor|].
  inversion HF; subst. constructor; eauto.
Qed.

Lemma Forall2_Qeq_sorted (l l' : list Q) :
  Forall2 Qeq l l' -> StronglySorted Qlt l' -> StronglySorted Qlt l.
Proof.
  induction 1 as [|u v l l' Huv Hl IH]; intros HS; [constructor|].
  inversion HS as [|? ? HS' Hv]; subst. constructor; [auto|].
  eapply Forall2_Qeq_Forall with (P := Qlt u); [|exact Hl|].
  - intros x y Hxy Hy. now rewrite Hxy.
  - eapply Forall_impl; [|exact Hv]. intros y Hy. now rewrite Huv.
Qed.

Lemma Forall2_map_pointwise (f g : nat -> Q) (l : list nat) :
  (forall k, f k == g k) -> Forall2 Qeq (map f l) (map g l).
Proof.
  intros Hfg. induction l; cbn [map]; constructor; auto.
Qed.

Lemma int_of_nonpos (q : Q) : q <= 0 -> (int_of q <= 0)%Z.
Proof.
  destruct q as [n d]. unfold Qle, int_of. cbn [Qnum Qden]. intros Hn.
  assert (H : (0 <= Z.quot (- n) (Z.pos d))%Z) by (apply Z.quot_pos; lia).
  rewrite Z.quot_opp_l in H by lia. lia.
Qed.

(** The integer part of a value below [n] is below [n]. *)
Lemma int_of_lt (q : Q) (n : Z) :
  (0 < n)%Z -> q < inject_Z n -> (int_of q < n)%Z.
Proof.
  intros Hn Hq.
  destruct (Qlt_le_dec q 0) as [Hneg|Hpos].
  - pose proof (int_of_nonpos q (Qlt_le_weak _ _ Hneg)). lia.
  - rewrite (int_of_floor q Hpos), Zlt_Qlt.
    eapply Qle_lt_trans; [apply Qfloor_le|exact Hq].
Qed.

(** What [initial_points_from] returns, whenever it returns. *)
Lemma initial_points_from_inv (s A B : Q) (order : Z) (x y : list Q) :
  initial_points_from s A B order = Ok (x, y) ->
  exists nA nB : nat,
    (2 <= nA)%nat /\
    Z.of_nat nA = Z.max 2 (int_of s) /\
    Z.of_nat (nA + nB) = (order + 2)%Z /\
    x = map (fun k => k * (A / inject_Z (Z.of_nat nA + 1)))
            (arange 1 (Z.of_nat nA + 1))
        ++ map (fun k => B + k * ((1 - B) / inject_Z (Z.of_nat nB + 1)))
               (arange 1 (Z.of_nat nB + 1)) /\
    y = repeat 1 nA ++ repeat 0 nB.
Proof.
  unfold initial_points_from.
  set (ptsA := if (int_of s <? 2)%Z then 2%Z else int_of s).
  assert (HptsA : ptsA = Z.max 2 (int_of s))
    by (unfold ptsA; destruct (Z.ltb_spec (int_of s) 2); lia).
  destruct (Z.eqb_spec (order + 2 - ptsA + 1) 0) as [|_]; [discriminate|].
  destruct (Z.ltb_spec (order + 2 - ptsA) 0) as [|HB]; [discriminate|].
  intros H. injection H as <- <-.
  exists (Z.to_nat ptsA), (Z.to_nat (order + 2 - ptsA)).
  assert (HnA : Z.of_nat (Z.to_nat ptsA) = ptsA) by lia.
  assert (HnB : Z.of_nat (Z.to_nat (order + 2 - ptsA)) = (order + 2 - ptsA)%Z)
    by lia.
  split; [lia|]. split; [lia|]. split; [lia|].
  rewrite HnA, HnB. split; reflexivity.
Qed.

(** [initial_points_from] returns when the first region leaves room
    for the second. *)
Lemma initial_points_from_ok (s A B : Q) (order : Z) :
  (Z.max 2 (int_of s) <= order + 2)%Z ->
  exists x y, initial_points_from s A B order = Ok (x, y).
Proof.
  intros H. unfold initial_points_from.
  set (ptsA := if (int_of s <? 2)%Z then 2%Z else int_of s).
  assert (HptsA : ptsA = Z.max 2 (int_of s))
    by (unfold ptsA; destruct (Z.ltb_spec (int_of s) 2); lia).
  destruct (Z.eqb_spec (order + 2 - ptsA + 1) 0) as [E|_]; [lia|].
  destruct (Z.ltb_spec (order + 2 - ptsA) 0) as [E|_]; [lia|].
  eexists. eexists. reflexivity.
Qed.

(** The points of the two groups: evenly spaced inside the regions,
    increasing, with the ordinates of their regions. *)
Lemma initial_groups (A B : Q) (nA nB : nat) :
  0 < A -> A < B -> B < 1 ->
  let x := map (fun k => k * (A / inject_Z (Z.of_nat nA + 1)))
               (arange 1 (Z.of_nat nA + 1))
           ++ map (fun k => B + k * ((1 - B) / inject_Z (Z.of_nat nB + 1)))
                  (arange 1 (Z.of_nat nB + 1)) in
  length x = (nA + nB)%nat /\
  Forall2 Qeq x (even_interior 0 A nA ++ even_interior B 1 nB) /\
  StronglySorted Qlt x /\
  Forall (fun v => (0 < v /\ v < A) \/ (B < v /\ v < 1)) x.
Proof.
  intros HA HAB HB x.
  assert (Hx : Forall2 Qeq x
                 (even_interior 0 A nA ++ even_interior B 1 nB)).
  { unfold x. rewrite !arange_from_1, !map_map, !Nat2Z.id.
    unfold even_interior.
    apply Forall2_app; apply Forall2_map_pointwise; intros k.
    - unfold Qdiv. ring.
    - reflexivity. }
  assert (Hsorted : StronglySorted Qlt
                      (even_interior 0 A nA ++ even_interior B 1 nB)).
  { apply StronglySorted_app; try (apply even_interior_sorted; lra).
    intros a b Ha Hb.
    pose proof (even_interior_inside 0 A nA HA) as H1.
    pose proof (even_interior_inside B 1 nB HB) as H2.
    rewrite Forall_forall in H1, H2.
    specialize (H1 _ Ha). specialize (H2 _ Hb). lra. }
  assert (Hinside : Forall (fun v => (0 < v /\ v < A) \/ (B < v /\ v < 1))
                      (even_interior 0 A nA ++ even_interior B 1 nB)).
  { apply Forall_app. split.
    - eapply Forall_impl; [|apply (even_interior_inside 0 A nA HA)].
      intros v Hv. now left.
    - eapply Forall_impl; [|apply (even_interior_inside B 1 nB HB)].
      intros v Hv. now right. }
  split.
  { rewrite (Forall2_length Hx), length_app.
    unfold even_interior. now rewrite !length_map, !length_seq. }
  split; [exact Hx|]. split.
  - eapply Forall2_Qeq_sorted; eassumption.
  - eapply Forall2_Qeq_Forall; [|exact Hx|exact Hinside].
    intros u v Huv Hv. cbv beta in *. now rewrite Huv.
Qed.

(** What [initial_points] computes on a valid specification. *)
Lemma initial_points_ok (A B : Q) (order : Z) :
  0 < A -> A < B -> B < 1 -> (3 <= order)%Z ->
  exists nA nB : nat,
    (2 <= nA)%nat /\ (1 <= nB)%nat /\
    Z.of_nat (nA + nB) = (order + 2)%Z /\
    Z.of_nat nA
    = Z.max 2 (Qfloor (inject_Z (order + 2) * A / (A - B + 1))) /\
    initial_points A B order
    = Ok (map (fun k => k * (A / inject_Z (Z.of_nat nA + 1)))
              (arange 1 (Z.of_nat nA + 1))
          ++ map (fun k => B + k * ((1 - B) / inject_Z (Z.of_nat nB + 1)))
                 (arange 1 (Z.of_nat nB + 1)),
          repeat 1 nA ++ repeat 0 nB).
Proof.
  intros HA HAB HB Hord.
  set (q := inject_Z (order + 2) * A / (A - B + 1)).
  assert (Hpts : 5 <= inject_Z (order + 2)).
  { change 5 with (inject_Z 5). rewrite <- Zle_Qle. lia. }
  assert (Hden : 0 < A - B + 1) by lra.
  assert (Hq0 : 0 <= q).
  { unfold q. apply Qle_shift_div_l; [assumption|]. nra. }
  assert (Hq1 : q < inject_Z (order + 2)).
  { unfold q. apply Qlt_shift_div_r; [assumption|]. nra. }
  pose proof (int_of_lt q (order + 2) ltac:(lia) Hq1) as Hint.
  assert (Hnn : (0 <= int_of q)%Z).
  { rewrite (int_of_floor q Hq0). change 0%Z with (Qfloor 0).
    now apply Qfloor_resp_le. }
  destruct (initial_points_from_ok q A B order ltac:(lia)) as (x & y & Hfrom).
  destruct (initial_points_from_inv q A B order x y Hfrom)
    as (nA & nB & HnA & Hmax & Hsum & -> & ->).
  exists nA, nB.
  split; [exact HnA|]. split; [lia|]. split; [exact Hsum|].
  split; [now rewrite <- (int_of_floor q Hq0)|].
  unfold initial_points.
  destruct (Qeq_bool (A - B + 1) 0) eqn:E.
  { apply Qeq_bool_iff in E. lra. }
  exact Hfrom.
Qed.

(** C6 (as amended).  On a valid specification, with [s] the value the
    code computes for the quotient [(order + 2) A / (A - B + 1)] and
    [s < order + 2] (as the exact quotient is), the initial candidate
    set has exactly [order + 2] points: the first [max 2 (int s)] of
    them in [[0, A]], so at least two, and the rest, at least one, in
    [[B, 1]]; each group is evenly spaced inside its region, the whole
    sequence increases strictly, and the ordinates are 1 on the first
    group and 0 on the second. *)
Theorem initial_points_shape (s A B : Q) (order : Z) :
  0 < A -> A < B -> B < 1 -> (3 <= order)%Z ->
  s < inject_Z (order + 2) ->
  exists (nA nB : nat) (x y : list Q),
    initial_points_from s A B order = Ok (x, y) /\
    Z.of_nat nA = Z.max 2 (int_of s) /\
    (2 <= nA)%nat /\ (1 <= nB)%nat /\
    Z.of_nat (nA + nB) = (order + 2)%Z /\
    length x = (nA + nB)%nat /\
    Forall2 Qeq x (even_interior 0 A nA ++ even_interior B 1 nB) /\
    y = repeat 1 nA ++ repeat 0 nB /\
    StronglySorted Qlt x /\
    Forall (fun v => (0 < v /\ v < A) \/ (B < v /\ v < 1)) x.
Proof.
  intros HA HAB HB Hord Hs.
  pose proof (int_of_lt s (order + 2) ltac:(lia) Hs) as Hint.
  destruct (initial_points_from_ok s A B order ltac:(lia)) as (x & y & Hfrom).
  destruct (initial_points_from_inv s A B order x y Hfrom)
    as (nA & nB & HnA & Hmax & Hsum & Hx & Hy).
  exists nA, nB, x, y.
  destruct (initial_groups A B nA nB HA HAB HB) as (H1 & H2 & H3 & H4).
  rewrite <- Hx in H1, H2, H3, H4.
  split; [exact Hfrom|]. split; [exact Hmax|]. split; [exact HnA|].
  split; [lia|]. split; [exact Hsum|]. split; [exact H1|].
  split; [exact H2|]. split; [exact Hy|]. split; assumption.
Qed.

Lemma initial_points_shape_witness :
  exists (nA nB : nat) (x y : list Q),
    initial_points_from (5#2) (2#5) (3#5) 3 = Ok (x, y) /\
    Z.of_nat nA = Z.max 2 (int_of (5#2)) /\
    (2 <= nA)%nat /\ (1 <= nB)%nat /\
    Z.of_nat (nA + nB) = (3 + 2)%Z /\
    length x = (nA + nB)%nat /\
    Forall2 Qeq x (even_interior 0 (2#5) nA ++ even_interior (3#5) 1 nB) /\
    y = repeat 1 nA ++ repeat 0 nB /\
    StronglySorted Qlt x /\
    Forall (fun v => (0 < v /\ v < 2#5) \/ (3#5 < v /\ v < 1)) x.
Proof.
  apply (initial_points_shape (5#2) (2#5) (3#5) 3).
  - reflexivity.
  - reflexivity.
  - reflexivity.
  - lia.
  - reflexivity.
Defined.

(** C6 as stated fails: with [A = 0.9], [B = 0.95] and [order = 3],
    four of the five points go to [[0, A]] and a single one to
    [[B, 1]]. *)
Lemma initial_points_counterexample :
  exists x y,
    initial_points (9#10) (19#20) 3 = Ok (x, y) /\
    length (filter (fun v => Qle_bool (19#20) v) x) = 1%nat /\
    length (filter (fun v => Qle_bool v (9#10)) x) = 4%nat.
Proof.
  eexists; eexists. split; [vm_compute; reflexivity|].
  split; vm_compute; reflexivity.
Qed.

End InitialPoints.

(** ** The exchange driver: the loop and what it returns *)

Section DriverFacts.

(** The last round of [n + 1] rounds. *)
Lemma loop_last (body : state -> result state) (n : nat) :
  forall s, loop (S n) body s = (s1 <- loop n body s ;; body s1).
Proof.
  induction n as [|n IH]; intros s.
  - cbn [loop bind]. destruct (body s); reflexivity.
  - change (loop (S (S n)) body s) with (s' <- body s ;; loop (S n) body s').
    change (loop (S n) body s) with (s' <- body s ;; loop n body s').
    destruct (body s) as [s'|]; cbn [bind]; [apply IH|reflexivity].
Qed.

(** After at least one round the state is the one a round leaves. *)
Lemma loop_result (body : state -> result state) (n : nat) (s s' : state) :
  loop n body s = Ok s' ->
  (n = O /\ s' = s) \/ (exists s1, body s1 = Ok s').
Proof.
  destruct n as [|n]; intros H.
  - left. cbn [loop] in H. now injection H as <-.
  - right. rewrite loop_last in H.
    destruct (loop n body s) as [s1|]; [|discriminate].
    cbn [bind] in H. now exists s1.
Qed.

Lemma remez_body_result (A B : Q) (order : Z) (s s' : state) :
  remez_body A B order s = Ok s' ->
  exists p e,
    solve (st_x s) (st_y s) = Ok (p, e) /\
    st_p s' = Some p /\
    st_data s' = mkdata (Some (st_x s)) (Some (st_y s)) (Some e) None None
                        (Some (st_x s')).
Proof.
  unfold remez_body. intros H.
  destruct (solve (st_x s) (st_y s)) as [[p e]|]; [|discriminate].
  cbn [bind] in H.
  destruct (select _ e order _ _) as [alt|]; [|discriminate].
  cbn [bind] in H. injection H as <-.
  exists p, e. cbn [st_p st_data st_x]. auto.
Qed.

Lemma remez2_body_result (A B Aweight : Q) (order : Z) (s s' : state) :
  remez2_body A B Aweight order s = Ok s' ->
  exists p e,
    solve2 A Aweight (st_x s) (st_y s) = Ok (p, e) /\
    st_p s' = Some p /\
    st_data s' = mkdata (Some (st_x s)) (Some (st_y s)) None
                        (Some (e / Aweight)) (Some e) (Some (st_x s')).
Proof.
  unfold remez2_body. intros H.
  destruct (solve2 A Aweight (st_x s) (st_y s)) as [[p e]|]; [|discriminate].
  cbn [bind] in H.
  destruct (select _ e order _ _) as [alt|]; [|discriminate].
  cbn [bind] in H. injection H as <-.
  exists p, e. cbn [st_p st_data st_x]. auto.
Qed.

(** [remez_fit] rejects a small order before anything else. *)
Lemma remez_fit_small_order (A B : Q) (order iterations : Z) :
  (order < 3)%Z ->
  remez_fit A B order iterations
  = Raise (ValueError "order is too small, we need at least 3"%string).
Proof.
  intros H. unfold remez_fit.
  destruct (Z.ltb_spec order 3); [reflexivity|lia].
Qed.

(** C10.  On a valid specification, a call with a non-positive
    iteration count runs the loop body zero times and fails at
    [return p, data] with [p] unbound, in [remez_fit] and in
    [remez_fit2]; so a call that returns had [iterations >= 1]. *)
Theorem no_iteration_unbound (A B Aweight : Q) (order iterations : Z) :
  0 < A -> A < B -> B < 1 -> (3 <= order)%Z ->
  ((iterations <= 0)%Z ->
   remez_fit A B order iterations = Raise (UnboundLocalError "p"%string) /\
   remez_fit2 A B Aweight order iterations
   = Raise (UnboundLocalError "p"%string)) /\
  (forall r,
      remez_fit A B order iterations = Ok r \/
      remez_fit2 A B Aweight order iterations = Ok r ->
      (1 <= iterations)%Z).
Proof.
  intros HA HAB HB Hord.
  destruct (initial_points_ok A B order HA HAB HB Hord)
    as (nA & nB & _ & _ & _ & _ & Hinit).
  assert (Hzero : (iterations <= 0)%Z ->
                  remez_fit A B order iterations
                  = Raise (UnboundLocalError "p"%string) /\
                  remez_fit2 A B Aweight order iterations
                  = Raise (UnboundLocalError "p"%string)).
  { intros Hit. unfold remez_fit, remez_fit2.
    destruct (Z.ltb_spec order 3); [lia|].
    rewrite Hinit. cbn [bind].
    replace (Z.to_nat iterations) with O by lia.
    cbn [loop bind]. split; reflexivity. }
  split; [exact Hzero|].
  intros r Hr.
  destruct (Z.le_gt_cases iterations 0) as [Hit|Hit]; [|lia].
  destruct (Hzero Hit) as [H1 H2]. rewrite H1, H2 in Hr.
  destruct Hr; discriminate.
Qed.

Lemma no_iteration_unbound_witness :
  remez_fit (2#5) (3#5) 3 0 = Raise (UnboundLocalError "p"%string) /\
  remez_fit2 (2#5) (3#5) 10 3 0 = Raise (UnboundLocalError "p"%string).
Proof.
  apply (no_iteration_unbound (2#5) (3#5) 10 3 0).
  - reflexivity.
  - reflexivity.
  - reflexivity.
  - lia.
  - lia.
Defined.

End DriverFacts.

(** ** The error-extrema locator *)

Section ExtremaFacts.

Lemma linspace_length (a b : Q) (n : nat) : length (linspace a b n) = n.
Proof.
  destruct n as [|[|n]]; try reflexivity.
  unfold linspace. rewrite length_app, length_map, length_seq.
  cbn [length]. lia.
Qed.

Lemma linspace_nth (a b : Q) (div k : nat) :
  (k < S div)%nat ->
  nth k (linspace a b (S (S div))) 0
  = inject_Z (Z.of_nat k) * ((b - a) / inject_Z (Z.of_nat (S div))) + a.
Proof.
  intros Hk. unfold linspace.
  rewrite app_nth1 by (now rewrite length_map, length_seq).
  rewrite nth_map_in with (d' := O) by (now rewrite length_seq).
  now rewrite seq_nth.
Qed.

Lemma linspace_last (a b : Q) (div : nat) :
  nth (S div) (linspace a b (S (S div))) 0 = b.
Proof.
  unfold linspace.
  rewrite app_nth2 by (rewrite length_map, length_seq; lia).
  rewrite length_map, length_seq, Nat.sub_diag. reflexivity.
Qed.

Lemma linspace_first (a b : Q) (div : nat) :
  nth 0 (linspace a b (S (S div))) 0 == a.
Proof.
  rewrite linspace_nth by lia. cbn [Z.of_nat]. ring.
Qed.

Lemma linspace_increasing (a b : Q) (n : nat) :
  a < b -> increasing (linspace a b n).
Proof.
  intros Hab i j. rewrite linspace_length. intros [Hij Hj].
  destruct n as [|[|div]]; try lia.
  set (s := (b - a) / inject_Z (Z.of_nat (S div))).
  assert (Hd : 0 < inject_Z (Z.of_nat (S div))).
  { change 0 with (inject_Z 0). rewrite <- Zlt_Qlt. lia. }
  assert (Hs : 0 < s) by (unfold s; apply Qlt_shift_div_l; [assumption|lra]).
  assert (Hsum : inject_Z (Z.of_nat (S div)) * s == b - a)
    by (unfold s; field; lra).
  rewrite (linspace_nth a b div i) by lia. fold s.
  destruct (Nat.eq_dec j (S div)) as [->|Hne].
  - rewrite linspace_last.
    assert (Hi : inject_Z (Z.of_nat i) + 1 <= inject_Z (Z.of_nat (S div))).
    { change 1 with (inject_Z 1). rewrite <- inject_Z_plus, <- Zle_Qle. lia. }
    nra.
  - rewrite (linspace_nth a b div j) by lia. fold s.
    assert (Hk : inject_Z (Z.of_nat i) < inject_Z (Z.of_nat j))
      by (rewrite <- Zlt_Qlt; lia).
    nra.
Qed.

Lemma diff_length (y : list Q) : length (diff y) = (length y - 1)%nat.
Proof.
  induction y as [|a [|b y] IH]; try reflexivity.
  change (diff (a :: b :: y)) with ((b - a) :: diff (b :: y)).
  cbn [length] in *. lia.
Qed.

Lemma diff_nth (y : list Q) :
  forall k, (S k < length y)%nat ->
    nth k (diff y) 0 = nth (S k) y 0 - nth k y 0.
Proof.
  induction y as [|a [|b y] IH]; intros k Hk; cbn [length] in Hk; try lia.
  change (diff (a :: b :: y)) with ((b - a) :: diff (b :: y)).
  destruct k as [|k]; [reflexivity|].
  change (nth (S k) ((b - a) :: diff (b :: y)) 0)
    with (nth k (diff (b :: y)) 0).
  rewrite IH by (cbn [length]; lia). reflexivity.
Qed.

Lemma diffZ_length (y : list Z) : length (diffZ y) = (length y - 1)%nat.
Proof.
  induction y as [|a [|b y] IH]; try reflexivity.
  change (diffZ (a :: b :: y)) with ((b - a)%Z :: diffZ (b :: y)).
  cbn [length] in *. lia.
Qed.

Lemma diffZ_nth (y : list Z) :
  forall k, (S k < length y)%nat ->
    nth k (diffZ y) 0%Z = (nth (S k) y 0 - nth k y 0)%Z.
Proof.
  induction y as [|a [|b y] IH]; intros k Hk; cbn [length] in Hk; try lia.
  change (diffZ (a :: b :: y)) with ((b - a)%Z :: diffZ (b :: y)).
  destruct k as [|k]; [reflexivity|].
  change (nth (S k) ((b - a)%Z :: diffZ (b :: y)) 0%Z)
    with (nth k (diffZ (b :: y)) 0%Z).
  rewrite IH by (cbn [length]; lia). reflexivity.
Qed.

Lemma nonzero_from_spec (l : list Z) :
  forall s i,
    In i (nonzero_from s l) <->
    (s <= i < s + length l)%nat /\ nth (i - s) l 0%Z <> 0%Z.
Proof.
  induction l as [|z l IH]; intros s i; cbn [nonzero_from length].
  - split; [contradiction|lia].
  - destruct (Z.eqb_spec z 0) as [Hz|Hz].
    + rewrite IH. split.
      * intros [Hr Hn]. split; [lia|].
        replace (i - s)%nat with (S (i - S s)) by lia. exact Hn.
      * intros [Hr Hn].
        destruct (Nat.eq_dec i s) as [->|Hne].
        -- rewrite Nat.sub_diag in Hn. cbn [nth] in Hn. contradiction.
        -- split; [lia|].
           replace (i - s)%nat with (S (i - S s)) in Hn by lia. exact Hn.
    + cbn [In]. rewrite IH. split.
      * intros [<-|[Hr Hn]].
        -- split; [lia|]. now rewrite Nat.sub_diag.
        -- split; [lia|].
           replace (i - s)%nat with (S (i - S s)) by lia. exact Hn.
      * intros [Hr Hn].
        destruct (Nat.eq_dec i s) as [->|Hne]; [now left|right].
        split; [lia|].
        replace (i - s)%nat with (S (i - S s)) in Hn by lia. exact Hn.
Qed.

Lemma nonzero_from_sorted (l : list Z) :
  forall s, StronglySorted lt (nonzero_from s l).
Proof.
  induction l as [|z l IH]; intros s; cbn [nonzero_from]; [constructor|].
  destruct (z =? 0)%Z; [apply IH|].
  constructor; [apply IH|].
  apply Forall_forall. intros i Hi. apply nonzero_from_spec in Hi. lia.
Qed.

(** The indices flagged by the locator: interior samples at which the
    sign of the forward difference changes. *)
Lemma turning_points_spec (y : list Q) (i : nat) :
  In i (turning_points y) <->
  (1 <= i)%nat /\ (i + 1 < length y)%nat /\
  np_sign (nth (i + 1) y 0 - nth i y 0)
  <> np_sign (nth i y 0 - nth (i - 1) y 0).
Proof.
  unfold turning_points. rewrite in_map_iff.
  assert (Hlen : length (diffZ (map np_sign (diff y))) = (length y - 2)%nat).
  { rewrite diffZ_length, length_map, diff_length. lia. }
  assert (Hnth : forall k, (k + 2 < length y)%nat ->
            nth k (diffZ (map np_sign (diff y))) 0%Z
            = (np_sign (nth (k + 2) y 0%Q - nth (k + 1) y 0%Q)
               - np_sign (nth (k + 1) y 0%Q - nth k y 0%Q))%Z).
  { intros k Hk.
    rewrite diffZ_nth by (rewrite length_map, diff_length; lia).
    rewrite !nth_map_in with (d' := 0) by (rewrite diff_length; lia).
    rewrite !diff_nth by lia.
    now replace (k + 2)%nat with (S (S k)) by lia;
      replace (k + 1)%nat with (S k) by lia. }
  split.
  - intros (k & <- & Hk). apply nonzero_from_spec in Hk.
    rewrite Hlen, Nat.sub_0_r in Hk. destruct Hk as [Hr Hn].
    rewrite Hnth in Hn by lia.
    split; [lia|]. split; [lia|].
    replace (S k + 1)%nat with (k + 2)%nat by lia.
    replace (S k - 1)%nat with k by lia.
    replace (S k) with (k + 1)%nat by lia. lia.
  - intros (H1 & H2 & Hn).
    exists (i - 1)%nat. split; [lia|].
    apply nonzero_from_spec. rewrite Hlen, Nat.sub_0_r.
    split; [lia|]. rewrite Hnth by lia.
    replace (i - 1 + 2)%nat with (i + 1)%nat by lia.
    replace (i - 1 + 1)%nat with i by lia. lia.
Qed.

Lemma turning_points_sorted (y : list Q) :
  StronglySorted lt (turning_points y).
Proof.
  unfold turning_points.
  generalize (nonzero_from_sorted (diffZ (map np_sign (diff y))) 0).
  generalize (nonzero_from 0 (diffZ (map np_sign (diff y)))).
  induction 1 as [|a l Hs IH Ha]; cbn [map]; constructor; auto.
  rewrite Forall_map. eapply Forall_impl; [|exact Ha].
  intros b Hb. lia.
Qed.

Lemma np_sign_pos (q : Q) : 0 < q -> np_sign q = 1%Z.
Proof.
  destruct q as [n d]. unfold Qlt, np_sign. cbn [Qnum Qden]. intros H.
  apply Z.sgn_pos. lia.
Qed.

Lemma np_sign_neg (q : Q) : q < 0 -> np_sign q = (-1)%Z.
Proof.
  destruct q as [n d]. unfold Qlt, np_sign. cbn [Qnum Qden]. intros H.
  apply Z.sgn_neg. lia.
Qed.

(** Every interior strict local extremum of the samples is flagged. *)
Lemma local_extremum_flagged (y : list Q) (i : nat) :
  (1 <= i)%nat -> (i + 1 < length y)%nat ->
  local_extremum y i -> In i (turning_points y).
Proof.
  intros H1 H2 Hext. apply turning_points_spec.
  split; [assumption|]. split; [assumption|].
  destruct Hext as [[Ha Hb]|[Ha Hb]].
  - rewrite (np_sign_neg (nth (i + 1) y 0 - nth i y 0)) by lra.
    rewrite (np_sign_pos (nth i y 0 - nth (i - 1) y 0)) by lra.
    discriminate.
  - rewrite (np_sign_pos (nth (i + 1) y 0 - nth i y 0)) by lra.
    rewrite (np_sign_neg (nth i y 0 - nth (i - 1) y 0)) by lra.
    discriminate.
Qed.

Lemma take_sorted (t : list Q) (ix : list nat) :
  increasing t ->
  StronglySorted lt ix -> Forall (fun i => (i < length t)%nat) ix ->
  StronglySorted Qlt (take t ix).
Proof.
  intros Ht. unfold take.
  induction 1 as [|i ix Hs IH Hi]; intros Hb; cbn [map]; constructor.
  - apply IH. now inversion Hb.
  - rewrite Forall_map.
    inversion Hb as [|? ? Hil Hb']; subst.
    rewrite Forall_forall in Hi, Hb' |- *.
    intros j Hj. apply Ht. split; [now apply Hi|now apply Hb'].
Qed.


Lemma take_map (f : Q -> Q) (t : list Q) (ix : list nat) :
  Forall (fun i => (i < length t)%nat) ix ->
  take (map f t) ix = map f (take t ix).
Proof.
  unfold take. induction 1 as [|i ix Hi Hix IH]; cbn [map]; [reflexivity|].
  rewrite IH. f_equal. now apply nth_map_in.
Qed.

(** The reported indices increase and stay below the number of
    samples. *)
Lemma reported_sorted (y : list Q) :
  length y = samples ->
  StronglySorted lt (reported y) /\
  Forall (fun i => (i < samples)%nat) (reported y).
Proof.
  intros Hlen. unfold reported.
  assert (Hin : forall i, In i (turning_points y) -> (1 <= i <= 98)%nat).
  { intros i Hi. apply turning_points_spec in Hi.
    rewrite Hlen in Hi. unfold samples in Hi. lia. }
  assert (Hmid : StronglySorted lt (turning_points y ++ [99%nat])).
  { generalize (turning_points_sorted y) Hin.
    generalize (turning_points y).
    induction 1 as [|a l Hs IH Ha]; intros Hb; cbn [app].
    - repeat constructor.
    - constructor; [apply IH; intros i Hi; apply Hb; now right|].
      apply Forall_app. split; [exact Ha|].
      constructor; [|constructor]. specialize (Hb a (or_introl eq_refl)). lia. }
  split.
  - constructor; [exact Hmid|].
    apply Forall_app. split.
    + apply Forall_forall. intros i Hi. apply Hin in Hi. lia.
    + repeat constructor.
  - constructor; [unfold samples; lia|].
    apply Forall_app. split.
    + apply Forall_forall. intros i Hi. apply Hin in Hi. unfold samples. lia.
    + constructor; [unfold samples; lia|constructor].
Qed.

Lemma last_as_nth {A : Type} (l : list A) (d : A) :
  last l d = nth (length l - 1) l d.
Proof.
  induction l as [|a [|b l] IH]; try reflexivity.
  change (last (a :: b :: l) d) with (last (b :: l) d).
  rewrite IH.
  replace (length (a :: b :: l) - 1)%nat with (S (length (b :: l) - 1))
    by (cbn [length]; lia).
  reflexivity.
Qed.

(** The first sample, the flagged samples and the last sample are the
    samples at the reported indices. *)
Lemma ends_as_indices (t : list Q) (ix : list nat) :
  length t = samples ->
  hd 0 t :: take t ix ++ [last t 0] = take t (O :: ix ++ [99%nat]).
Proof.
  intros Hlen. unfold take. cbn [map]. rewrite map_app. cbn [map].
  rewrite last_as_nth, Hlen.
  destruct t; [discriminate|reflexivity].
Qed.

Lemma interval_extrema_eq (p : poly) (a b val : Q) :
  interval_extrema p (a, b) val
  = (take (linspace a b samples)
          (reported (map (fun x => val - peval p x) (linspace a b samples))),
     take (map (fun x => val - peval p x) (linspace a b samples))
          (reported (map (fun x => val - peval p x) (linspace a b samples)))).
Proof.
  unfold interval_extrema, reported. cbn [fst snd].
  rewrite !ends_as_indices;
    [reflexivity|now rewrite length_map, linspace_length|apply linspace_length].
Qed.

(** Facts on the samples [t] of one interval [[a, b]] and the sampled
    values [map f t]. *)
Lemma sampled_interval_facts (f : Q -> Q) (t : list Q) (a b : Q) :
  length t = samples -> increasing t ->
  nth 0 t 0 == a -> nth 99 t 0 = b ->
  take (map f t) (reported (map f t)) = map f (take t (reported (map f t))) /\
  (forall i, (1 <= i <= 98)%nat ->
             local_extremum (map f t) i -> In i (reported (map f t))) /\
  StronglySorted Qlt (take t (reported (map f t))) /\
  Forall (fun v => a <= v /\ v <= b) (take t (reported (map f t))).
Proof.
  intros Hlt Hinc Hfirst Hlast.
  assert (Hly : length (map f t) = samples) by (now rewrite length_map).
  destruct (reported_sorted (map f t) Hly) as [Hsorted Hbound].
  split; [apply take_map; now rewrite Hlt|].
  split.
  { intros i Hi Hext. unfold reported. right. apply in_or_app. left.
    apply local_extremum_flagged; [lia|rewrite Hly; unfold samples; lia|].
    exact Hext. }
  split; [apply take_sorted; [exact Hinc|exact Hsorted|now rewrite Hlt]|].
  unfold take. rewrite Forall_map.
  eapply Forall_impl; [|exact Hbound].
  intros i Hi. cbv beta in *.
  assert (Hi' : (i < 100)%nat) by exact Hi.
  assert (Hl' : length t = 100%nat) by exact Hlt.
  assert (H0 : nth 0 t 0 <= nth i t 0).
  { destruct (Nat.eq_dec i 0) as [->|Hne]; [apply Qle_refl|].
    apply Qlt_le_weak, Hinc. lia. }
  assert (H9 : nth i t 0 <= nth 99 t 0).
  { destruct (Nat.eq_dec i 99) as [->|Hne]; [apply Qle_refl|].
    apply Qlt_le_weak, Hinc. lia. }
  rewrite Hlast in H9. lra.
Qed.

Lemma linspace_facts (a b : Q) :
  a < b ->
  length (linspace a b samples) = samples /\
  increasing (linspace a b samples) /\
  nth 0 (linspace a b samples) 0 == a /\
  nth 99 (linspace a b samples) 0 = b.
Proof.
  intros Hab. split; [apply linspace_length|].
  split; [now apply linspace_increasing|].
  split; [apply (linspace_first a b 98)|apply (linspace_last a b 98)].
Qed.

(** C7.  For region edges [0 < A < B < 1], with [tA], [tB] the samples
    of the two regions, [yA], [yB] the signed errors [D(x) - P(x)] at
    the samples and [ixA], [ixB] the reported indices, the locator
    returns, for [[0, A]] and then for [[B, 1]], the locations and the
    signed errors of the first sample (the left endpoint), of the
    flagged interior samples, which include every strict local maximum
    and minimum of the sampled error, and of the last sample (the right
    endpoint); locations increase strictly within each region, and
    those of [[0, A]] come first and are smaller. *)
Theorem find_error_extrema_spec (p : poly) (A B : Q)
        (tA tB yA yB : list Q) (ixA ixB : list nat) :
  0 < A -> A < B -> B < 1 ->
  tA = linspace 0 A samples -> tB = linspace B 1 samples ->
  yA = map (fun x => 1 - peval p x) tA ->
  yB = map (fun x => 0 - peval p x) tB ->
  ixA = reported yA -> ixB = reported yB ->
  find_error_extrema p A B
  = (take tA ixA ++ take tB ixB, take yA ixA ++ take yB ixB) /\
  take yA ixA = map (fun x => 1 - peval p x) (take tA ixA) /\
  take yB ixB = map (fun x => 0 - peval p x) (take tB ixB) /\
  (In O ixA /\ In 99%nat ixA /\ nth 0 tA 0 == 0 /\ nth 99 tA 0 = A) /\
  (In O ixB /\ In 99%nat ixB /\ nth 0 tB 0 == B /\ nth 99 tB 0 = 1) /\
  (forall i, (1 <= i <= 98)%nat -> local_extremum yA i -> In i ixA) /\
  (forall i, (1 <= i <= 98)%nat -> local_extremum yB i -> In i ixB) /\
  StronglySorted Qlt (take tA ixA) /\
  StronglySorted Qlt (take tB ixB) /\
  (forall u v, In u (take tA ixA) -> In v (take tB ixB) -> u < v).
Proof.
  intros HA HAB HB -> -> -> -> -> ->.
  destruct (linspace_facts 0 A HA) as (HlA & HiA & HfA & HeA).
  destruct (linspace_facts B 1 HB) as (HlB & HiB & HfB & HeB).
  destruct (sampled_interval_facts (fun x => 1 - peval p x) _ 0 A
                                   HlA HiA HfA HeA)
    as (HmA & HxA & HsA & HbA).
  destruct (sampled_interval_facts (fun x => 0 - peval p x) _ B 1
                                   HlB HiB HfB HeB)
    as (HmB & HxB & HsB & HbB).
  assert (Hends : forall y, In O (reported y) /\ In 99%nat (reported y)).
  { intros y. unfold reported. split; [now left|].
    right. apply in_or_app. right. now left. }
  split.
  { unfold find_error_extrema, intervals.
    destruct (Qeq_bool B 0) eqn:E.
    { apply Qeq_bool_iff in E. lra. }
    cbn [andb fold_left fst snd app].
    rewrite !interval_extrema_eq. reflexivity. }
  split; [exact HmA|]. split; [exact HmB|].
  split; [repeat split; try apply Hends; assumption|].
  split; [repeat split; try apply Hends; assumption|].
  split; [exact HxA|]. split; [exact HxB|].
  split; [exact HsA|]. split; [exact HsB|].
  intros u v Hu Hv.
  rewrite Forall_forall in HbA, HbB.
  specialize (HbA _ Hu). specialize (HbB _ Hv). lra.
Qed.

Lemma find_error_extrema_spec_witness :
  find_error_extrema [1; -1] (2#5) (3#5)
  = (take (linspace 0 (2#5) samples)
          (reported (map (fun x => 1 - peval [1; -1] x)
                         (linspace 0 (2#5) samples)))
     ++ take (linspace (3#5) 1 samples)
             (reported (map (fun x => 0 - peval [1; -1] x)
                            (linspace (3#5) 1 samples))),
     take (map (fun x => 1 - peval [1; -1] x) (linspace 0 (2#5) samples))
          (reported (map (fun x => 1 - peval [1; -1] x)
                         (linspace 0 (2#5) samples)))
     ++ take (map (fun x => 0 - peval [1; -1] x) (linspace (3#5) 1 samples))
             (reported (map (fun x => 0 - peval [1; -1] x)
                            (linspace (3#5) 1 samples)))).
Proof.
  apply (find_error_extrema_spec [1; -1] (2#5) (3#5) _ _ _ _ _ _
           eq_refl eq_refl eq_refl eq_refl eq_refl eq_refl
           eq_refl eq_refl eq_refl).
Defined.

End ExtremaFacts.

(** ** Selecting the alternations *)

Section SelectFacts.

Lemma Qlt_bool_iff (a b : Q) : Qlt_bool a b = true <-> a < b.
Proof.
  unfold Qlt_bool. rewrite negb_true_iff.
  destruct (Qle_bool b a) eqn:E.
  - apply Qle_bool_iff in E. split; [discriminate|lra].
  - split; [|reflexivity]. intros _.
    apply Qnot_le_lt. intros H. apply Qle_bool_iff in H. congruence.
Qed.

Lemma last_opt_snoc {A : Type} (l : list A) (a : A) :
  last_opt (l ++ [a]) = Some a.
Proof.
  unfold last_opt. destruct (l ++ [a]) as [|b l'] eqn:E.
  - now destruct l.
  - rewrite <- E. now rewrite last_last.
Qed.

(** A candidate below the threshold changes nothing. *)
Lemma consider_below (e : Q) (alt : list Cand.t) (c : Cand.t) :
  above_threshold e c = false -> consider e alt c = alt.
Proof. unfold consider, above_threshold. now intros ->. Qed.

(** The running alternation for a candidate that passed the filter. *)
Lemma consider_above (e : Q) (alt : list Cand.t) (c : Cand.t) :
  above_threshold e c = true ->
  (alt = [] -> consider e alt c = [c]) /\
  (forall alt' l, alt = alt' ++ [l] ->
     (Cand.sign l <> Cand.sign c -> consider e alt c = alt ++ [c]) /\
     (Cand.sign l = Cand.sign c -> Cand.err_mag l < Cand.err_mag c ->
      consider e alt c = alt' ++ [c]) /\
     (Cand.sign l = Cand.sign c -> Cand.err_mag c <= Cand.err_mag l ->
      consider e alt c = alt)).
Proof.
  unfold consider, above_threshold. intros ->. split.
  - now intros ->.
  - intros alt' l ->. rewrite last_opt_snoc, removelast_last.
    repeat split.
    + intros Hs. destruct (Z.eqb_spec (Cand.sign l) (Cand.sign c));
        [contradiction|reflexivity].
    + intros Hs Hm. rewrite Hs, Z.eqb_refl. cbn [negb].
      apply Qlt_bool_iff in Hm. now rewrite Hm.
    + intros Hs Hm. rewrite Hs, Z.eqb_refl. cbn [negb].
      destruct (Qlt_bool (Cand.err_mag l) (Cand.err_mag c)) eqn:E;
        [|reflexivity].
      apply Qlt_bool_iff in E. lra.
Qed.

(** The loop over the extrema only sees the candidates that pass the
    filter. *)
Lemma walk_filter (e : Q) (cs : list Cand.t) :
  forall acc,
    fold_left (consider e) cs acc
    = fold_left (consider e) (filter (above_threshold e) cs) acc.
Proof.
  induction cs as [|c cs IH]; intros acc; cbn [fold_left filter];
    [reflexivity|].
  destruct (above_threshold e c) eqn:E.
  - cbn [fold_left]. apply IH.
  - rewrite (consider_below _ _ _ E). apply IH.
Qed.

Lemma consider_members (e : Q) (alt : list Cand.t) (c d : Cand.t) :
  In d (consider e alt c) ->
  In d alt \/ (d = c /\ above_threshold e c = true).
Proof.
  unfold consider. fold (above_threshold e c).
  destruct (above_threshold e c); [|now left].
  destruct (last_opt alt) as [l|].
  - destruct (negb (Cand.sign l =? Cand.sign c)%Z).
    + intros H. apply in_app_or in H. destruct H as [H|[<-|[]]]; auto.
    + destruct (Qlt_bool (Cand.err_mag l) (Cand.err_mag c)); [|now left].
      intros H. apply in_app_or in H. destruct H as [H|[<-|[]]]; auto.
      left. revert H. clear. induction alt as [|a [|b alt] IH]; cbn [removelast].
      * contradiction.
      * contradiction.
      * intros [<-|H]; [now left|right; now apply IH].
  - intros H. apply in_app_or in H. destruct H as [H|[<-|[]]]; auto.
Qed.

Lemma walk_members (e : Q) (cs : list Cand.t) :
  forall acc d,
    In d (fold_left (consider e) cs acc) ->
    In d acc \/ (In d cs /\ above_threshold e d = true).
Proof.
  induction cs as [|c cs IH]; intros acc d; cbn [fold_left]; [now left|].
  intros H. apply IH in H. destruct H as [H|[H1 H2]].
  - apply consider_members in H. destruct H as [H|[-> H]]; [now left|].
    right. split; [now left|assumption].
  - right. split; [now right|assumption].
Qed.

(** The unfolding of the trimming loop. *)
Lemma trim_fuel_spec (order : Z) (fuel : nat) :
  forall alt,
    (length alt <= fuel)%nat -> (0 <= order + 2)%Z ->
    exists alt' l r,
      trim_fuel fuel order alt = Ok alt' /\
      alt = l ++ alt' ++ r /\
      Z.of_nat (length alt') = Z.min (Z.of_nat (length alt)) (order + 2).
Proof.
  induction fuel as [|fuel IH]; intros alt Hlen Hord.
  - destruct alt; [|cbn [length] in Hlen; lia].
    exists [], [], []. cbn [trim_fuel length].
    destruct (Z.gtb_spec (Z.of_nat 0) (order + 2)); [lia|].
    repeat split. cbn [length]. lia.
  - cbn [trim_fuel].
    destruct (Z.gtb_spec (Z.of_nat (length alt)) (order + 2)) as [Hgt|Hle].
    + destruct alt as [|a0 rest] eqn:Ealt; [cbn [length] in Hgt; lia|].
      rewrite <- Ealt in *.
      assert (Hne : alt <> []) by (rewrite Ealt; discriminate).
      pose proof (app_removelast_last a0 Hne) as Hsplit.
      assert (Hlr : length alt = S (length (removelast alt))).
      { rewrite Hsplit at 1. rewrite length_app. cbn [length]. lia. }
      destruct (Qlt_bool (Cand.err_mag (last alt a0)) (Cand.err_mag a0)).
      * destruct (IH (removelast alt)) as (alt' & l & r & Ht & Hs & Hl);
          [lia|lia|].
        exists alt', l, (r ++ [last alt a0]).
        split; [exact Ht|]. split; [|lia].
        rewrite Hsplit at 1. rewrite Hs. now rewrite <- !app_assoc.
      * destruct (IH rest) as (alt' & l & r & Ht & Hs & Hl).
        { rewrite Ealt in Hlen. cbn [length] in Hlen. lia. }
        { lia. }
        exists alt', (a0 :: l), r.
        split; [exact Ht|]. split.
        -- rewrite Ealt, Hs. reflexivity.
        -- rewrite Ealt in Hgt, Hlr |- *. cbn [length] in *. lia.
    + exists alt, [], []. split; [reflexivity|].
      split; [now rewrite app_nil_r|lia].
Qed.

Lemma trim_short (order : Z) (alt : list Cand.t) :
  (Z.of_nat (length alt) <= order + 2)%Z -> trim order alt = Ok alt.
Proof.
  intros H. unfold trim.
  generalize (length alt) at 1. intros fuel.
  destruct fuel; cbn [trim_fuel];
    destruct (Z.gtb_spec (Z.of_nat (length alt)) (order + 2));
    try reflexivity; lia.
Qed.

Lemma trim_long (order : Z) (alt : list Cand.t) :
  (0 <= order + 2 < Z.of_nat (length alt))%Z ->
  exists alt' l r,
    trim order alt = Ok alt' /\
    alt = l ++ alt' ++ r /\
    Z.of_nat (length alt') = (order + 2)%Z.
Proof.
  intros H. unfold trim.
  destruct (trim_fuel_spec order (length alt) alt (Nat.le_refl _))
    as (alt' & l & r & Ht & Hs & Hl); [lia|].
  exists alt', l, r. repeat split; auto. lia.
Qed.

(** One round of the trimming loop: the end of smaller magnitude goes,
    the leftmost on a tie. *)
Lemma trim_step (order : Z) (a0 aN : Cand.t) (mid : list Cand.t) :
  (order + 2 < Z.of_nat (length (a0 :: mid ++ [aN])))%Z ->
  (Cand.err_mag aN < Cand.err_mag a0 ->
   trim order (a0 :: mid ++ [aN]) = trim order (a0 :: mid)) /\
  (Cand.err_mag a0 <= Cand.err_mag aN ->
   trim order (a0 :: mid ++ [aN]) = trim order (mid ++ [aN])).
Proof.
  intros Hlen. unfold trim.
  assert (Hfuel : length (a0 :: mid ++ [aN]) = S (length (a0 :: mid))).
  { cbn [length]. rewrite length_app. cbn [length]. lia. }
  assert (Hfuel' : length (a0 :: mid) = length (mid ++ [aN])).
  { cbn [length]. rewrite length_app. cbn [length]. lia. }
  rewrite Hfuel at 1 2.
  cbn [trim_fuel].
  destruct (Z.gtb_spec (Z.of_nat (length (a0 :: mid ++ [aN]))) (order + 2));
    [|lia].
  change (a0 :: mid ++ [aN]) with ((a0 :: mid) ++ [aN]).
  rewrite last_last, removelast_last.
  split; intros Hm.
  - apply Qlt_bool_iff in Hm. now rewrite Hm.
  - destruct (Qlt_bool (Cand.err_mag aN) (Cand.err_mag a0)) eqn:E.
    + apply Qlt_bool_iff in E. lra.
    + now rewrite Hfuel'.
Qed.

Lemma mapM_ok {A B : Type} (f : A -> result B) (g : A -> B) (l : list A) :
  (forall a, f a = Ok (g a)) -> mapM f l = Ok (map g l).
Proof.
  intros Hfg. induction l as [|a l IH]; cbn [mapM map]; [reflexivity|].
  now rewrite Hfg, IH.
Qed.

(** The magnitude of a candidate of the unweighted fit is [|err|]. *)
Lemma candidates_unweighted (loc err : list Q) :
  candidates (fun _ er => Ok (Qabs er)) loc err
  = Ok (map (fun le => Cand.mk (fst le) (np_sign (snd le)) (Qabs (snd le)))
            (combine loc err)).
Proof.
  unfold candidates. apply mapM_ok. intros le. reflexivity.
Qed.

(** The magnitude of a candidate of the weighted fit is [|err| / W]. *)
Lemma candidates_weighted (A Aweight : Q) (loc err : list Q) :
  ~ Aweight == 0 ->
  candidates (weighted_mag A Aweight) loc err
  = Ok (map (fun le => Cand.mk (fst le) (np_sign (snd le))
                               (Qabs (snd le) / weight A Aweight (fst le)))
            (combine loc err)).
Proof.
  intros Hw. unfold candidates, weighted_mag. apply mapM_ok. intros le.
  now rewrite weigh_ok.
Qed.


(** C2.  In the Selecting step, for the candidates [cs] built from the
    located extrema: the loop over the extrema keeps exactly the
    candidates whose magnitude is at least [e - 1e-3] and walks them
    left to right, appending a candidate whose sign differs from the
    last kept one and replacing the last kept one by a same-signed
    candidate of larger magnitude; then, while more than [order + 2]
    remain, the end of smaller magnitude (the leftmost on a tie) is
    dropped, which leaves a contiguous run of exactly [order + 2]. *)
Theorem selecting_step (mag : Q -> Q -> result Q) (e : Q) (order : Z)
        (loc err : list Q) (cs : list Cand.t) :
  candidates mag loc err = Ok cs ->
  let kept := filter (above_threshold e) cs in
  let walk := fold_left (consider e) kept [] in
  select mag e order loc err = trim order walk /\
  (forall c, In c kept <-> In c cs /\ e - tol <= Cand.err_mag c) /\
  (forall c, In c walk -> In c kept) /\
  (forall alt c, In c kept ->
     (alt = [] -> consider e alt c = [c]) /\
     (forall alt' l, alt = alt' ++ [l] ->
        (Cand.sign l <> Cand.sign c -> consider e alt c = alt ++ [c]) /\
        (Cand.sign l = Cand.sign c -> Cand.err_mag l < Cand.err_mag c ->
         consider e alt c = alt' ++ [c]) /\
        (Cand.sign l = Cand.sign c -> Cand.err_mag c <= Cand.err_mag l ->
         consider e alt c = alt))) /\
  (forall alt,
     (Z.of_nat (length alt) <= order + 2)%Z -> trim order alt = Ok alt) /\
  (forall alt,
     (0 <= order + 2 < Z.of_nat (length alt))%Z ->
     exists alt' l r,
       trim order alt = Ok alt' /\ alt = l ++ alt' ++ r /\
       Z.of_nat (length alt') = (order + 2)%Z) /\
  (forall a0 mid aN,
     (order + 2 < Z.of_nat (length (a0 :: mid ++ [aN])))%Z ->
     (Cand.err_mag aN < Cand.err_mag a0 ->
      trim order (a0 :: mid ++ [aN]) = trim order (a0 :: mid)) /\
     (Cand.err_mag a0 <= Cand.err_mag aN ->
      trim order (a0 :: mid ++ [aN]) = trim order (mid ++ [aN]))).
Proof.
  intros Hcs kept walk.
  assert (Hkept : forall c, In c kept <-> In c cs /\ e - tol <= Cand.err_mag c).
  { intros c. unfold kept. rewrite filter_In. unfold above_threshold.
    now rewrite Qle_bool_iff. }
  split.
  { unfold select. rewrite Hcs. cbn [bind]. now rewrite walk_filter. }
  split; [exact Hkept|]. split.
  { intros c Hc. apply walk_members in Hc.
    destruct Hc as [[]|[Hc _]]. exact Hc. }
  split.
  { intros alt c Hc. apply consider_above.
    unfold kept in Hc. apply filter_In in Hc. tauto. }
  split; [apply trim_short|]. split; [apply trim_long|].
  intros a0 mid aN. apply trim_step.
Qed.

Lemma selecting_step_witness :
  let cs := [Cand.mk 0 1 (1#2); Cand.mk (1#2) (-1) (1#4); Cand.mk 1 1 (3#4)] in
  select (fun _ er => Ok (Qabs er)) (1#2) 3 [0; 1#2; 1] [1#2; -1#4; 3#4]
  = trim 3 (fold_left (consider (1#2))
                      (filter (above_threshold (1#2)) cs) []).
Proof.
  intros cs.
  exact (proj1 (selecting_step (fun _ er => Ok (Qabs er)) (1#2) 3
                               [0; 1#2; 1] [1#2; -1#4; 3#4] cs eq_refl)).
Defined.

End SelectFacts.

(** ** Claims on the driver *)

Section DriverClaims.

(** C3: the code at the failing input.  With [A = 0.9], [B = 0.95],
    [Aweight = 100] and [order = 4], only 4 of the 6 candidates the
    next system needs survive the first Selecting step; nothing is
    raised, and the second iteration solves the 4 x 4 system and
    returns a polynomial with 3 coefficients where [order + 1 = 5] are
    expected. *)
Theorem alternation_collapse_unguarded :
  (exists p d nx,
      remez_fit2 (9#10) (19#20) 100 4 1 = Ok (p, d) /\
      new_x d = Some nx /\ length nx = 4%nat /\ length p = 5%nat) /\
  (exists p d px,
      remez_fit2 (9#10) (19#20) 100 4 2 = Ok (p, d) /\
      prev_x d = Some px /\ length px = 4%nat /\ length p = 3%nat).
Proof.
  split.
  - assert (H : match remez_fit2 (9#10) (19#20) 100 4 1 with
                | Ok (p, d) => (option_map (@length Q) (new_x d), length p)
                | Raise _ => (None, O)
                end = (Some 4%nat, 5%nat)) by (vm_compute; reflexivity).
    destruct (remez_fit2 (9#10) (19#20) 100 4 1) as [[p d]|];
      [|discriminate].
    destruct (new_x d) as [nx|] eqn:Hn; [|discriminate].
    cbn [option_map] in H. injection H as H1 H2.
    exists p, d, nx. auto.
  - assert (H : match remez_fit2 (9#10) (19#20) 100 4 2 with
                | Ok (p, d) => (option_map (@length Q) (prev_x d), length p)
                | Raise _ => (None, O)
                end = (Some 4%nat, 3%nat)) by (vm_compute; reflexivity).
    destruct (remez_fit2 (9#10) (19#20) 100 4 2) as [[p d]|];
      [|discriminate].
    destruct (prev_x d) as [px|] eqn:Hn; [|discriminate].
    cbn [option_map] in H. injection H as H1 H2.
    exists p, d, px. auto.
Qed.

(** C4: the code at the failing input.  The weighted variant has no
    check of the order: with [order = 2] it fits and returns. *)
Theorem weighted_fit_accepts_small_order :
  exists p d, remez_fit2 (2#5) (3#5) 1 2 1 = Ok (p, d).
Proof.
  assert (H : match remez_fit2 (2#5) (3#5) 1 2 1 with
              | Ok _ => true
              | Raise _ => false
              end = true) by (vm_compute; reflexivity).
  destruct (remez_fit2 (2#5) (3#5) 1 2 1) as [[p d]|]; [|discriminate].
  now exists p, d.
Qed.


Lemma remez_fit_result (A B : Q) (order iterations : Z) (p : poly) (d : data) :
  remez_fit A B order iterations = Ok (p, d) ->
  exists s s',
    remez_body A B order s = Ok s' /\ st_p s' = Some p /\ st_data s' = d.
Proof.
  unfold remez_fit. intros H.
  destruct (order <? 3)%Z; [discriminate|].
  destruct (initial_points A B order) as [[x y]|]; [|discriminate].
  cbn [bind] in H.
  destruct (loop _ _ _) as [s'|] eqn:Hloop; [|discriminate].
  cbn [bind] in H. unfold finish in H.
  destruct (st_p s') as [q|] eqn:Hp; [|discriminate].
  injection H as -> <-.
  apply loop_result in Hloop.
  destruct Hloop as [[_ ->]|[s Hs]]; [discriminate|].
  exists s, s'. auto.
Qed.

Lemma remez_fit2_result (A B Aweight : Q) (order iterations : Z)
      (p : poly) (d : data) :
  remez_fit2 A B Aweight order iterations = Ok (p, d) ->
  exists s s',
    remez2_body A B Aweight order s = Ok s' /\
    st_p s' = Some p /\ st_data s' = d.
Proof.
  unfold remez_fit2. intros H.
  destruct (initial_points A B order) as [[x y]|]; [|discriminate].
  cbn [bind] in H.
  destruct (loop _ _ _) as [s'|] eqn:Hloop; [|discriminate].
  cbn [bind] in H. unfold finish in H.
  destruct (st_p s') as [q|] eqn:Hp; [|discriminate].
  injection H as -> <-.
  apply loop_result in Hloop.
  destruct Hloop as [[_ ->]|[s Hs]]; [discriminate|].
  exists s, s'. auto.
Qed.

(** What a round computes: the solved system, the selection among the
    extrema of its polynomial, and the state it leaves. *)
Lemma remez_body_selected (A B : Q) (order : Z) (s s' : state) :
  remez_body A B order s = Ok s' ->
  exists p e alt,
    solve (st_x s) (st_y s) = Ok (p, e) /\
    select (fun _ er => Ok (Qabs er)) e order
           (fst (find_error_extrema p A B))
           (snd (find_error_extrema p A B)) = Ok alt /\
    s' = mkstate (map Cand.loc alt) (targets A (map Cand.loc alt)) (Some p)
           (mkdata (Some (st_x s)) (Some (st_y s)) (Some e) None None
                   (Some (map Cand.loc alt))).
Proof.
  unfold remez_body. intros H.
  destruct (solve (st_x s) (st_y s)) as [[p e]|]; [|discriminate].
  cbn [bind] in H.
  destruct (select _ e order _ _) as [alt|] eqn:Hsel; [|discriminate].
  cbn [bind] in H. injection H as <-.
  exists p, e, alt. auto.
Qed.

Lemma remez2_body_selected (A B Aweight : Q) (order : Z) (s s' : state) :
  remez2_body A B Aweight order s = Ok s' ->
  exists p e alt,
    solve2 A Aweight (st_x s) (st_y s) = Ok (p, e) /\
    select (weighted_mag A Aweight) e order
           (fst (find_error_extrema p A B))
           (snd (find_error_extrema p A B)) = Ok alt /\
    s' = mkstate (map Cand.loc alt) (targets A (map Cand.loc alt)) (Some p)
           (mkdata (Some (st_x s)) (Some (st_y s)) None
                   (Some (e / Aweight)) (Some e)
                   (Some (map Cand.loc alt))).
Proof.
  unfold remez2_body. intros H.
  destruct (solve2 A Aweight (st_x s) (st_y s)) as [[p e]|]; [|discriminate].
  cbn [bind] in H.
  destruct (select _ e order _ _) as [alt|] eqn:Hsel; [|discriminate].
  cbn [bind] in H. injection H as <-.
  exists p, e, alt. auto.
Qed.

(** C9 (as amended).  A successful call of [remez_fit] returns the
    pair [(p, data)]: [data] holds the points [prev_x], [prev_y] of the
    last solved system and its error [err], [p] and [err] are what the
    solver returns on them, and [new_x] holds the locations the
    Selecting step keeps among the error extrema of [p].  A successful
    call of [remez_fit2] returns the same with [Berr] the error of the
    last system and [Aerr = Berr / Aweight] in place of [err], the
    selection comparing the weighted magnitudes. *)
Theorem fit_returns_polynomial_and_data
        (A B Aweight : Q) (order iterations : Z) (p : poly) (d : data) :
  (remez_fit A B order iterations = Ok (p, d) ->
   returned_tuple (p, d) = [PyPoly p; PyDict d] /\
   exists px py e alt,
     d = mkdata (Some px) (Some py) (Some e) None None
                (Some (map Cand.loc alt)) /\
     solve px py = Ok (p, e) /\
     select (fun _ er => Ok (Qabs er)) e order
            (fst (find_error_extrema p A B))
            (snd (find_error_extrema p A B)) = Ok alt) /\
  (remez_fit2 A B Aweight order iterations = Ok (p, d) ->
   returned_tuple (p, d) = [PyPoly p; PyDict d] /\
   exists px py e alt,
     d = mkdata (Some px) (Some py) None (Some (e / Aweight)) (Some e)
                (Some (map Cand.loc alt)) /\
     solve2 A Aweight px py = Ok (p, e) /\
     select (weighted_mag A Aweight) e order
            (fst (find_error_extrema p A B))
            (snd (find_error_extrema p A B)) = Ok alt).
Proof.
  split; intros H; (split; [reflexivity|]).
  - apply remez_fit_result in H. destruct H as (s & s' & Hb & Hp & <-).
    apply remez_body_selected in Hb.
    destruct Hb as (q & e & alt & Hs & Hsel & ->).
    cbn [st_p st_data] in *. injection Hp as <-.
    exists (st_x s), (st_y s), e, alt. auto.
  - apply remez_fit2_result in H. destruct H as (s & s' & Hb & Hp & <-).
    apply remez2_body_selected in Hb.
    destruct Hb as (q & e & alt & Hs & Hsel & ->).
    cbn [st_p st_data] in *. injection Hp as <-.
    exists (st_x s), (st_y s), e, alt. auto.
Qed.

Lemma fit_returns_polynomial_and_data_witness :
  exists p d px py e alt,
    remez_fit (2#5) (3#5) 3 1 = Ok (p, d) /\
    d = mkdata (Some px) (Some py) (Some e) None None
               (Some (map Cand.loc alt)) /\
    solve px py = Ok (p, e) /\
    select (fun _ er => Ok (Qabs er)) e 3
           (fst (find_error_extrema p (2#5) (3#5)))
           (snd (find_error_extrema p (2#5) (3#5))) = Ok alt.
Proof.
  assert (H : match remez_fit (2#5) (3#5) 3 1 with
              | Ok _ => true
              | Raise _ => false
              end = true) by (vm_compute; reflexivity).
  destruct (remez_fit (2#5) (3#5) 3 1) as [[p d]|] eqn:Hfit; [|discriminate].
  destruct (proj1 (fit_returns_polynomial_and_data
                     (2#5) (3#5) 1 3 1 p d) Hfit)
    as (_ & px & py & e & alt & Hd & Hs & Hsel).
  exists p, d, px, py, e, alt. auto.
Defined.

(** C9 as stated fails: the value returned is a tuple of two objects,
    the polynomial and the dict, not a triple with the final error as
    its second component. *)
Lemma fit_returns_pair_counterexample :
  exists p d,
    remez_fit (2#5) (3#5) 3 1 = Ok (p, d) /\
    length (returned_tuple (p, d)) = 2%nat /\
    ~ (exists c e g, returned_tuple (p, d) = [PyPoly c; PyFloat e; PyDict g]).
Proof.
  assert (H : match remez_fit (2#5) (3#5) 3 1 with
              | Ok _ => true
              | Raise _ => false
              end = true) by (vm_compute; reflexivity).
  destruct (remez_fit (2#5) (3#5) 3 1) as [[p d]|]; [|discriminate].
  exists p, d. split; [reflexivity|]. split; [reflexivity|].
  intros (c & e & g & Heq). discriminate.
Qed.


Lemma weight_pos (A Aweight x : Q) : 0 < Aweight -> 0 < weight A Aweight x.
Proof.
  intros Hw. unfold weight. destruct (Qle_bool x A); [|reflexivity].
  apply Qlt_shift_div_l; [assumption|lra].
Qed.

Lemma alt_sign_abs (i : nat) : Qabs (alt_sign i) == 1.
Proof. unfold alt_sign. now destruct (Nat.even i). Qed.

(** The residual of the weighted solver at its points: divided by the
    weight it has the magnitude [e]. *)
Lemma solve2_residual (A Aweight : Q) (x y : list Q) (p : poly) (e : Q) :
  0 < Aweight ->
  solve2 A Aweight x y = Ok (p, e) ->
  forall i, (i < length x)%nat ->
    Qabs (nth i y 0 - psum p (nth i x 0)) == e * weight A Aweight (nth i x 0).
Proof.
  intros Hw Hs i Hi.
  assert (Hw0 : ~ Aweight == 0) by lra.
  unfold solve2 in Hs.
  destruct x as [|x0 xs] eqn:Ex; [discriminate|]. rewrite <- Ex in *.
  destruct (error_column_ok A Aweight x Hw0) as (col & Hcol & Hlc & Hnth).
  rewrite Hcol in Hs. cbn [bind] in Hs.
  destruct (solve_with_identity _ _ _ _ _ Hlc Hs)
    as (eps & -> & _ & _ & Hid).
  specialize (Hid i Hi). rewrite Hnth in Hid by assumption.
  assert (Heq : nth i y 0 - psum p (nth i x 0)
                == alt_sign i * weight A Aweight (nth i x 0) * eps) by lra.
  rewrite Heq, !Qabs_Qmult, alt_sign_abs.
  rewrite (Qabs_pos (weight A Aweight (nth i x 0)))
    by (apply Qlt_le_weak, weight_pos; assumption).
  ring.
Qed.


End DriverClaims.

(** * Further properties of the code *)

(** ** What the Selecting step keeps *)

Section WalkFacts.

Lemma subseq_refl {A : Type} (l : list A) : subseq l l.
Proof. induction l; [apply subseq_nil|now apply subseq_keep]. Qed.

Lemma subseq_nil_l {A : Type} (l : list A) : subseq [] l.
Proof. induction l; [apply subseq_nil|now apply subseq_skip]. Qed.

Lemma subseq_trans {A : Type} (l1 l2 l3 : list A) :
  subseq l1 l2 -> subseq l2 l3 -> subseq l1 l3.
Proof.
  intros H12 H23. revert l1 H12.
  induction H23 as [|a l2 l3 H IH|a l2 l3 H IH]; intros l1 H12.
  - exact H12.
  - apply subseq_skip. now apply IH.
  - inversion H12; subst.
    + apply subseq_skip. now apply IH.
    + apply subseq_keep. now apply IH.
Qed.

Lemma subseq_app {A : Type} (l1 l2 m1 m2 : list A) :
  subseq l1 l2 -> subseq m1 m2 -> subseq (l1 ++ m1) (l2 ++ m2).
Proof.
  induction 1; intros Hm; cbn [app];
    [exact Hm|apply subseq_skip; auto|apply subseq_keep; auto].
Qed.

Lemma subseq_part {A : Type} (l m r : list A) : subseq m (l ++ m ++ r).
Proof.
  change m with ([] ++ m) at 1.
  apply subseq_app; [apply subseq_nil_l|].
  rewrite <- (app_nil_r m) at 1.
  apply subseq_app; [apply subseq_refl|apply subseq_nil_l].
Qed.

Lemma subseq_removelast {A : Type} (l : list A) : subseq (removelast l) l.
Proof.
  induction l as [|a [|b l] IH]; cbn [removelast].
  - apply subseq_nil.
  - apply subseq_skip, subseq_nil.
  - apply subseq_keep. exact IH.
Qed.

Lemma subseq_map {A B : Type} (f : A -> B) (l1 l2 : list A) :
  subseq l1 l2 -> subseq (map f l1) (map f l2).
Proof.
  induction 1; cbn [map];
    [apply subseq_nil|now apply subseq_skip|now apply subseq_keep].
Qed.

Lemma subseq_Forall {A : Type} (P : A -> Prop) (l1 l2 : list A) :
  subseq l1 l2 -> Forall P l2 -> Forall P l1.
Proof.
  induction 1; intros HF; auto; inversion HF; subst; auto.
Qed.

Lemma subseq_sorted {A : Type} (R : A -> A -> Prop) (l1 l2 : list A) :
  subseq l1 l2 -> StronglySorted R l2 -> StronglySorted R l1.
Proof.
  induction 1 as [|a l1 l2 H IH|a l1 l2 H IH]; intros HS; auto.
  - inversion HS; subst. auto.
  - inversion HS as [|? ? HS' Ha]; subst. constructor; auto.
    eapply subseq_Forall; eauto.
Qed.

Lemma subseq_length {A : Type} (l1 l2 : list A) :
  subseq l1 l2 -> (length l1 <= length l2)%nat.
Proof. induction 1; cbn [length]; lia. Qed.

Lemma alternating_cons (a : Cand.t) (l : list Cand.t) :
  alternating (a :: l) <->
  match l with
  | [] => True
  | b :: _ => Cand.sign a <> Cand.sign b
  end /\ alternating l.
Proof. destruct l; cbn [alternating]; tauto. Qed.

Lemma alternating_snoc (l : list Cand.t) (x c : Cand.t) :
  alternating (l ++ [x] ++ [c]) <->
  alternating (l ++ [x]) /\ Cand.sign x <> Cand.sign c.
Proof.
  induction l as [|a l IH].
  - cbn [app alternating]. tauto.
  - cbn [app]. rewrite !alternating_cons.
    cbn [app] in IH. rewrite IH.
    destruct l; cbn [app]; tauto.
Qed.

Lemma alternating_init (l : list Cand.t) (x : Cand.t) :
  alternating (l ++ [x]) -> alternating l.
Proof.
  destruct l as [|b l] using rev_ind; [constructor|].
  rewrite <- app_assoc. intros H. now apply alternating_snoc in H.
Qed.

Lemma alternating_app (l m : list Cand.t) :
  alternating (l ++ m) -> alternating l /\ alternating m.
Proof.
  induction l as [|a l IH]; cbn [app]; intros H.
  - split; [constructor|exact H].
  - apply alternating_cons in H. destruct H as [Hh Ht].
    destruct (IH Ht) as [Hl Hm]. split; [|exact Hm].
    apply alternating_cons. split; [|exact Hl].
    destruct l; [exact I|exact Hh].
Qed.

Lemma consider_alternating (e : Q) (alt : list Cand.t) (c : Cand.t) :
  alternating alt -> alternating (consider e alt c).
Proof.
  intros Halt. unfold consider.
  destruct (Qle_bool (e - tol) (Cand.err_mag c)); [|exact Halt].
  destruct alt as [|l alt'] using rev_ind; [exact I|]. clear IHalt'.
  rewrite last_opt_snoc, removelast_last.
  destruct (Z.eqb_spec (Cand.sign l) (Cand.sign c)) as [Heq|Hne];
    cbn [negb].
  - destruct (Qlt_bool (Cand.err_mag l) (Cand.err_mag c)); [|exact Halt].
    destruct alt' as [|m alt''] using rev_ind; [exact I|]. clear IHalt''.
    rewrite <- app_assoc in Halt |- *.
    apply alternating_snoc in Halt. apply alternating_snoc.
    split; [tauto|]. rewrite <- Heq. tauto.
  - rewrite <- app_assoc. apply alternating_snoc. now split.
Qed.

Lemma walk_alternating (e : Q) (cs : list Cand.t) :
  forall acc,
    alternating acc -> alternating (fold_left (consider e) cs acc).
Proof.
  induction cs as [|c cs IH]; intros acc Hacc; cbn [fold_left]; auto.
  apply IH. now apply consider_alternating.
Qed.

Lemma consider_subseq (e : Q) (alt seen : list Cand.t) (c : Cand.t) :
  subseq alt seen -> subseq (consider e alt c) (seen ++ [c]).
Proof.
  intros Hs.
  assert (Hskip : subseq alt (seen ++ [c])).
  { rewrite <- (app_nil_r alt).
    apply subseq_app; [exact Hs|apply subseq_nil_l]. }
  assert (Hkeep : forall l, subseq l seen -> subseq (l ++ [c]) (seen ++ [c])).
  { intros l Hl. apply subseq_app; [exact Hl|apply subseq_refl]. }
  unfold consider.
  destruct (Qle_bool (e - tol) (Cand.err_mag c)); [|exact Hskip].
  destruct (last_opt alt) as [l|]; [|now apply Hkeep].
  destruct (negb (Cand.sign l =? Cand.sign c)%Z); [now apply Hkeep|].
  destruct (Qlt_bool (Cand.err_mag l) (Cand.err_mag c)); [|exact Hskip].
  apply Hkeep. eapply subseq_trans; [apply subseq_removelast|exact Hs].
Qed.

Lemma walk_subseq (e : Q) (cs : list Cand.t) :
  forall acc seen,
    subseq acc seen ->
    subseq (fold_left (consider e) cs acc) (seen ++ cs).
Proof.
  induction cs as [|c cs IH]; intros acc seen Hs; cbn [fold_left].
  - now rewrite app_nil_r.
  - replace (seen ++ c :: cs) with ((seen ++ [c]) ++ cs)
      by (now rewrite <- app_assoc).
    apply IH. now apply consider_subseq.
Qed.

(** What the trimming loop returns is a contiguous part of what it was
    given, of at most [order + 2] entries. *)
Lemma trim_fuel_part (order : Z) (fuel : nat) :
  forall alt alt',
    trim_fuel fuel order alt = Ok alt' ->
    (exists l r, alt = l ++ alt' ++ r) /\
    (Z.of_nat (length alt') <= order + 2)%Z.
Proof.
  induction fuel as [|fuel IH]; intros alt alt'; cbn [trim_fuel];
    destruct (Z.gtb_spec (Z.of_nat (length alt)) (order + 2)) as [Hgt|Hle].
  - destruct alt; discriminate.
  - intros H. injection H as <-. split; [|exact Hle].
    exists [], []. now rewrite app_nil_r.
  - destruct alt as [|a0 rest] eqn:Ealt; [discriminate|].
    rewrite <- Ealt.
    assert (Hne : alt <> []) by (rewrite Ealt; discriminate).
    destruct (Qlt_bool (Cand.err_mag (last alt a0)) (Cand.err_mag a0));
      intros H; apply IH in H; destruct H as [(l & r & Hs) Hl];
      (split; [|exact Hl]).
    + exists l, (r ++ [last alt a0]).
      rewrite (app_removelast_last a0 Hne) at 1.
      rewrite Hs. now rewrite <- !app_assoc.
    + exists (a0 :: l), r. rewrite Ealt, Hs. reflexivity.
  - intros H. injection H as <-. split; [|exact Hle].
    exists [], []. now rewrite app_nil_r.
Qed.

Lemma mapM_Forall2 {A B : Type} (f : A -> result B) (l : list A) :
  forall bs, mapM f l = Ok bs -> Forall2 (fun a b => f a = Ok b) l bs.
Proof.
  induction l as [|a l IH]; intros bs; cbn [mapM].
  - intros H. injection H as <-. constructor.
  - destruct (f a) as [b|] eqn:Hfa; [|discriminate]. cbn [bind].
    destruct (mapM f l) as [bs'|]; [|discriminate]. cbn [bind].
    intros H. injection H as <-. constructor; auto.
Qed.

Lemma combine_fst_subseq {A B : Type} (l : list A) (l' : list B) :
  subseq (map fst (combine l l')) l.
Proof.
  revert l'. induction l as [|a l IH]; intros [|b l']; cbn [combine map].
  - apply subseq_nil.
  - apply subseq_nil.
  - apply subseq_nil_l.
  - apply subseq_keep. apply IH.
Qed.

(** The candidates carry the locations and the signs of the extrema. *)
Lemma candidates_locations (mag : Q -> Q -> result Q) (loc err : list Q)
      (cs : list Cand.t) :
  candidates mag loc err = Ok cs ->
  map Cand.loc cs = map fst (combine loc err).
Proof.
  unfold candidates. intros H. apply mapM_Forall2 in H.
  induction H as [|le c l cs Hc Hl IH]; cbn [map]; [reflexivity|].
  rewrite IH. f_equal.
  destruct (mag (fst le) (snd le)); [|discriminate].
  cbn [bind] in Hc. now injection Hc as <-.
Qed.

(** The part of the outcome of the Selecting step the driver relies on. *)
Lemma select_invariants_aux (mag : Q -> Q -> result Q) (e : Q) (order : Z)
      (loc err : list Q) (alt : list Cand.t) :
  select mag e order loc err = Ok alt ->
  subseq (map Cand.loc alt) loc /\
  (Z.of_nat (length alt) <= order + 2)%Z.
Proof.
  unfold select. intros H.
  destruct (candidates mag loc err) as [cs|] eqn:Hcs; [|discriminate].
  cbn [bind] in H. unfold trim in H.
  apply trim_fuel_part in H. destruct H as [(l & r & Hpart) Hlen].
  pose proof (walk_subseq e cs [] [] subseq_nil) as Hsub.
  cbn [app] in Hsub. rewrite Hpart in Hsub.
  split; [|exact Hlen].
  eapply subseq_trans;
    [apply subseq_map; eapply subseq_trans; [apply subseq_part|exact Hsub]|].
  rewrite (candidates_locations _ _ _ _ Hcs). apply combine_fst_subseq.
Qed.

(** The outcome of the Selecting step, whatever the extrema were: the
    kept candidates alternate in sign, their locations are a
    subsequence of the located extrema, every one of them has a
    magnitude of at least [e - 1e-3], and there are at most
    [order + 2] of them. *)
Theorem select_invariants (mag : Q -> Q -> result Q) (e : Q) (order : Z)
        (loc err : list Q) (alt : list Cand.t) :
  select mag e order loc err = Ok alt ->
  alternating alt /\
  subseq (map Cand.loc alt) loc /\
  Forall (fun c => e - tol <= Cand.err_mag c) alt /\
  (Z.of_nat (length alt) <= order + 2)%Z.
Proof.
  unfold select. intros H.
  destruct (candidates mag loc err) as [cs|] eqn:Hcs; [|discriminate].
  cbn [bind] in H. unfold trim in H.
  apply trim_fuel_part in H. destruct H as [(l & r & Hpart) Hlen].
  pose proof (walk_alternating e cs [] I) as Halt.
  pose proof (walk_subseq e cs [] [] subseq_nil) as Hsub.
  cbn [app] in Hsub. rewrite Hpart in Halt, Hsub.
  assert (Hin : subseq alt cs)
    by (eapply subseq_trans; [apply subseq_part|exact Hsub]).
  split.
  { apply alternating_app in Halt. destruct Halt as [_ Halt].
    apply alternating_app in Halt. tauto. }
  split.
  { eapply subseq_trans; [apply subseq_map; exact Hin|].
    rewrite (candidates_locations _ _ _ _ Hcs). apply combine_fst_subseq. }
  split; [|exact Hlen].
  apply Forall_forall. intros c Hc.
  assert (Hw : In c (fold_left (consider e) cs [])).
  { rewrite Hpart. apply in_or_app. right. apply in_or_app. now left. }
  apply walk_members in Hw. destruct Hw as [[]|[_ Hab]].
  unfold above_threshold in Hab. now apply Qle_bool_iff in Hab.
Qed.

Lemma select_invariants_witness :
  exists alt,
    select (fun _ er => Ok (Qabs er)) (1#2) 0 [0; 1#2; 1] [1#2; 3#4; -1]
    = Ok alt /\
    alternating alt /\
    subseq (map Cand.loc alt) [0; 1#2; 1] /\
    Forall (fun c => (1#2) - tol <= Cand.err_mag c) alt /\
    (Z.of_nat (length alt) <= 0 + 2)%Z.
Proof.
  eexists. split; [vm_compute; reflexivity|].
  apply (select_invariants (fun _ er => Ok (Qabs er)) (1#2) 0
                           [0; 1#2; 1] [1#2; 3#4; -1]).
  vm_compute. reflexivity.
Defined.

End WalkFacts.

(** ** What the driver keeps from one iteration to the next *)

Section DriverInvariants.

Lemma targets_below (A : Q) (x : list Q) :
  Forall (fun v => v <= A) x -> targets A x = repeat 1 (length x).
Proof.
  induction 1 as [|v x Hv Hx IH]; cbn [targets map length repeat];
    [reflexivity|].
  apply Qle_bool_iff in Hv. rewrite Hv. f_equal. exact IH.
Qed.

Lemma targets_above (A : Q) (x : list Q) :
  Forall (fun v => A < v) x -> targets A x = repeat 0 (length x).
Proof.
  induction 1 as [|v x Hv Hx IH]; cbn [targets map length repeat];
    [reflexivity|].
  destruct (Qle_bool v A) eqn:E.
  - apply Qle_bool_iff in E. lra.
  - f_equal. exact IH.
Qed.

Lemma targets_app (A : Q) (x x' : list Q) :
  targets A (x ++ x') = targets A x ++ targets A x'.
Proof. unfold targets. apply map_app. Qed.

(** The initial points of a valid specification. *)
Lemma initial_points_facts (A B : Q) (order : Z) :
  0 < A -> A < B -> B < 1 -> (3 <= order)%Z ->
  exists x y,
    initial_points A B order = Ok (x, y) /\
    StronglySorted Qlt x /\
    y = targets A x /\
    Forall (in_regions A B) x /\
    Z.of_nat (length x) = (order + 2)%Z.
Proof.
  intros HA HAB HB Hord.
  destruct (initial_points_ok A B order HA HAB HB Hord)
    as (nA & nB & HnA & HnB & Hsum & _ & Hinit).
  eexists _, _. split; [exact Hinit|].
  set (xa := map (fun k => k * (A / inject_Z (Z.of_nat nA + 1)))
                 (arange 1 (Z.of_nat nA + 1))).
  set (xb := map (fun k => B + k * ((1 - B) / inject_Z (Z.of_nat nB + 1)))
                 (arange 1 (Z.of_nat nB + 1))).
  assert (Ha : Forall2 Qeq xa (even_interior 0 A nA)).
  { unfold xa. rewrite arange_from_1, map_map, Nat2Z.id.
    unfold even_interior. apply Forall2_map_pointwise. intros k.
    unfold Qdiv. ring. }
  assert (Hb : Forall2 Qeq xb (even_interior B 1 nB)).
  { unfold xb. rewrite arange_from_1, map_map, Nat2Z.id.
    unfold even_interior. apply Forall2_map_pointwise. intros k.
    reflexivity. }
  assert (Hla : length xa = nA).
  { rewrite (Forall2_length Ha). unfold even_interior.
    now rewrite length_map, length_seq. }
  assert (Hlb : length xb = nB).
  { rewrite (Forall2_length Hb). unfold even_interior.
    now rewrite length_map, length_seq. }
  assert (Hina : Forall (fun v => 0 < v /\ v < A) xa).
  { eapply Forall2_Qeq_Forall; [|exact Ha|apply even_interior_inside; lra].
    intros u v Huv Hv. cbv beta in *. now rewrite Huv. }
  assert (Hinb : Forall (fun v => B < v /\ v < 1) xb).
  { eapply Forall2_Qeq_Forall; [|exact Hb|apply even_interior_inside; lra].
    intros u v Huv Hv. cbv beta in *. now rewrite Huv. }
  split.
  { apply StronglySorted_app.
    - eapply Forall2_Qeq_sorted; [exact Ha|apply even_interior_sorted; lra].
    - eapply Forall2_Qeq_sorted; [exact Hb|apply even_interior_sorted; lra].
    - intros a b Hia Hib. rewrite Forall_forall in Hina, Hinb.
      specialize (Hina _ Hia). specialize (Hinb _ Hib). lra. }
  split.
  { rewrite targets_app, targets_below, targets_above.
    - now rewrite Hla, Hlb.
    - eapply Forall_impl; [|exact Hinb]. intros v Hv. cbv beta in *. lra.
    - eapply Forall_impl; [|exact Hina]. intros v Hv. cbv beta in *. lra. }
  split.
  { apply Forall_app. split.
    - eapply Forall_impl; [|exact Hina]. intros v Hv. cbv beta in Hv.
      left. lra.
    - eapply Forall_impl; [|exact Hinb]. intros v Hv. cbv beta in Hv.
      right. lra. }
  rewrite length_app, Hla, Hlb. exact Hsum.
Qed.

(** The locations the locator reports increase strictly over both
    regions and lie in the regions. *)
Lemma find_error_extrema_sorted (p : poly) (A B : Q) :
  0 < A -> A < B -> B < 1 ->
  StronglySorted Qlt (fst (find_error_extrema p A B)) /\
  Forall (in_regions A B) (fst (find_error_extrema p A B)).
Proof.
  intros HA HAB HB.
  destruct (linspace_facts 0 A HA) as (HlA & HiA & HfA & HeA).
  destruct (linspace_facts B 1 HB) as (HlB & HiB & HfB & HeB).
  destruct (sampled_interval_facts (fun x => 1 - peval p x) _ 0 A
                                   HlA HiA HfA HeA)
    as (_ & _ & HsA & HbA).
  destruct (sampled_interval_facts (fun x => 0 - peval p x) _ B 1
                                   HlB HiB HfB HeB)
    as (_ & _ & HsB & HbB).
  unfold find_error_extrema, intervals.
  destruct (Qeq_bool B 0) eqn:E.
  { apply Qeq_bool_iff in E. lra. }
  cbn [andb fold_left fst snd app].
  rewrite !interval_extrema_eq. cbn [fst].
  split.
  - apply StronglySorted_app; [exact HsA|exact HsB|].
    intros u v Hu Hv. rewrite Forall_forall in HbA, HbB.
    specialize (HbA _ Hu). specialize (HbB _ Hv). lra.
  - apply Forall_app. split.
    + eapply Forall_impl; [|exact HbA]. intros v Hv. now left.
    + eapply Forall_impl; [|exact HbB]. intros v Hv. now right.
Qed.

Lemma targets_length (A : Q) (x : list Q) : length (targets A x) = length x.
Proof. unfold targets. apply length_map. Qed.

(** A round of either driver leaves well-formed points. *)
Lemma round_points (mag : Q -> Q -> result Q) (A B e : Q) (order : Z)
      (p : poly) (alt : list Cand.t) :
  0 < A -> A < B -> B < 1 ->
  select mag e order (fst (find_error_extrema p A B))
         (snd (find_error_extrema p A B)) = Ok alt ->
  StronglySorted Qlt (map Cand.loc alt) /\
  Forall (in_regions A B) (map Cand.loc alt) /\
  (Z.of_nat (length (map Cand.loc alt)) <= order + 2)%Z.
Proof.
  intros HA HAB HB Hsel.
  destruct (find_error_extrema_sorted p A B HA HAB HB) as [Hs Hr].
  destruct (select_invariants_aux _ _ _ _ _ _ Hsel) as (Hsub & Hlen).
  split; [eapply subseq_sorted; eassumption|].
  split; [eapply subseq_Forall; eassumption|].
  now rewrite length_map.
Qed.

Lemma remez_body_ok (A B : Q) (order : Z) (s s' : state) :
  0 < A -> A < B -> B < 1 ->
  remez_body A B order s = Ok s' ->
  state_ok A s' /\ Forall (in_regions A B) (st_x s') /\
  (Z.of_nat (length (st_x s')) <= order + 2)%Z.
Proof.
  intros HA HAB HB. unfold remez_body. intros H.
  destruct (solve (st_x s) (st_y s)) as [[p e]|]; [|discriminate].
  cbn [bind] in H.
  destruct (select _ e order _ _) as [alt|] eqn:Hsel; [|discriminate].
  cbn [bind] in H. injection H as <-.
  destruct (round_points _ A B e order p alt HA HAB HB Hsel)
    as (H1 & H2 & H3).
  unfold state_ok. cbn [st_x st_y]. auto.
Qed.

Lemma remez2_body_ok (A B Aweight : Q) (order : Z) (s s' : state) :
  0 < A -> A < B -> B < 1 ->
  remez2_body A B Aweight order s = Ok s' ->
  state_ok A s' /\ Forall (in_regions A B) (st_x s') /\
  (Z.of_nat (length (st_x s')) <= order + 2)%Z.
Proof.
  intros HA HAB HB. unfold remez2_body. intros H.
  destruct (solve2 A Aweight (st_x s) (st_y s)) as [[p e]|]; [|discriminate].
  cbn [bind] in H.
  destruct (select _ e order _ _) as [alt|] eqn:Hsel; [|discriminate].
  cbn [bind] in H. injection H as <-.
  destruct (round_points _ A B e order p alt HA HAB HB Hsel)
    as (H1 & H2 & H3).
  unfold state_ok. cbn [st_x st_y]. auto.
Qed.

(** An invariant of the rounds holds after the loop. *)
Lemma loop_invariant (Inv : state -> Prop) (body : state -> result state) :
  (forall s s', Inv s -> body s = Ok s' -> Inv s') ->
  forall n s s', Inv s -> loop n body s = Ok s' -> Inv s'.
Proof.
  intros Hbody. induction n as [|n IH]; intros s s' Hs H; cbn [loop] in H.
  - now injection H as <-.
  - destruct (body s) as [s1|] eqn:Hb; [|discriminate]. cbn [bind] in H.
    eapply IH; [|exact H]. eapply Hbody; eassumption.
Qed.

(** The state the last round started from. *)
Lemma loop_before_last (Inv : state -> Prop) (body : state -> result state) :
  (forall s s', Inv s -> body s = Ok s' -> Inv s') ->
  forall n s s',
    Inv s -> loop n body s = Ok s' ->
    (n = O /\ s' = s) \/ (exists s1, Inv s1 /\ body s1 = Ok s').
Proof.
  intros Hbody [|n] s s' Hs H.
  - left. cbn [loop] in H. now injection H as <-.
  - right. rewrite loop_last in H.
    destruct (loop n body s) as [s1|] eqn:Hl; [|discriminate].
    cbn [bind] in H. exists s1. split; [|exact H].
    eapply loop_invariant; eassumption.
Qed.

End DriverInvariants.

(** ** Properties of the whole fit *)

Section FitProperties.

(** C4's other half, shared by the properties below: for a valid
    specification both fits start from the same well-formed points. *)
Lemma fit_start (A B : Q) (order : Z) :
  0 < A -> A < B -> B < 1 -> (3 <= order)%Z ->
  exists x y,
    initial_points A B order = Ok (x, y) /\
    (order <? 3)%Z = false /\
    state_ok A (mkstate x y None no_data) /\
    Forall (in_regions A B) x /\
    (Z.of_nat (length x) <= order + 2)%Z.
Proof.
  intros HA HAB HB Hord.
  destruct (initial_points_facts A B order HA HAB HB Hord)
    as (x & y & Hinit & Hs & Hy & Hr & Hl).
  exists x, y. split; [exact Hinit|].
  split; [apply Z.ltb_ge; lia|].
  split; [split; assumption|]. split; [assumption|lia].
Qed.

(** The points given to the solver and the points selected for the next
    round are well formed in every successful fit on a valid
    specification: they increase strictly (so they are distinct), lie
    in [[0, A]] or [[B, 1]], are at most [order + 2], and the ordinates
    given to the solver are 1 on [x <= A] and 0 elsewhere. *)
Theorem fit_points_well_formed
        (A B Aweight : Q) (order iterations : Z) (p : poly) (d : data) :
  0 < A -> A < B -> B < 1 -> (3 <= order)%Z ->
  remez_fit A B order iterations = Ok (p, d) \/
  remez_fit2 A B Aweight order iterations = Ok (p, d) ->
  exists px nx,
    prev_x d = Some px /\ prev_y d = Some (targets A px) /\
    new_x d = Some nx /\
    StronglySorted Qlt px /\ StronglySorted Qlt nx /\
    Forall (in_regions A B) px /\ Forall (in_regions A B) nx /\
    (Z.of_nat (length px) <= order + 2)%Z /\
    (Z.of_nat (length nx) <= order + 2)%Z.
Proof.
  intros HA HAB HB Hord Hfit.
  destruct (fit_start A B order HA HAB HB Hord)
    as (x & y & Hinit & Hchk & Hok & Hreg & Hlen).
  set (Inv := fun s => state_ok A s /\ Forall (in_regions A B) (st_x s) /\
                       (Z.of_nat (length (st_x s)) <= order + 2)%Z).
  assert (Hinv0 : Inv (mkstate x y None no_data)) by (split; auto).
  destruct Hfit as [H|H].
  - unfold remez_fit in H. rewrite Hchk, Hinit in H. cbn [bind] in H.
    destruct (loop _ _ _) as [s'|] eqn:Hloop; [|discriminate].
    cbn [bind] in H. unfold finish in H.
    destruct (st_p s') as [q|] eqn:Hp; [|discriminate].
    injection H as -> <-.
    apply (loop_before_last Inv) in Hloop; [| |exact Hinv0].
    + destruct Hloop as [[_ ->]|(s1 & Hs1 & Hb)]; [discriminate|].
      destruct (remez_body_ok A B order s1 s' HA HAB HB Hb)
        as ((Hsx & _) & Hrx & Hlx).
      apply remez_body_result in Hb. destruct Hb as (q & e & _ & _ & Hd).
      destruct Hs1 as ((Hs1x & Hs1y) & Hs1r & Hs1l).
      exists (st_x s1), (st_x s'). rewrite Hd.
      cbn [prev_x prev_y new_x]. rewrite Hs1y. repeat split; auto.
    + intros t t' _ Hb. now apply (remez_body_ok A B order t t').
  - unfold remez_fit2 in H. rewrite Hinit in H. cbn [bind] in H.
    destruct (loop _ _ _) as [s'|] eqn:Hloop; [|discriminate].
    cbn [bind] in H. unfold finish in H.
    destruct (st_p s') as [q|] eqn:Hp; [|discriminate].
    injection H as -> <-.
    apply (loop_before_last Inv) in Hloop; [| |exact Hinv0].
    + destruct Hloop as [[_ ->]|(s1 & Hs1 & Hb)]; [discriminate|].
      destruct (remez2_body_ok A B Aweight order s1 s' HA HAB HB Hb)
        as ((Hsx & _) & Hrx & Hlx).
      apply remez2_body_result in Hb. destruct Hb as (q & e & _ & _ & Hd).
      destruct Hs1 as ((Hs1x & Hs1y) & Hs1r & Hs1l).
      exists (st_x s1), (st_x s'). rewrite Hd.
      cbn [prev_x prev_y new_x]. rewrite Hs1y. repeat split; auto.
    + intros t t' _ Hb. now apply (remez2_body_ok A B Aweight order t t').
Qed.

Lemma fit_points_well_formed_witness :
  exists p d px nx,
    remez_fit (2#5) (3#5) 3 2 = Ok (p, d) /\
    prev_x d = Some px /\ new_x d = Some nx /\
    StronglySorted Qlt px /\ StronglySorted Qlt nx.
Proof.
  assert (H : match remez_fit (2#5) (3#5) 3 2 with
              | Ok _ => true
              | Raise _ => false
              end = true) by (vm_compute; reflexivity).
  destruct (remez_fit (2#5) (3#5) 3 2) as [[p d]|] eqn:Hfit; [|discriminate].
  destruct (fit_points_well_formed (2#5) (3#5) 1 3 2 p d
              eq_refl eq_refl eq_refl (Z.le_refl 3) (or_introl Hfit))
    as (px & nx & H1 & _ & H3 & H4 & H5 & _).
  exists p, d, px, nx. auto.
Defined.

Lemma loop_raise (Inv : state -> Prop) (P : exn -> Prop)
      (body : state -> result state) :
  (forall s s', Inv s -> body s = Ok s' -> Inv s') ->
  (forall s ex, Inv s -> body s = Raise ex -> P ex) ->
  forall n s ex, Inv s -> loop n body s = Raise ex -> P ex.
Proof.
  intros Hok Hraise. induction n as [|n IH]; intros s ex Hs H;
    cbn [loop] in H; [discriminate|].
  destruct (body s) as [s1|ex1] eqn:Hb; cbn [bind] in H.
  - eapply IH; [|exact H]. eapply Hok; eassumption.
  - injection H as <-. eapply Hraise; eassumption.
Qed.

Lemma trim_returns (order : Z) (alt : list Cand.t) :
  (0 <= order + 2)%Z -> exists alt', trim order alt = Ok alt'.
Proof.
  intros Hord. unfold trim.
  destruct (trim_fuel_spec order (length alt) alt (Nat.le_refl _) Hord)
    as (alt' & _ & _ & H & _).
  now exists alt'.
Qed.

Lemma solve_with_raises (col x y : list Q) (ex : exn) :
  length y = length x ->
  solve_with col x y = Raise ex ->
  ex = IndexError \/ ex = LinAlgError "Singular matrix"%string.
Proof.
  intros Hy. unfold solve_with.
  destruct x as [|x0 xs] eqn:Ex.
  - intros H. injection H as <-. now left.
  - rewrite <- Ex in *. rewrite Hy, Nat.eqb_refl. cbn [negb].
    destruct (Linalg.gesv _ _); [discriminate|].
    intros H. injection H as <-. now right.
Qed.

Lemma remez_body_raises (A B : Q) (order : Z) (s : state) (ex : exn) :
  (0 <= order + 2)%Z -> length (st_y s) = length (st_x s) ->
  remez_body A B order s = Raise ex ->
  ex = IndexError \/ ex = LinAlgError "Singular matrix"%string.
Proof.
  intros Hord Hy. unfold remez_body.
  destruct (solve (st_x s) (st_y s)) as [[p e]|ex'] eqn:Hs; cbn [bind].
  - unfold select. rewrite candidates_unweighted. cbn [bind].
    destruct (trim_returns order
                (fold_left (consider e)
                   (map (fun le => Cand.mk (fst le) (np_sign (snd le))
                                           (Qabs (snd le)))
                        (combine (fst (find_error_extrema p A B))
                                 (snd (find_error_extrema p A B)))) [])
                Hord) as [alt' Ht].
    rewrite Ht. cbn [bind]. discriminate.
  - intros H. injection H as <-.
    unfold solve in Hs. eapply solve_with_raises; eassumption.
Qed.

Lemma remez2_body_raises (A B Aweight : Q) (order : Z) (s : state)
      (ex : exn) :
  ~ Aweight == 0 ->
  (0 <= order + 2)%Z -> length (st_y s) = length (st_x s) ->
  remez2_body A B Aweight order s = Raise ex ->
  ex = IndexError \/ ex = LinAlgError "Singular matrix"%string.
Proof.
  intros Hw Hord Hy. unfold remez2_body.
  destruct (solve2 A Aweight (st_x s) (st_y s)) as [[p e]|ex'] eqn:Hs;
    cbn [bind].
  - unfold select. rewrite candidates_weighted by assumption. cbn [bind].
    destruct (trim_returns order
                (fold_left (consider e)
                   (map (fun le => Cand.mk (fst le) (np_sign (snd le))
                                           (Qabs (snd le)
                                            / weight A Aweight (fst le)))
                        (combine (fst (find_error_extrema p A B))
                                 (snd (find_error_extrema p A B)))) [])
                Hord) as [alt' Ht].
    rewrite Ht. cbn [bind]. discriminate.
  - intros H. injection H as <-.
    unfold solve2 in Hs.
    destruct (st_x s) as [|x0 xs] eqn:Ex.
    + injection Hs as <-. now left.
    + rewrite <- Ex in *.
      destruct (error_column_ok A Aweight (st_x s) Hw) as (col & Hcol & _).
      rewrite Hcol in Hs. cbn [bind] in Hs.
      eapply solve_with_raises; eassumption.
Qed.

(** The only ways a fit on a valid specification fails: without an
    iteration, [p] is unbound at the return; otherwise the solver met a
    singular system or an empty candidate set.  No [ValueError] and no
    [ZeroDivisionError] can come out of either fit. *)
Theorem fit_exceptions
        (A B Aweight : Q) (order iterations : Z) (ex : exn) :
  0 < A -> A < B -> B < 1 -> (3 <= order)%Z -> ~ Aweight == 0 ->
  remez_fit A B order iterations = Raise ex \/
  remez_fit2 A B Aweight order iterations = Raise ex ->
  ((iterations <= 0)%Z /\ ex = UnboundLocalError "p"%string) \/
  ((1 <= iterations)%Z /\
   (ex = IndexError \/ ex = LinAlgError "Singular matrix"%string)).
Proof.
  intros HA HAB HB Hord Hw Hfit.
  destruct (fit_start A B order HA HAB HB Hord)
    as (x & y & Hinit & Hchk & Hok & _).
  assert (Hlen : forall s, state_ok A s -> length (st_y s) = length (st_x s)).
  { intros s [_ Hy]. rewrite Hy. apply targets_length. }
  assert (Hfin : forall body s',
             loop (Z.to_nat iterations) body (mkstate x y None no_data)
             = Ok s' ->
             (forall s1 s2, body s1 = Ok s2 -> st_p s2 <> None) ->
             finish s' = Raise ex ->
             (iterations <= 0)%Z /\ ex = UnboundLocalError "p"%string).
  { intros body s' Hloop Hbody Hf. unfold finish in Hf.
    destruct (st_p s') as [q|] eqn:Hp; [discriminate|].
    injection Hf as <-. split; [|reflexivity].
    apply loop_result in Hloop.
    destruct Hloop as [[Hn _]|[s1 Hb]]; [lia|].
    apply Hbody in Hb. contradiction. }
  assert (Hpos : forall body s e1,
             loop (Z.to_nat iterations) body s = Raise e1 ->
             (1 <= iterations)%Z).
  { intros body s e1 Hl.
    destruct (Z.to_nat iterations) eqn:En; [discriminate|lia]. }
  destruct Hfit as [H|H].
  - unfold remez_fit in H. rewrite Hchk, Hinit in H. cbn [bind] in H.
    destruct (loop _ _ _) as [s'|e1] eqn:Hloop; cbn [bind] in H.
    + left. eapply Hfin; [exact Hloop| |exact H].
      intros s1 s2 Hb. apply remez_body_result in Hb.
      destruct Hb as (q & e & _ & Hq & _). congruence.
    + injection H as <-. right. split; [eapply Hpos; exact Hloop|].
      apply (loop_raise (state_ok A)
               (fun e => e = IndexError \/
                         e = LinAlgError "Singular matrix"%string)
               _) with (3 := Hok) (4 := Hloop).
      * intros t t' _ Hb.
        now destruct (remez_body_ok A B order t t' HA HAB HB Hb).
      * intros s e2 Hs Hb.
        apply (remez_body_raises A B order s e2);
          [lia|now apply Hlen|exact Hb].
  - unfold remez_fit2 in H. rewrite Hinit in H. cbn [bind] in H.
    destruct (loop _ _ _) as [s'|e1] eqn:Hloop; cbn [bind] in H.
    + left. eapply Hfin; [exact Hloop| |exact H].
      intros s1 s2 Hb. apply remez2_body_result in Hb.
      destruct Hb as (q & e & _ & Hq & _). congruence.
    + injection H as <-. right. split; [eapply Hpos; exact Hloop|].
      apply (loop_raise (state_ok A)
               (fun e => e = IndexError \/
                         e = LinAlgError "Singular matrix"%string)
               _) with (3 := Hok) (4 := Hloop).
      * intros t t' _ Hb.
        now destruct (remez2_body_ok A B Aweight order t t' HA HAB HB Hb).
      * intros s e2 Hs Hb.
        apply (remez2_body_raises A B Aweight order s e2);
          [exact Hw|lia|now apply Hlen|exact Hb].
Qed.

Lemma fit_exceptions_witness :
  ((0 <= 0)%Z /\ UnboundLocalError "p"%string = UnboundLocalError "p"%string)
  \/ ((1 <= 0)%Z /\
      (UnboundLocalError "p"%string = IndexError \/
       UnboundLocalError "p"%string = LinAlgError "Singular matrix"%string)).
Proof.
  apply (fit_exceptions (2#5) (3#5) 10 3 0 (UnboundLocalError "p"%string)).
  - reflexivity.
  - reflexivity.
  - reflexivity.
  - lia.
  - discriminate.
  - left. reflexivity.
Defined.

End FitProperties.

(** ** How many extrema there can be *)

Section Counts.

Lemma sorted_NoDup (l : list nat) : StronglySorted lt l -> NoDup l.
Proof.
  induction 1 as [|a l Hs IH Ha]; constructor; auto.
  intros Hin. rewrite Forall_forall in Ha. specialize (Ha _ Hin). lia.
Qed.

Lemma turning_points_bound (y : list Q) :
  length y = samples -> (length (turning_points y) <= 98)%nat.
Proof.
  intros Hlen.
  assert (H : (length (turning_points y) <= length (seq 1 98))%nat).
  { apply NoDup_incl_length.
    - apply sorted_NoDup, turning_points_sorted.
    - intros i Hi. apply turning_points_spec in Hi.
      rewrite Hlen in Hi. unfold samples in Hi. apply in_seq. lia. }
  now rewrite length_seq in H.
Qed.

Lemma take_length (t : list Q) (ix : list nat) : length (take t ix) = length ix.
Proof. unfold take. apply length_map. Qed.

Lemma reported_length (y : list Q) :
  length y = samples -> (2 <= length (reported y) <= 100)%nat.
Proof.
  intros Hlen. unfold reported. cbn [length].
  rewrite length_app. cbn [length].
  pose proof (turning_points_bound y Hlen). lia.
Qed.

Lemma find_error_extrema_lengths (p : poly) (A B : Q) :
  0 < A -> A < B -> B < 1 ->
  length (fst (find_error_extrema p A B))
  = length (snd (find_error_extrema p A B)) /\
  length (fst (find_error_extrema p A B))
  = Nat.add
      (length (reported (map (fun x => 1 - peval p x) (linspace 0 A samples))))
      (length (reported (map (fun x => 0 - peval p x) (linspace B 1 samples)))).
Proof.
  intros HA HAB HB.
  unfold find_error_extrema, intervals.
  destruct (Qeq_bool B 0) eqn:E.
  { apply Qeq_bool_iff in E. lra. }
  cbn [andb fold_left fst snd app].
  rewrite !interval_extrema_eq. cbn [fst snd].
  rewrite !length_app, !take_length. split; reflexivity.
Qed.

Lemma sampled_reported_length (p : poly) (a b v : Q) :
  let y := map (fun x => v - peval p x) (linspace a b samples) in
  (2 <= length (reported y) <= 100)%nat.
Proof.
  intros y. apply reported_length.
  unfold y. now rewrite length_map, linspace_length.
Qed.

(** The locator returns as many errors as locations: between 4 and 200
    for two regions. *)
Theorem find_error_extrema_count (p : poly) (A B : Q) :
  0 < A -> A < B -> B < 1 ->
  length (fst (find_error_extrema p A B))
  = length (snd (find_error_extrema p A B)) /\
  (4 <= length (fst (find_error_extrema p A B)) <= 200)%nat.
Proof.
  intros HA HAB HB.
  destruct (find_error_extrema_lengths p A B HA HAB HB) as [H1 H2].
  split; [exact H1|]. rewrite H2.
  pose proof (sampled_reported_length p 0 A 1) as H3.
  pose proof (sampled_reported_length p B 1 0) as H4.
  cbv zeta in H3, H4. lia.
Qed.

Lemma find_error_extrema_count_witness :
  let r := find_error_extrema [1; -1] (2#5) (3#5) in
  length (fst r) = length (snd r) /\ (4 <= length (fst r) <= 200)%nat.
Proof.
  intros r.
  apply (find_error_extrema_count [1; -1] (2#5) (3#5)); reflexivity.
Defined.

(** Whatever the order, a successful fit on a valid specification
    selects at most 200 points; from [order = 199] on these are always
    fewer than the [order + 2] points of a full system. *)
Theorem fit_selects_at_most_200
        (A B Aweight : Q) (order iterations : Z) (p : poly) (d : data) :
  0 < A -> A < B -> B < 1 ->
  remez_fit A B order iterations = Ok (p, d) \/
  remez_fit2 A B Aweight order iterations = Ok (p, d) ->
  exists nx,
    new_x d = Some nx /\ (length nx <= 200)%nat /\
    ((199 <= order)%Z -> (Z.of_nat (length nx) < order + 2)%Z).
Proof.
  intros HA HAB HB Hfit.
  assert (Hsel : forall mag e q alt,
             select mag e order (fst (find_error_extrema q A B))
                    (snd (find_error_extrema q A B)) = Ok alt ->
             (length (map Cand.loc alt) <= 200)%nat).
  { intros mag e q alt H.
    destruct (select_invariants_aux _ _ _ _ _ _ H) as [Hsub _].
    apply subseq_length in Hsub.
    destruct (find_error_extrema_lengths q A B HA HAB HB) as [_ H2].
    pose proof (sampled_reported_length q 0 A 1) as H3.
    pose proof (sampled_reported_length q B 1 0) as H4.
    cbv zeta in H3, H4. rewrite H2 in Hsub. lia. }
  assert (Hnx : exists nx, new_x d = Some nx /\ (length nx <= 200)%nat).
  { destruct Hfit as [H|H].
    - apply remez_fit_result in H. destruct H as (s & s' & Hb & _ & <-).
      unfold remez_body in Hb.
      destruct (solve (st_x s) (st_y s)) as [[q e]|]; [|discriminate].
      cbn [bind] in Hb.
      destruct (select _ e order _ _) as [alt|] eqn:Hs; [|discriminate].
      cbn [bind] in Hb. injection Hb as <-. cbn [st_data new_x].
      eexists. split; [reflexivity|]. eapply Hsel; exact Hs.
    - apply remez_fit2_result in H. destruct H as (s & s' & Hb & _ & <-).
      unfold remez2_body in Hb.
      destruct (solve2 A Aweight (st_x s) (st_y s)) as [[q e]|];
        [|discriminate].
      cbn [bind] in Hb.
      destruct (select _ e order _ _) as [alt|] eqn:Hs; [|discriminate].
      cbn [bind] in Hb. injection Hb as <-. cbn [st_data new_x].
      eexists. split; [reflexivity|]. eapply Hsel; exact Hs. }
  destruct Hnx as (nx & Hn & Hl). exists nx.
  split; [exact Hn|]. split; [exact Hl|]. lia.
Qed.

Lemma fit_selects_at_most_200_witness :
  exists p d nx,
    remez_fit (2#5) (3#5) 3 1 = Ok (p, d) /\
    new_x d = Some nx /\ (length nx <= 200)%nat.
Proof.
  assert (H : match remez_fit (2#5) (3#5) 3 1 with
              | Ok _ => true
              | Raise _ => false
              end = true) by (vm_compute; reflexivity).
  destruct (remez_fit (2#5) (3#5) 3 1) as [[p d]|] eqn:Hfit; [|discriminate].
  destruct (fit_selects_at_most_200 (2#5) (3#5) 1 3 1 p d
              eq_refl eq_refl eq_refl (or_introl Hfit))
    as (nx & H1 & H2 & _).
  exists p, d, nx. auto.
Defined.

End Counts.

(** ** Standard polynomial fitting *)

Section MSEFacts.

Variable polyfit : list Q -> list Q -> Z -> result poly.

Lemma arange_from_0 (n : Z) :
  arange 0 n = map (fun k => inject_Z (0 + Z.of_nat k)) (seq 0 (Z.to_nat n)).
Proof. unfold arange. now rewrite Z.sub_0_r. Qed.

(** When the quotient the code computes lies between [order] and
    [order + 1], the second region is left a single point: [MSE_fit]
    divides by [ptsB - 1 = 0] and raises [ZeroDivisionError], whatever
    the fitting routine. *)
Theorem MSE_fit_single_point (s A B : Q) (order : Z) :
  (3 <= order)%Z ->
  inject_Z order <= s -> s < inject_Z (order + 1) ->
  MSE_fit_from polyfit s A B order = Raise ZeroDivisionError.
Proof.
  intros Hord Hlo Hhi.
  assert (Hs0 : 0 <= s).
  { eapply Qle_trans; [|exact Hlo].
    change 0 with (inject_Z 0). rewrite <- Zle_Qle. lia. }
  assert (Hint : int_of s = order).
  { pose proof (int_of_lt s (order + 1) ltac:(lia) Hhi) as H1.
    assert (H2 : (order <= int_of s)%Z).
    { rewrite (int_of_floor s Hs0).
      etransitivity; [|apply Qfloor_resp_le; exact Hlo].
      now rewrite Qfloor_Z. }
    lia. }
  unfold MSE_fit_from. rewrite Hint.
  destruct (Z.ltb_spec order 2); [lia|].
  replace (order + 1 - order - 1)%Z with 0%Z by lia.
  reflexivity.
Qed.

Lemma edge_points (a b : Q) (n : Z) (k : nat) :
  a < b -> (Z.of_nat k < n)%Z ->
  let v := a + inject_Z (0 + Z.of_nat k) * ((b - a) / inject_Z (n - 1)) in
  (1 < n)%Z -> a <= v /\ v <= b.
Proof.
  intros Hab Hk v Hn. subst v.
  set (s := (b - a) / inject_Z (n - 1)).
  assert (Hn1 : 0 < inject_Z (n - 1)).
  { change 0 with (inject_Z 0). rewrite <- Zlt_Qlt. lia. }
  assert (Hs : 0 < s).
  { unfold s. apply Qlt_shift_div_l; [assumption|]. lra. }
  assert (Hsum : inject_Z (n - 1) * s == b - a).
  { unfold s. field. lra. }
  assert (Hk1 : 0 <= inject_Z (0 + Z.of_nat k)).
  { change 0 with (inject_Z 0) at 1. rewrite <- Zle_Qle. lia. }
  assert (Hk2 : inject_Z (0 + Z.of_nat k) <= inject_Z (n - 1)).
  { rewrite <- Zle_Qle. lia. }
  split; nra.
Qed.

Lemma edge_points_increase (a b : Q) (n : Z) (i j : nat) :
  a < b -> (1 < n)%Z -> (i < j)%nat ->
  a + inject_Z (0 + Z.of_nat i) * ((b - a) / inject_Z (n - 1))
  < a + inject_Z (0 + Z.of_nat j) * ((b - a) / inject_Z (n - 1)).
Proof.
  intros Hab Hn Hij.
  set (s := (b - a) / inject_Z (n - 1)).
  assert (Hn1 : 0 < inject_Z (n - 1)).
  { change 0 with (inject_Z 0). rewrite <- Zlt_Qlt. lia. }
  assert (Hs : 0 < s).
  { unfold s. apply Qlt_shift_div_l; [assumption|]. lra. }
  assert (Hk : inject_Z (0 + Z.of_nat i) < inject_Z (0 + Z.of_nat j)).
  { rewrite <- Zlt_Qlt. lia. }
  nra.
Qed.

Lemma Forall2_Qeq_nth (l l' : list Q) :
  Forall2 Qeq l l' -> forall i, nth i l 0 == nth i l' 0.
Proof.
  induction 1 as [|u v l l' Huv Hl IH]; intros [|i]; cbn [nth];
    try reflexivity; auto.
Qed.

(** The [n >= 2] points from [a] to [b] with both ends included. *)
Lemma edge_list (a b : Q) (n : nat) :
  a < b -> (2 <= n)%nat ->
  let l := map (fun k => a + inject_Z (0 + Z.of_nat k)
                             * ((b - a) / inject_Z (Z.of_nat n - 1)))
               (seq 0 n) in
  length l = n /\ StronglySorted Qlt l /\
  Forall (fun v => a <= v /\ v <= b) l /\
  nth 0 l 0 == a /\ nth (n - 1) l 0 == b.
Proof.
  intros Hab Hn l.
  assert (Hlen : length l = n) by (unfold l; now rewrite length_map, length_seq).
  split; [exact Hlen|]. split.
  { unfold l. set (f := fun k : nat => _).
    assert (Hf : forall i j, (i < j < n)%nat -> f i < f j).
    { intros i j Hij. apply edge_points_increase; [assumption|lia|lia]. }
    pose proof (StronglySorted_map_seq f n Hf 0 (Nat.le_0_l n)) as HS.
    now rewrite Nat.sub_0_r in HS. }
  split.
  { unfold l. apply Forall_forall. intros v Hv.
    apply in_map_iff in Hv. destruct Hv as (k & <- & Hk).
    apply in_seq in Hk. apply edge_points; [assumption|lia|lia]. }
  split.
  - unfold l. rewrite nth_map_in with (d' := O) by (rewrite length_seq; lia).
    rewrite seq_nth by lia. cbn [Z.of_nat Nat.add Z.add]. ring.
  - unfold l. rewrite nth_map_in with (d' := O) by (rewrite length_seq; lia).
    rewrite seq_nth by lia.
    replace (0 + Z.of_nat (0 + (n - 1)))%Z with (Z.of_nat n - 1)%Z by lia.
    field.
    change 0 with (inject_Z 0). rewrite inject_Z_injective. lia.
Qed.

(** When the quotient the code computes is below [order], [MSE_fit]
    hands to the fitting routine [order + 1] strictly increasing
    points, the first [max 2 (int s)] of them in the first region, at
    least two per region, whose first and last points in each region
    are the region's edges [0], [A] and [B], [1], with ordinates 1 on
    the first region and 0 on the second, and returns the fit with
    these points. *)
Theorem MSE_fit_points (s A B : Q) (order : Z) :
  0 < A -> A < B -> B < 1 -> (3 <= order)%Z ->
  s < inject_Z order ->
  exists (nA nB : nat) (x y : list Q),
    MSE_fit_from polyfit s A B order
    = (p <- polyfit x y order ;; Ok (p, x, y)) /\
    Z.of_nat nA = Z.max 2 (int_of s) /\
    (2 <= nA)%nat /\ (2 <= nB)%nat /\
    Z.of_nat (nA + nB) = (order + 1)%Z /\
    length x = (nA + nB)%nat /\
    y = repeat 1 nA ++ repeat 0 nB /\
    StronglySorted Qlt x /\
    nth 0 x 0 == 0 /\ nth (nA - 1) x 0 == A /\
    nth nA x 0 == B /\ nth (nA + nB - 1) x 0 == 1.
Proof.
  intros HA HAB HB Hord Hshare.
  pose proof (int_of_lt s order ltac:(lia) Hshare) as Hfl.
  set (ptsA := Z.max 2 (int_of s)).
  set (ptsB := (order + 1 - ptsA)%Z).
  assert (HptsA : (2 <= ptsA < order)%Z) by (unfold ptsA; lia).
  assert (HptsB : (2 <= ptsB)%Z) by (unfold ptsB; lia).
  exists (Z.to_nat ptsA), (Z.to_nat ptsB).
  assert (HnA : Z.of_nat (Z.to_nat ptsA) = ptsA) by lia.
  assert (HnB : Z.of_nat (Z.to_nat ptsB) = ptsB) by lia.
  set (xa := map (fun k => k * (A / inject_Z (ptsA - 1))) (arange 0 ptsA)).
  set (xb := map (fun k => B + k * ((1 - B) / inject_Z (ptsB - 1)))
                 (arange 0 ptsB)).
  exists (xa ++ xb), (repeat 1 (Z.to_nat ptsA) ++ repeat 0 (Z.to_nat ptsB)).
  split.
  { unfold MSE_fit_from.
    replace (if (int_of s <? 2)%Z then 2%Z else int_of s) with ptsA
      by (unfold ptsA; destruct (Z.ltb_spec (int_of s) 2); lia).
    fold ptsB.
    destruct (Z.eqb_spec (ptsB - 1) 0); [lia|].
    destruct (Z.ltb_spec ptsB 0); [lia|].
    reflexivity. }
  split; [exact HnA|].
  destruct (edge_list 0 A (Z.to_nat ptsA) HA) as (La & Sa & Fa & Ea0 & Ea1);
    [lia|].
  destruct (edge_list B 1 (Z.to_nat ptsB) HB) as (Lb & Sb & Fb & Eb0 & Eb1);
    [lia|].
  rewrite HnA in La, Sa, Fa, Ea0, Ea1. rewrite HnB in Lb, Sb, Fb, Eb0, Eb1.
  assert (Ha : Forall2 Qeq xa
                 (map (fun k => 0 + inject_Z (0 + Z.of_nat k)
                                    * ((A - 0) / inject_Z (ptsA - 1)))
                      (seq 0 (Z.to_nat ptsA)))).
  { unfold xa. rewrite arange_from_0, map_map.
    apply Forall2_map_pointwise. intros k. unfold Qdiv. ring. }
  assert (Hb : xb = map (fun k => B + inject_Z (0 + Z.of_nat k)
                                      * ((1 - B) / inject_Z (ptsB - 1)))
                        (seq 0 (Z.to_nat ptsB))).
  { unfold xb. now rewrite arange_from_0, map_map. }
  assert (Hla : length xa = Z.to_nat ptsA)
    by (rewrite (Forall2_length Ha); exact La).
  pose proof (Forall2_Qeq_nth _ _ Ha) as Hnth.
  rewrite <- Hb in Lb, Sb, Fb, Eb0, Eb1.
  split; [lia|]. split; [lia|]. split; [unfold ptsB; lia|].
  split; [rewrite length_app; lia|]. split; [reflexivity|].
  split.
  { apply StronglySorted_app; [eapply Forall2_Qeq_sorted; eassumption|exact Sb|].
    intros u v Hu Hv.
    assert (Fa' : Forall (fun v => 0 <= v /\ v <= A) xa).
    { eapply Forall2_Qeq_Forall; [|exact Ha|exact Fa].
      intros u0 t Hst Ht. cbv beta in *. now rewrite Hst. }
    rewrite Forall_forall in Fa', Fb.
    specialize (Fa' _ Hu). specialize (Fb _ Hv). lra. }
  split; [rewrite app_nth1 by lia; now rewrite Hnth|].
  split; [rewrite app_nth1 by lia; now rewrite Hnth|].
  split.
  - rewrite app_nth2 by lia. rewrite Hla, Nat.sub_diag. exact Eb0.
  - rewrite app_nth2 by lia.
    replace (Z.to_nat ptsA + Z.to_nat ptsB - 1 - length xa)%nat
      with (Z.to_nat ptsB - 1)%nat by lia.
    exact Eb1.
Qed.

End MSEFacts.

Lemma MSE_fit_single_point_witness :
  MSE_fit_from (fun _ _ _ => Ok []) (72#19) (9#10) (19#20) 3
  = Raise ZeroDivisionError.
Proof.
  apply (MSE_fit_single_point (fun _ _ _ => Ok []) (72#19) (9#10) (19#20) 3).
  - lia.
  - vm_compute. discriminate.
  - reflexivity.
Defined.

Lemma MSE_fit_points_witness :
  exists (nA nB : nat) (x y : list Q),
    MSE_fit_from (fun _ _ _ => Ok []) 2 (2#5) (3#5) 3 = Ok ([], x, y) /\
    Z.of_nat nA = Z.max 2 (int_of 2) /\
    (2 <= nA)%nat /\ (2 <= nB)%nat /\
    Z.of_nat (nA + nB) = (3 + 1)%Z /\
    length x = (nA + nB)%nat /\
    y = repeat 1 nA ++ repeat 0 nB /\
    StronglySorted Qlt x /\
    nth 0 x 0 == 0 /\ nth (nA - 1) x 0 == 2#5 /\
    nth nA x 0 == 3#5 /\ nth (nA + nB - 1) x 0 == 1.
Proof.
  apply (MSE_fit_points (fun _ _ _ => Ok []) 2 (2#5) (3#5) 3).
  - reflexivity.
  - reflexivity.
  - reflexivity.
  - lia.
  - reflexivity.
Defined.

(** ** The weighted fit with weight 1 *)

Section UnitWeight.

Lemma Qle_bool_compat (a b b' : Q) : b == b' -> Qle_bool a b = Qle_bool a b'.
Proof.
  intros Hb. destruct (Qle_bool a b') eqn:E.
  - apply Qle_bool_iff. apply Qle_bool_iff in E. now rewrite Hb.
  - destruct (Qle_bool a b) eqn:E'; [|reflexivity].
    apply Qle_bool_iff in E'. rewrite Hb in E'.
    apply Qle_bool_iff in E'. congruence.
Qed.

Lemma Qlt_bool_compat (a a' b b' : Q) :
  a == a' -> b == b' -> Qlt_bool a b = Qlt_bool a' b'.
Proof.
  intros Ha Hb. unfold Qlt_bool. f_equal.
  destruct (Qle_bool b' a') eqn:E.
  - apply Qle_bool_iff. apply Qle_bool_iff in E. now rewrite Ha, Hb.
  - destruct (Qle_bool b a) eqn:E'; [|reflexivity].
    apply Qle_bool_iff in E'. rewrite Ha, Hb in E'.
    apply Qle_bool_iff in E'. congruence.
Qed.

Lemma same_snoc (alt alt' : list Cand.t) :
  Forall2 same_cand alt alt' ->
  (alt = [] /\ alt' = []) \/
  (exists a l a' l',
      alt = a ++ [l] /\ alt' = a' ++ [l'] /\
      Forall2 same_cand a a' /\ same_cand l l').
Proof.
  intros H. destruct alt as [|l a] using rev_ind.
  - inversion H; subst. now left.
  - right. clear IHa. apply Forall2_app_inv_l in H.
    destruct H as (a' & t & Ha & Ht & ->).
    inversion Ht as [|? l' ? ? Hl Hnil]; subst. inversion Hnil; subst.
    exists a, l, a', l'. auto.
Qed.

Lemma same_snoc_app (a a' : list Cand.t) (c c' : Cand.t) :
  Forall2 same_cand a a' -> same_cand c c' ->
  Forall2 same_cand (a ++ [c]) (a' ++ [c']).
Proof.
  intros Ha Hc. apply Forall2_app; [exact Ha|].
  constructor; [exact Hc|constructor].
Qed.

Lemma consider_same (e : Q) (alt alt' : list Cand.t) (c c' : Cand.t) :
  Forall2 same_cand alt alt' -> same_cand c c' ->
  Forall2 same_cand (consider e alt c) (consider e alt' c').
Proof.
  intros Halt Hc. pose proof Hc as (Hloc & Hsign & Hmag).
  unfold consider. rewrite (Qle_bool_compat _ _ _ Hmag).
  destruct (Qle_bool (e - tol) (Cand.err_mag c')); [|exact Halt].
  destruct (same_snoc _ _ Halt)
    as [[-> ->]|(a & l & a' & l' & -> & -> & Ha & Hl)].
  - cbn [last_opt app]. constructor; [exact Hc|constructor].
  - rewrite !last_opt_snoc, !removelast_last.
    pose proof Hl as (_ & Hls & Hlm). rewrite Hls, Hsign.
    destruct (negb (Cand.sign l' =? Cand.sign c')%Z).
    + apply same_snoc_app; [|exact Hc].
      apply same_snoc_app; [exact Ha|exact Hl].
    + rewrite (Qlt_bool_compat _ _ _ _ Hlm Hmag).
      destruct (Qlt_bool (Cand.err_mag l') (Cand.err_mag c')).
      * now apply same_snoc_app.
      * apply same_snoc_app; [exact Ha|exact Hl].
Qed.

Lemma walk_same (e : Q) (cs cs' : list Cand.t) :
  Forall2 same_cand cs cs' ->
  forall acc acc',
    Forall2 same_cand acc acc' ->
    Forall2 same_cand (fold_left (consider e) cs acc)
            (fold_left (consider e) cs' acc').
Proof.
  induction 1 as [|c c' cs cs' Hc Hcs IH]; intros acc acc' Hacc;
    cbn [fold_left]; [exact Hacc|].
  apply IH. now apply consider_same.
Qed.

Lemma trim_fuel_same (order : Z) (fuel : nat) :
  forall alt alt',
    Forall2 same_cand alt alt' ->
    agree (Forall2 same_cand) (trim_fuel fuel order alt)
          (trim_fuel fuel order alt').
Proof.
  induction fuel as [|fuel IH]; intros alt alt' H; cbn [trim_fuel];
    rewrite <- (Forall2_length H);
    destruct (Z.of_nat (length alt) >? order + 2)%Z; try exact H.
  - destruct H; reflexivity.
  - destruct H as [|a0 b0 rest rest' Hab Hrest]; [reflexivity|].
    destruct (same_snoc _ _ (Forall2_cons _ _ Hab Hrest))
      as [[Hnil _]|(a & l & a' & l' & Ea & Ea' & Ha & Hl)];
      [discriminate|].
    rewrite Ea, Ea', !last_last, !removelast_last.
    destruct Hab as (_ & _ & Hm0). destruct Hl as (_ & _ & Hml).
    rewrite (Qlt_bool_compat _ _ _ _ Hml Hm0).
    destruct (Qlt_bool (Cand.err_mag l') (Cand.err_mag b0));
      apply IH; assumption.
Qed.

Lemma same_locations (alt alt' : list Cand.t) :
  Forall2 same_cand alt alt' -> map Cand.loc alt = map Cand.loc alt'.
Proof.
  induction 1 as [|c c' l l' Hc Hl IH]; cbn [map]; [reflexivity|].
  destruct Hc as (-> & _). now rewrite IH.
Qed.

Lemma weigh_unit (A x : Q) : weigh A 1 x = Ok 1.
Proof. unfold weigh. destruct (Qle_bool x A); reflexivity. Qed.

Lemma alt_sign_unit (i : nat) : alt_sign i * 1 = alt_sign i.
Proof. unfold alt_sign. destruct (Nat.even i); reflexivity. Qed.

Lemma error_column_unit (A : Q) (x : list Q) :
  error_column A 1 x = Ok (signs (length x)).
Proof.
  unfold error_column.
  rewrite (mapM_ok (weigh A 1) (fun _ => 1) x (weigh_unit A)).
  cbn [bind]. f_equal. unfold signs.
  generalize 0%nat. induction x as [|v x IH]; intros k;
    cbn [length seq map combine]; [reflexivity|].
  cbn [fst snd]. rewrite alt_sign_unit. f_equal. apply IH.
Qed.

Lemma solve2_unit (A : Q) (x y : list Q) : solve2 A 1 x y = solve x y.
Proof.
  unfold solve2, solve. destruct x as [|x0 xs] eqn:E; [reflexivity|].
  rewrite <- E. rewrite error_column_unit. reflexivity.
Qed.

Lemma select_unit (A e : Q) (order : Z) (loc err : list Q) :
  agree (fun alt alt' => map Cand.loc alt = map Cand.loc alt')
        (select (weighted_mag A 1) e order loc err)
        (select (fun _ er => Ok (Qabs er)) e order loc err).
Proof.
  unfold select.
  rewrite candidates_unweighted.
  rewrite (candidates_weighted A 1 loc err) by discriminate.
  cbn [bind]. unfold trim.
  set (cs2 := map _ (combine loc err)).
  set (cs1 := map _ (combine loc err)).
  assert (Hcs : Forall2 same_cand cs2 cs1).
  { unfold cs1, cs2. induction (combine loc err) as [|le l IH]; cbn [map];
      constructor; auto.
    repeat split; cbn [Cand.loc Cand.sign Cand.err_mag].
    unfold weight. destruct (Qle_bool (fst le) A); field. }
  pose proof (walk_same e _ _ Hcs [] [] (Forall2_nil _)) as Hw.
  rewrite (Forall2_length Hw).
  pose proof (trim_fuel_same order
                (length (fold_left (consider e) cs1 [])) _ _ Hw) as Ht.
  unfold agree in *.
  destruct (trim_fuel _ order (fold_left (consider e) cs2 []));
    destruct (trim_fuel _ order (fold_left (consider e) cs1 []));
    try assumption.
  now apply same_locations.
Qed.

Lemma body_unit (A B : Q) (order : Z) (s2 s1 : state) :
  same_state s2 s1 ->
  agree (fun t2 t1 =>
           same_state t2 t1 /\
           prev_x (st_data t2) = prev_x (st_data t1) /\
           prev_y (st_data t2) = prev_y (st_data t1) /\
           Berr (st_data t2) = err (st_data t1) /\
           new_x (st_data t2) = new_x (st_data t1))
        (remez2_body A B 1 order s2) (remez_body A B order s1).
Proof.
  intros (Hx & Hy & Hp). unfold remez2_body, remez_body.
  rewrite solve2_unit, Hx, Hy.
  destruct (solve (st_x s1) (st_y s1)) as [[p e]|ex]; cbn [bind agree];
    [|reflexivity].
  pose proof (select_unit A e order (fst (find_error_extrema p A B))
                          (snd (find_error_extrema p A B))) as Hsel.
  unfold agree in Hsel.
  destruct (select (weighted_mag A 1) e order _ _) as [alt2|ex2];
    destruct (select _ e order _ _) as [alt1|ex1];
    cbn [bind]; try contradiction; [|exact Hsel].
  unfold same_state. cbn [st_x st_y st_p st_data prev_x prev_y Berr err new_x].
  rewrite Hsel. repeat split.
Qed.

Lemma loop_unit (A B : Q) (order : Z) (n : nat) :
  forall s2 s1,
    same_state s2 s1 ->
    agree (fun t2 t1 =>
             same_state t2 t1 /\
             (n <> O ->
              prev_x (st_data t2) = prev_x (st_data t1) /\
              prev_y (st_data t2) = prev_y (st_data t1) /\
              Berr (st_data t2) = err (st_data t1) /\
              new_x (st_data t2) = new_x (st_data t1)))
          (loop n (remez2_body A B 1 order) s2)
          (loop n (remez_body A B order) s1).
Proof.
  induction n as [|n IH]; intros s2 s1 Hs.
  - cbn [loop agree]. split; [exact Hs|]. intros H. now elim H.
  - rewrite !loop_last.
    specialize (IH s2 s1 Hs). unfold agree in IH.
    destruct (loop n (remez2_body A B 1 order) s2) as [u2|e2];
      destruct (loop n (remez_body A B order) s1) as [u1|e1];
      cbn [bind]; try contradiction; [|exact IH].
    destruct IH as [Hu _].
    pose proof (body_unit A B order u2 u1 Hu) as Hb. unfold agree in *.
    destruct (remez2_body A B 1 order u2);
      destruct (remez_body A B order u1); try assumption.
    destruct Hb as (H1 & H2). split; [exact H1|]. intros _. exact H2.
Qed.

(** With [Aweight = 1] the weighted fit is the unweighted fit: for
    [order >= 3] both raise the same exception, or both return the same
    polynomial, the same points and the same error ([Berr] of the one
    is [err] of the other). *)
Theorem unit_weight_fit (A B : Q) (order iterations : Z) :
  (3 <= order)%Z ->
  agree (fun r2 r1 =>
           fst r2 = fst r1 /\
           prev_x (snd r2) = prev_x (snd r1) /\
           prev_y (snd r2) = prev_y (snd r1) /\
           Berr (snd r2) = err (snd r1) /\
           new_x (snd r2) = new_x (snd r1))
        (remez_fit2 A B 1 order iterations)
        (remez_fit A B order iterations).
Proof.
  intros Hord. unfold remez_fit2, remez_fit.
  destruct (Z.ltb_spec order 3); [lia|].
  destruct (initial_points A B order) as [[x y]|ex]; cbn [bind agree];
    [|reflexivity].
  destruct (Z.to_nat iterations) as [|n] eqn:En; [reflexivity|].
  pose proof (loop_unit A B order (S n)
                (mkstate x y None no_data) (mkstate x y None no_data))
    as Hl.
  assert (Hinit : same_state (mkstate x y None no_data)
                             (mkstate x y None no_data))
    by (repeat split).
  specialize (Hl Hinit). unfold agree in Hl.
  destruct (loop (S n) (remez2_body A B 1 order) _) as [t2|e2];
    destruct (loop (S n) (remez_body A B order) _) as [t1|e1];
    cbn [bind]; try contradiction; [|exact Hl].
  destruct Hl as [(Hx & Hy & Hp) Hd].
  unfold finish. rewrite Hp.
  destruct (st_p t1) as [p|]; [|reflexivity].
  cbn [fst snd]. split; [reflexivity|]. apply Hd. discriminate.
Qed.

Lemma unit_weight_fit_witness :
  agree (fun r2 r1 =>
           fst r2 = fst r1 /\
           prev_x (snd r2) = prev_x (snd r1) /\
           prev_y (snd r2) = prev_y (snd r1) /\
           Berr (snd r2) = err (snd r1) /\
           new_x (snd r2) = new_x (snd r1))
        (remez_fit2 (2#5) (3#5) 1 3 1)
        (remez_fit (2#5) (3#5) 3 1).
Proof.
  apply (unit_weight_fit (2#5) (3#5) 3 1). lia.
Defined.

End UnitWeight.

(** ** The system of the solver is regular on increasing points *)



Section DividedDifferences.

Variable x : nat -> Q.

Lemma dd_ext (f g : nat -> Q) (k : nat) :
  forall i,
    (forall j, (i <= j <= i + k)%nat -> f j == g j) ->
    dd x f k i == dd x g k i.
Proof.
  induction k as [|k IH]; intros i H; cbn [dd].
  - apply H. lia.
  - rewrite (IH (S i)), (IH i); [reflexivity| |];
      intros j Hj; apply H; lia.
Qed.

Lemma dd_const (c : Q) (k i : nat) : dd x (fun _ => c) (S k) i == 0.
Proof.
  revert i. induction k as [|k IH]; intros i.
  - cbn [dd]. unfold Qdiv. ring.
  - change (dd x (fun _ => c) (S (S k)) i)
      with ((dd x (fun _ => c) (S k) (S i) - dd x (fun _ => c) (S k) i)
            / (x (S (i + S k)) - x i)).
    rewrite !IH. unfold Qdiv. ring.
Qed.

Lemma dd_add (f g : nat -> Q) (k : nat) :
  forall i, dd x (fun j => f j + g j) k i == dd x f k i + dd x g k i.
Proof.
  induction k as [|k IH]; intros i; cbn [dd].
  - reflexivity.
  - rewrite !IH. unfold Qdiv. ring.
Qed.

(** The points are strictly increasing up to index [n]. *)
Variable n : nat.
Hypothesis x_incr : forall a b, (a < b <= n)%nat -> x a < x b.

(** Leibniz' rule for the product with the identity. *)
Lemma dd_times_x (g : nat -> Q) (k : nat) :
  forall i, (S (i + k) <= n)%nat ->
    dd x (fun j => x j * g j) (S k) i
    == x (S (i + k)) * dd x g (S k) i + dd x g k i.
Proof.
  induction k as [|k IH]; intros i Hi.
  - cbn [dd]. rewrite Nat.add_0_r.
    pose proof (x_incr i (S i) ltac:(lia)).
    field. lra.
  - change (dd x (fun j => x j * g j) (S (S k)) i)
      with ((dd x (fun j => x j * g j) (S k) (S i)
             - dd x (fun j => x j * g j) (S k) i)
            / (x (S (i + S k)) - x i)).
    rewrite (IH (S i)) by lia. rewrite (IH i) by lia.
    change (dd x g (S (S k)) i)
      with ((dd x g (S k) (S i) - dd x g (S k) i) / (x (S (i + S k)) - x i)).
    replace (S (S i + k)) with (S (i + S k)) by lia.
    assert (Hb : dd x g k (S i) - dd x g k i
                 == (x (S (i + k)) - x i) * dd x g (S k) i).
    { cbn [dd]. pose proof (x_incr i (S (i + k)) ltac:(lia)). field. lra. }
    pose proof (x_incr i (S (i + S k)) ltac:(lia)) as Hd.
    set (a := dd x g (S k) (S i)) in *. set (b := dd x g (S k) i) in *.
    set (u := dd x g k (S i)) in *. set (v := dd x g k i) in *.
    assert (Hu : u == v + (x (S (i + k)) - x i) * b) by lra.
    rewrite Hu. field. lra.
Qed.

(** The divided differences of an order that exceeds the degree of a
    polynomial vanish. *)
Lemma dd_poly (q : poly) :
  forall k i, (length q <= k)%nat -> (i + k <= n)%nat ->
    dd x (fun j => peval q (x j)) k i == 0.
Proof.
  induction q as [|c q IH]; intros k i Hk Hi.
  - destruct k as [|k]; [reflexivity|]. apply (dd_const 0).
  - destruct k as [|k]; [cbn [length] in Hk; lia|].
    cbn [length] in Hk.
    rewrite (dd_ext _ (fun j => c + x j * peval q (x j)))
      by (intros j _; cbn [peval]; apply Qred_correct).
    rewrite (dd_add (fun _ => c) (fun j => x j * peval q (x j))).
    rewrite dd_const, dd_times_x by lia.
    rewrite (IH (S k) i), (IH k i) by lia. ring.
Qed.

(** Values of strictly alternating sign have divided differences of
    strictly alternating sign. *)
Lemma dd_alternates (f : nat -> Q) (s : Q) (k : nat) :
  forall i, (i + k <= n)%nat ->
    (forall j, (i <= j <= i + k)%nat -> 0 < s * (alt_sign j * f j)) ->
    0 < s * (alt_sign (i + k) * dd x f k i).
Proof.
  induction k as [|k IH]; intros i Hi H.
  - rewrite Nat.add_0_r. cbn [dd]. apply H. lia.
  - pose proof (IH (S i) ltac:(lia) ltac:(intros j Hj; apply H; lia)) as H1.
    pose proof (IH i ltac:(lia) ltac:(intros j Hj; apply H; lia)) as H0.
    pose proof (x_incr i (S (i + k)) ltac:(lia)) as Hd.
    replace (i + S k)%nat with (S i + k)%nat by lia.
    assert (Hs : alt_sign (i + k) == - alt_sign (S i + k)).
    { unfold alt_sign. cbn [plus]. rewrite Nat.even_succ.
      rewrite <- Nat.negb_even.
      destruct (Nat.even (i + k)); cbn [negb]; ring. }
    rewrite Hs in H0.
    cbn [dd].
    set (D1 := dd x f k (S i)) in *. set (D0 := dd x f k i) in *.
    set (sg := alt_sign (S i + k)) in *.
    assert (Hn : 0 < s * sg * D1 - s * sg * D0) by lra.
    assert (Hq : s * (sg * ((D1 - D0) / (x (S (i + k)) - x i)))
                 == (s * sg * D1 - s * sg * D0) / (x (S (i + k)) - x i)).
    { field. lra. }
    rewrite Hq. apply Qlt_shift_div_l; lra.
Qed.

End DividedDifferences.

Section Roots.

Lemma pquot_length (a : Q) (p : poly) :
  length (pquot a p) = pred (length p).
Proof.
  induction p as [|c p IH]; [reflexivity|].
  destruct p as [|c' p']; [reflexivity|].
  change (pquot a (c :: c' :: p'))
    with (peval (c' :: p') a :: pquot a (c' :: p')).
  cbn [length] in *. now rewrite IH.
Qed.

(** Division of a polynomial by [x - a]. *)
Lemma pquot_spec (a : Q) (p : poly) (x : Q) :
  peval p x == peval p a + (x - a) * peval (pquot a p) x.
Proof.
  induction p as [|c p IH]; [cbn; ring|].
  destruct p as [|c' p'].
  - cbn [pquot peval]. rewrite !Qred_correct. ring.
  - change (pquot a (c :: c' :: p'))
      with (peval (c' :: p') a :: pquot a (c' :: p')).
    set (p := c' :: p') in *.
    cbn [peval]. rewrite !Qred_correct, IH. ring.
Qed.

Lemma pquot_zero (a : Q) (p : poly) :
  peval p a == 0 -> Forall (fun c => c == 0) (pquot a p) ->
  Forall (fun c => c == 0) p.
Proof.
  induction p as [|c p IH]; intros Ha Hq; [constructor|].
  destruct p as [|c' p'].
  - cbn [peval] in Ha. rewrite !Qred_correct in Ha.
    constructor; [lra|constructor].
  - change (pquot a (c :: c' :: p'))
      with (peval (c' :: p') a :: pquot a (c' :: p')) in Hq.
    remember (c' :: p') as p eqn:Ep. clear Ep.
    inversion Hq as [|? ? Hr Hq']; subst.
    cbn [peval] in Ha. rewrite Qred_correct, Hr in Ha.
    constructor; [lra|].
    apply IH; assumption.
Qed.

(** A polynomial with as many distinct roots as coefficients is zero. *)
Lemma roots_bound (roots : list Q) :
  forall p : poly,
    (length p <= length roots)%nat ->
    StronglySorted Qlt roots ->
    Forall (fun r => peval p r == 0) roots ->
    Forall (fun c => c == 0) p.
Proof.
  induction roots as [|a rs IH]; intros p Hlen Hs Hroots.
  - destruct p; [constructor|cbn in Hlen; lia].
  - inversion Hs as [|? ? Hs' Ha]; subst.
    inversion Hroots as [|? ? Hpa Hrs]; subst.
    apply (pquot_zero a); [exact Hpa|].
    apply IH; [rewrite pquot_length; cbn [length] in Hlen; lia|exact Hs'|].
    rewrite Forall_forall in Ha, Hrs |- *.
    intros r Hr. specialize (Ha _ Hr). specialize (Hrs _ Hr).
    pose proof (pquot_spec a p r) as H.
    rewrite Hrs, Hpa in H.
    assert (Hm : (r - a) * peval (pquot a p) r == 0) by lra.
    apply Qmult_integral in Hm. destruct Hm; [lra|assumption].
Qed.

End Roots.

Section Haar.
Import Linalg.

Lemma sorted_nth (x : list Q) :
  StronglySorted Qlt x ->
  forall a b, (a < b < length x)%nat -> nth a x 0 < nth b x 0.
Proof.
  induction 1 as [|c l Hs IH Hc]; intros a b Hab; [cbn in Hab; lia|].
  destruct b as [|b]; [lia|]. cbn [length] in Hab.
  destruct a as [|a]; cbn [nth].
  - rewrite Forall_forall in Hc. apply Hc, nth_In. lia.
  - apply IH. lia.
Qed.

Lemma alt_sign_square (i : nat) : alt_sign i * alt_sign i == 1.
Proof. unfold alt_sign. destruct (Nat.even i); ring. Qed.

(** The Haar condition: on strictly increasing points, a polynomial
    with [len(x) - 1] coefficients whose values are a multiple [eps] of
    weights of alternating sign is zero, and so is [eps]. *)
Lemma haar_condition (x : list Q) (g : nat -> Q) (q : poly) (eps : Q) :
  StronglySorted Qlt x ->
  (length q + 1)%nat = length x ->
  (forall i, (i < length x)%nat -> 0 < g i) ->
  (forall i, (i < length x)%nat ->
     peval q (nth i x 0) + alt_sign i * g i * eps == 0) ->
  Forall (fun c => c == 0) q /\ eps == 0.
Proof.
  intros Hs Hlen Hg Hq.
  set (xs := fun i => nth i x 0).
  pose proof (sorted_nth x Hs) as Hincr.
  assert (Heps : eps == 0).
  { destruct (Qeq_dec eps 0) as [|Hne]; [assumption|exfalso].
    assert (Hx : forall a b, (a < b <= length q)%nat -> xs a < xs b)
      by (intros a b Hab; apply Hincr; lia).
    assert (Hsign : forall s, 0 < - (s * eps) ->
              forall j, (0 <= j <= 0 + length q)%nat ->
                0 < s * (alt_sign j * peval q (xs j))).
    { intros s Hse j Hj.
      pose proof (Hq j ltac:(lia)) as Hj'. pose proof (Hg j ltac:(lia)) as Hgj.
      assert (Hv : peval q (xs j) == - (alt_sign j * g j * eps))
        by (unfold xs; lra).
      rewrite Hv.
      assert (Hr : s * (alt_sign j * - (alt_sign j * g j * eps))
                   == (alt_sign j * alt_sign j) * (g j * - (s * eps)))
        by ring.
      rewrite Hr, alt_sign_square, Qmult_1_l.
      apply Qmult_lt_0_compat; assumption. }
    pose proof (dd_poly xs (length q) Hx q (length q) O (le_n _) (le_n _)) as Hz.
    assert (Hcontra : forall s, 0 < - (s * eps) -> False).
    { intros s Hse.
      pose proof (dd_alternates xs (length q) Hx _ s (length q) O (le_n _)
                                (Hsign s Hse)) as Hpos.
      rewrite Hz in Hpos. lra. }
    destruct (Q_dec eps 0) as [[Hlt|Hgt]|Heq]; [| |contradiction].
    - apply (Hcontra 1). lra.
    - apply (Hcontra (-1)). lra. }
  split; [|exact Heps].
  apply (roots_bound x); [lia|exact Hs|].
  apply Forall_forall. intros r Hr.
  apply (In_nth _ _ 0) in Hr. destruct Hr as (i & Hi & <-).
  specialize (Hq i Hi). rewrite Heps in Hq. lra.
Qed.

Lemma Forall_zero_app (q : list Q) (eps : Q) :
  Forall (fun c => c == 0) q -> eps == 0 ->
  ~ Exists (fun c => ~ c == 0) (q ++ [eps]).
Proof.
  intros Hq He Hex. apply Exists_exists in Hex.
  destruct Hex as (c & Hin & Hc). apply Hc.
  apply in_app_or in Hin. destruct Hin as [Hin|[<-|[]]]; [|exact He].
  rewrite Forall_forall in Hq. now apply Hq.
Qed.

(** On strictly increasing points the system of the solver, with a last
    column of alternating sign, is regular: the solver returns. *)
Lemma solve_with_regular (g : nat -> Q) (col x y : list Q) :
  x <> [] -> length y = length x -> length col = length x ->
  StronglySorted Qlt x ->
  (forall i, (i < length x)%nat ->
     0 < g i /\ nth i col 0 == alt_sign i * g i) ->
  exists p e, solve_with col x y = Ok (p, e).
Proof.
  intros Hx Hy Hc Hs Hcol. unfold solve_with.
  destruct x as [|x0 xs] eqn:Ex; [congruence|]. rewrite <- Ex in *.
  rewrite Hy, Nat.eqb_refl. cbn [negb].
  destruct (gesv (length x) (system col x y)) as [v|] eqn:Hg;
    [eexists; eexists; reflexivity|exfalso].
  destruct (gesv_singular _ _ (system_square col x y Hc Hy) Hg)
    as (w & Hlw & Hnz & Hker).
  assert (Hn : length x = S (length xs)) by (rewrite Ex; reflexivity).
  assert (Hw : w <> []) by (intros ->; cbn [length] in Hlw; lia).
  pose proof (app_removelast_last 0 Hw) as Hsplit.
  set (q := removelast w) in *. set (eps := last w 0) in *.
  assert (Hlq : length q = length xs).
  { rewrite Hsplit, length_app in Hlw. cbn [length] in Hlw. lia. }
  assert (Hq : forall i, (i < length x)%nat ->
             peval q (nth i x 0) + alt_sign i * g i * eps == 0).
  { intros i Hi. rewrite Forall_forall in Hker.
    assert (Hin : In (nth i (system col x y) (default_row (length x)))
                     (system col x y)).
    { apply nth_In. rewrite system_length; auto. }
    specialize (Hker _ Hin). rewrite system_nth in Hker by auto.
    cbn [fst] in Hker.
    rewrite Hn, set_last_vander, Hsplit in Hker.
    rewrite dot_app in Hker by (rewrite vander_row_length; lia).
    unfold vander_row in Hker. rewrite <- Hlq, dot_vander in Hker.
    cbn [dot] in Hker. destruct (Hcol i Hi) as [_ Hci].
    rewrite peval_psum. unfold psum. rewrite <- Hci. lra. }
  destruct (haar_condition x g q eps Hs ltac:(lia)
                           (fun i Hi => proj1 (Hcol i Hi)) Hq) as [Hq0 He0].
  rewrite Hsplit in Hnz. exact (Forall_zero_app _ _ Hq0 He0 Hnz).
Qed.

Lemma solve2_regular (A Aweight : Q) (x y : list Q) :
  0 < Aweight ->
  x <> [] -> length y = length x -> StronglySorted Qlt x ->
  exists p e, solve2 A Aweight x y = Ok (p, e).
Proof.
  intros Hw Hx Hy Hs. unfold solve2.
  destruct x as [|x0 xs] eqn:Ex; [congruence|]. rewrite <- Ex in *.
  assert (Hw0 : ~ Aweight == 0) by lra.
  destruct (error_column_ok A Aweight x Hw0) as (col & Hcol & Hlc & Hnth).
  rewrite Hcol. cbn [bind].
  apply (solve_with_regular (fun i => weight A Aweight (nth i x 0)));
    try assumption.
  intros i Hi. split; [now apply weight_pos|].
  now rewrite Hnth.
Qed.

(** On strictly increasing points both solvers return: the extended
    Vandermonde system with a last column of alternating sign (times
    positive weights) is regular, so [np.linalg.solve] does not raise. *)
Theorem solve_returns_on_increasing_points (A Aweight : Q) (x y : list Q) :
  x <> [] -> length y = length x -> StronglySorted Qlt x ->
  (exists p e, solve x y = Ok (p, e)) /\
  (0 < Aweight -> exists p e, solve2 A Aweight x y = Ok (p, e)).
Proof.
  intros Hx Hy Hs. split.
  - unfold solve.
    apply (solve_with_regular (fun _ => 1)); try assumption.
    + apply signs_length.
    + intros i Hi. split; [reflexivity|].
      rewrite signs_nth by assumption. ring.
  - intros Hw. now apply solve2_regular.
Qed.

Lemma solve_returns_on_increasing_points_witness :
  (exists p e, solve [0; 1] [0; 1] = Ok (p, e)) /\
  (0 < 10 -> exists p e, solve2 (2#5) 10 [0; 1] [0; 1] = Ok (p, e)).
Proof.
  apply (solve_returns_on_increasing_points (2#5) 10 [0; 1] [0; 1]).
  - discriminate.
  - reflexivity.
  - repeat constructor.
Defined.

Lemma peval_sub (q p : poly) (v : Q) :
  length q = length p ->
  peval (map (fun ab => fst ab - snd ab) (combine q p)) v
  == peval q v - peval p v.
Proof.
  revert p. induction q as [|a q IH]; intros [|b p] H; cbn [length] in H;
    try discriminate; cbn [combine map peval fst snd].
  - ring.
  - rewrite !Qred_correct, IH by congruence. ring.
Qed.

Lemma zero_differences (q p : poly) :
  length q = length p ->
  Forall (fun c => c == 0) (map (fun ab => fst ab - snd ab) (combine q p)) ->
  Forall2 Qeq q p.
Proof.
  revert p. induction q as [|a q IH]; intros [|b p] H; cbn [length] in H;
    try discriminate; cbn [combine map fst snd]; intros Hz.
  - constructor.
  - inversion Hz as [|? ? Hab Hz']; subst.
    constructor; [lra|apply IH; [congruence|exact Hz']].
Qed.

(** On strictly increasing points, what the solver returns is the
    only solution of the extended interpolation problem: any
    polynomial [q] with [len(x) - 1] coefficients and any [eps] with
    [q(x[i]) + (-1)^i eps = y[i]] at every point are the returned
    polynomial and, up to the sign, the returned error.  Two solutions
    differ by a solution of the problem with zero ordinates, and on
    increasing points that one is zero. *)
Theorem solve_unique (x y : list Q) (p q : poly) (e eps : Q) :
  StronglySorted Qlt x ->
  solve x y = Ok (p, e) ->
  (length q + 1)%nat = length x ->
  (forall i, (i < length x)%nat ->
     psum q (nth i x 0) + alt_sign i * eps == nth i y 0) ->
  Forall2 Qeq q p /\ Qabs eps == e.
Proof.
  intros Hsorted Hs Hlq Hq. unfold solve in Hs.
  destruct (solve_with_identity _ _ _ _ _ (signs_length _) Hs)
    as (eps0 & -> & Hlp & _ & Hp).
  assert (Hlen : length q = length p) by lia.
  destruct (haar_condition x (fun _ => 1)
              (map (fun ab => fst ab - snd ab) (combine q p)) (eps - eps0)
              Hsorted) as [Hz He].
  - rewrite length_map, length_combine. lia.
  - intros i Hi. reflexivity.
  - intros i Hi. specialize (Hq i Hi). specialize (Hp i Hi).
    rewrite signs_nth in Hp by assumption.
    rewrite <- peval_psum in Hq, Hp.
    rewrite (peval_sub q p _ Hlen). lra.
  - split; [now apply zero_differences|].
    assert (E : eps == eps0) by lra. now rewrite E.
Qed.

Lemma solve_unique_witness :
  Forall2 Qeq [1#2] [1#2] /\ Qabs (-1#2) == 1#2.
Proof.
  apply (solve_unique [0; 1] [0; 1] [1#2] [1#2] (1#2) (-1#2)).
  - repeat constructor.
  - vm_compute. reflexivity.
  - reflexivity.
  - intros [|[|i]] Hi; [reflexivity|reflexivity|cbn [length] in Hi; lia].
Defined.

End Haar.

(** ** The locator reports the largest sampled error *)

Section Dominates.

Lemma np_sign_zero (q : Q) : q == 0 -> np_sign q = 0%Z.
Proof.
  destruct q as [n d]. unfold Qeq, np_sign. cbn [Qnum Qden]. intros H.
  assert (n = 0%Z) by lia. now subst.
Qed.

Lemma np_sign_same (a b : Q) :
  np_sign a = np_sign b -> (0 <= a -> 0 <= b) /\ (a <= 0 -> b <= 0).
Proof.
  intros H.
  destruct (Q_dec a 0) as [[Ha|Ha]|Ha], (Q_dec b 0) as [[Hb|Hb]|Hb];
    try (split; intros; lra);
    try rewrite (np_sign_neg a Ha) in H; try rewrite (np_sign_pos a Ha) in H;
    try rewrite (np_sign_zero a Ha) in H;
    try rewrite (np_sign_neg b Hb) in H; try rewrite (np_sign_pos b Hb) in H;
    try rewrite (np_sign_zero b Hb) in H; discriminate.
Qed.

Variable y : list Q.
Variable s : Q.
Hypothesis Hs : s == 1 \/ s == -1.
Hypothesis Hlen : length y = samples.

Lemma sign_step (a b : Q) :
  np_sign a = np_sign b ->
  (0 <= s * a -> 0 <= s * b) /\ (s * a <= 0 -> s * b <= 0).
Proof.
  intros H. destruct (np_sign_same a b H) as [H1 H2].
  destruct Hs as [E|E]; rewrite E; split; intros; lra.
Qed.

Lemma interior_sample (i : nat) :
  (1 <= i <= 98)%nat ->
  In i (reported y) \/
  np_sign (nth (i + 1) y 0 - nth i y 0) = np_sign (nth i y 0 - nth (i - 1) y 0).
Proof.
  intros Hi.
  destruct (Z.eq_dec (np_sign (nth (i + 1) y 0 - nth i y 0))
                     (np_sign (nth i y 0 - nth (i - 1) y 0))) as [E|E];
    [now right|left].
  unfold reported. right. apply in_or_app. left.
  apply turning_points_spec. rewrite Hlen. unfold samples.
  split; [lia|]. split; [lia|exact E].
Qed.

Lemma climb_right (m : nat) :
  forall j, (j + m = 98)%nat ->
    s * nth j y 0 <= s * nth (j + 1) y 0 ->
    exists r, In r (reported y) /\ s * nth (j + 1) y 0 <= s * nth r y 0.
Proof.
  induction m as [|m IH]; intros j Hj Hup.
  - exists 99%nat. split.
    + unfold reported. right. apply in_or_app. right. now left.
    + replace (j + 1)%nat with 99%nat by lia. apply Qle_refl.
  - destruct (interior_sample (j + 1) ltac:(lia)) as [Hin|Hsame].
    + exists (j + 1)%nat. split; [exact Hin|apply Qle_refl].
    + replace (j + 1 - 1)%nat with j in Hsame by lia.
      symmetry in Hsame.
      destruct (sign_step _ _ Hsame) as [Hstep _].
      destruct (IH (j + 1)%nat ltac:(lia)) as (r & Hr & Hle).
      * assert (H0 : 0 <= s * (nth (j + 1) y 0 - nth j y 0)) by lra.
        specialize (Hstep H0). lra.
      * exists r. split; [exact Hr|].
        assert (H0 : 0 <= s * (nth (j + 1) y 0 - nth j y 0)) by lra.
        specialize (Hstep H0). lra.
Qed.

Lemma climb_left (j : nat) :
  (j <= 98)%nat ->
  s * nth (j + 1) y 0 <= s * nth j y 0 ->
  exists r, In r (reported y) /\ s * nth j y 0 <= s * nth r y 0.
Proof.
  induction j as [|j IH]; intros Hj Hdown.
  - exists O. split; [now left|apply Qle_refl].
  - destruct (interior_sample (S j) ltac:(lia)) as [Hin|Hsame].
    + exists (S j). split; [exact Hin|apply Qle_refl].
    + replace (S j - 1)%nat with j in Hsame by lia.
      destruct (sign_step _ _ Hsame) as [_ Hstep].
      assert (H0 : s * (nth (S j + 1) y 0 - nth (S j) y 0) <= 0) by lra.
      specialize (Hstep H0).
      replace (j + 1)%nat with (S j) in IH by lia.
      destruct (IH ltac:(lia) ltac:(lra)) as (r & Hr & Hle).
      exists r. split; [exact Hr|lra].
Qed.

Lemma reported_dominates (k : nat) :
  (k < 100)%nat ->
  exists r, In r (reported y) /\ s * nth k y 0 <= s * nth r y 0.
Proof.
  intros Hk.
  destruct (Nat.eq_dec k 99) as [->|Hne].
  - exists 99%nat. split; [|apply Qle_refl].
    unfold reported. right. apply in_or_app. right. now left.
  - destruct (Qlt_le_dec (s * nth k y 0) (s * nth (k + 1) y 0)) as [Hlt|Hge].
    + destruct (climb_right (98 - k) k ltac:(lia) ltac:(lra)) as (r & Hr & Hle).
      exists r. split; [exact Hr|lra].
    + apply climb_left; [lia|exact Hge].
Qed.

End Dominates.

(** The largest absolute value of the samples is found among the
    reported ones. *)
Lemma reported_max_abs (y : list Q) (k : nat) :
  length y = samples -> (k < 100)%nat ->
  exists r, In r (reported y) /\ Qabs (nth k y 0) <= Qabs (nth r y 0).
Proof.
  intros Hlen Hk.
  destruct (Qlt_le_dec (nth k y 0) 0) as [Hneg|Hpos].
  - destruct (reported_dominates y (-1) (or_intror (Qeq_refl _)) Hlen k Hk)
      as (r & Hr & Hle).
    exists r. split; [exact Hr|].
    rewrite (Qabs_neg (nth k y 0)) by lra.
    assert (H : - nth r y 0 <= Qabs (nth r y 0))
      by (rewrite <- Qabs_opp; apply Qle_Qabs).
    lra.
  - destruct (reported_dominates y 1 (or_introl (Qeq_refl _)) Hlen k Hk)
      as (r & Hr & Hle).
    exists r. split; [exact Hr|].
    rewrite (Qabs_pos (nth k y 0)) by lra.
    pose proof (Qle_Qabs (nth r y 0)). lra.
Qed.

Section Maximum.

Lemma find_error_extrema_eq (p : poly) (A B : Q) :
  0 < A -> A < B -> B < 1 ->
  find_error_extrema p A B
  = (take (linspace 0 A samples)
          (reported (map (fun x => 1 - peval p x) (linspace 0 A samples)))
     ++ take (linspace B 1 samples)
             (reported (map (fun x => 0 - peval p x) (linspace B 1 samples))),
     take (map (fun x => 1 - peval p x) (linspace 0 A samples))
          (reported (map (fun x => 1 - peval p x) (linspace 0 A samples)))
     ++ take (map (fun x => 0 - peval p x) (linspace B 1 samples))
             (reported (map (fun x => 0 - peval p x) (linspace B 1 samples)))).
Proof.
  intros HA HAB HB. unfold find_error_extrema, intervals.
  destruct (Qeq_bool B 0) eqn:E.
  { apply Qeq_bool_iff in E. lra. }
  cbn [andb fold_left fst snd app].
  rewrite !interval_extrema_eq. reflexivity.
Qed.

Lemma combine_take (t y : list Q) (ix : list nat) :
  combine (take t ix) (take y ix)
  = map (fun i => (nth i t 0, nth i y 0)) ix.
Proof.
  unfold take. induction ix as [|i ix IH]; cbn [map combine];
    [reflexivity|now rewrite IH].
Qed.

Lemma combine_app {X Y : Type} (a a' : list X) (b b' : list Y) :
  length a = length b ->
  combine (a ++ a') (b ++ b') = combine a b ++ combine a' b'.
Proof.
  revert b. induction a as [|u a IH]; intros [|v b] H; cbn [length] in H;
    try discriminate; cbn [app combine]; [reflexivity|].
  rewrite IH by congruence. reflexivity.
Qed.

(** The samples of one interval [[a, b]]: the largest absolute error is
    the error of a reported sample. *)
Lemma interval_dominated (f : Q -> Q) (t : list Q) (v : Q) :
  length t = samples -> In v t ->
  exists r,
    In (nth r t 0, nth r (map f t) 0)
       (combine (take t (reported (map f t)))
                (take (map f t) (reported (map f t)))) /\
    (r < 100)%nat /\
    Qabs (f v) <= Qabs (nth r (map f t) 0).
Proof.
  intros Hlen Hv.
  apply (In_nth _ _ 0) in Hv. destruct Hv as (k & Hk & <-).
  assert (Hly : length (map f t) = samples) by (now rewrite length_map).
  rewrite Hlen in Hk.
  destruct (reported_max_abs (map f t) k Hly Hk) as (r & Hr & Hle).
  exists r. split; [|split].
  - rewrite combine_take. apply in_map_iff. exists r. now split.
  - destruct (reported_sorted (map f t) Hly) as [_ Hb].
    rewrite Forall_forall in Hb. exact (Hb _ Hr).
  - rewrite (nth_map_in f t k 0 0) in Hle by (rewrite Hlen; exact Hk).
    exact Hle.
Qed.

Lemma linspace_bounds (a b : Q) (v : Q) :
  a < b -> In v (linspace a b samples) -> a <= v /\ v <= b.
Proof.
  intros Hab Hv.
  destruct (linspace_facts a b Hab) as (Hl & Hinc & Hf & He).
  apply (In_nth _ _ 0) in Hv. destruct Hv as (k & Hk & <-).
  rewrite Hl in Hk. unfold samples in Hk.
  assert (H0 : nth 0 (linspace a b samples) 0 <= nth k (linspace a b samples) 0).
  { destruct (Nat.eq_dec k 0) as [->|Hne]; [apply Qle_refl|].
    apply Qlt_le_weak, Hinc. rewrite Hl. unfold samples. lia. }
  assert (H9 : nth k (linspace a b samples) 0 <= nth 99 (linspace a b samples) 0).
  { destruct (Nat.eq_dec k 99) as [->|Hne]; [apply Qle_refl|].
    apply Qlt_le_weak, Hinc. rewrite Hl. unfold samples. lia. }
  rewrite He in H9. lra.
Qed.

Lemma below_edge (A v : Q) : v <= A -> Qle_bool v A = true.
Proof. intros H. now apply Qle_bool_iff. Qed.

Lemma above_edge (A v : Q) : A < v -> Qle_bool v A = false.
Proof.
  intros H. destruct (Qle_bool v A) eqn:E; [|reflexivity].
  apply Qle_bool_iff in E. lra.
Qed.

(** Every sample of the two grids is dominated by a reported extremum
    of its own region. *)
Lemma extrema_dominate (p : poly) (A B v : Q) :
  0 < A -> A < B -> B < 1 -> on_grid A B v ->
  exists l er,
    In (l, er) (combine (fst (find_error_extrema p A B))
                        (snd (find_error_extrema p A B))) /\
    on_grid A B l /\
    Qle_bool l A = Qle_bool v A /\
    Qabs ((if Qle_bool v A then 1 else 0) - peval p v) <= Qabs er.
Proof.
  intros HA HAB HB Hv.
  rewrite find_error_extrema_eq by assumption. cbn [fst snd].
  rewrite combine_app by (now rewrite !take_length).
  destruct Hv as [Hv|Hv].
  - destruct (interval_dominated (fun x => 1 - peval p x) _ v
                (linspace_length 0 A samples) Hv) as (r & Hin & Hr & Hle).
    assert (Hlr : In (nth r (linspace 0 A samples) 0) (linspace 0 A samples))
      by (apply nth_In; rewrite linspace_length; exact Hr).
    eexists _, _. split; [apply in_or_app; left; exact Hin|].
    split; [left; exact Hlr|].
    destruct (linspace_bounds 0 A _ HA Hv) as [_ Hv'].
    destruct (linspace_bounds 0 A _ HA Hlr) as [_ Hl'].
    rewrite !below_edge by assumption. split; [reflexivity|exact Hle].
  - destruct (interval_dominated (fun x => 0 - peval p x) _ v
                (linspace_length B 1 samples) Hv) as (r & Hin & Hr & Hle).
    assert (Hlr : In (nth r (linspace B 1 samples) 0) (linspace B 1 samples))
      by (apply nth_In; rewrite linspace_length; exact Hr).
    eexists _, _. split; [apply in_or_app; right; exact Hin|].
    split; [right; exact Hlr|].
    destruct (linspace_bounds B 1 _ HB Hv) as [Hv' _].
    destruct (linspace_bounds B 1 _ HB Hlr) as [Hl' _].
    rewrite !above_edge by lra. split; [reflexivity|exact Hle].
Qed.

Lemma locations_on_grid (p : poly) (A B : Q) :
  0 < A -> A < B -> B < 1 ->
  Forall (on_grid A B) (fst (find_error_extrema p A B)).
Proof.
  intros HA HAB HB.
  rewrite find_error_extrema_eq by assumption. cbn [fst].
  apply Forall_app. split; unfold take; rewrite Forall_map.
  - destruct (reported_sorted (map (fun x => 1 - peval p x)
                                   (linspace 0 A samples))) as [_ Hb];
      [now rewrite length_map, linspace_length|].
    eapply Forall_impl; [|exact Hb]. intros i Hi. left.
    apply nth_In. now rewrite linspace_length.
  - destruct (reported_sorted (map (fun x => 0 - peval p x)
                                   (linspace B 1 samples))) as [_ Hb];
      [now rewrite length_map, linspace_length|].
    eapply Forall_impl; [|exact Hb]. intros i Hi. right.
    apply nth_In. now rewrite linspace_length.
Qed.

(** The locator does what it is for: for every sample [v] the locator
    evaluates, one of the reported extrema lies in the same region and
    has an error at least as large in absolute value as the error
    [D(v) - p(v)] at [v]. *)
Theorem find_error_extrema_reports_maximum (p : poly) (A B v : Q) :
  0 < A -> A < B -> B < 1 -> on_grid A B v ->
  exists l er,
    In (l, er) (combine (fst (find_error_extrema p A B))
                        (snd (find_error_extrema p A B))) /\
    (l <= A <-> v <= A) /\
    Qabs (desired A v - peval p v) <= Qabs er.
Proof.
  intros HA HAB HB Hv.
  destruct (extrema_dominate p A B v HA HAB HB Hv)
    as (l & er & Hin & _ & Hside & Hle).
  exists l, er. split; [exact Hin|]. split; [|unfold desired; exact Hle].
  rewrite <- !Qle_bool_iff, Hside. reflexivity.
Qed.

Lemma find_error_extrema_reports_maximum_witness :
  exists l er,
    In (l, er) (combine (fst (find_error_extrema [1; -1] (2#5) (3#5)))
                        (snd (find_error_extrema [1; -1] (2#5) (3#5)))) /\
    (l <= 2#5 <-> 2#5 <= 2#5) /\
    Qabs (desired (2#5) (2#5) - peval [1; -1] (2#5)) <= Qabs er.
Proof.
  apply (find_error_extrema_reports_maximum [1; -1] (2#5) (3#5) (2#5)).
  - reflexivity.
  - reflexivity.
  - reflexivity.
  - left. unfold linspace, samples. apply in_or_app. right. left. reflexivity.
Defined.

End Maximum.

(** ** Which rounds of a fit can fail *)

Section Outcome.

Lemma consider_keeps (e : Q) (alt : list Cand.t) (c : Cand.t) :
  alt <> [] -> consider e alt c <> [].
Proof.
  intros Hne. unfold consider.
  destruct (Qle_bool (e - tol) (Cand.err_mag c)); [|exact Hne].
  destruct (last_opt alt) as [l|]; [|now destruct alt].
  destruct (negb (Cand.sign l =? Cand.sign c)%Z); [now destruct alt|].
  destruct (Qlt_bool (Cand.err_mag l) (Cand.err_mag c)); [|exact Hne].
  now destruct (removelast alt).
Qed.

Lemma consider_takes (e : Q) (alt : list Cand.t) (c : Cand.t) :
  e - tol <= Cand.err_mag c -> consider e alt c <> [].
Proof.
  intros Hc. destruct alt as [|a alt].
  - unfold consider. apply Qle_bool_iff in Hc. rewrite Hc.
    cbn [last_opt app]. discriminate.
  - apply consider_keeps. discriminate.
Qed.

Lemma walk_nonempty (e : Q) (cs : list Cand.t) :
  forall alt,
    alt <> [] \/ Exists (fun c => e - tol <= Cand.err_mag c) cs ->
    fold_left (consider e) cs alt <> [].
Proof.
  induction cs as [|c cs IH]; intros alt H; cbn [fold_left].
  - destruct H as [H|H]; [exact H|inversion H].
  - apply IH. destruct H as [H|H].
    + left. now apply consider_keeps.
    + inversion H as [? ? Hc|? ? Hcs]; subst.
      * left. now apply consider_takes.
      * now right.
Qed.

Lemma trim_nonempty (order : Z) (alt alt' : list Cand.t) :
  (3 <= order)%Z -> alt <> [] -> trim order alt = Ok alt' -> alt' <> [].
Proof.
  intros Hord Hne Ht. unfold trim in Ht.
  destruct (trim_fuel_spec order (length alt) alt (Nat.le_refl _)
                           ltac:(lia)) as (a & l & r & Ha & _ & Hlen).
  rewrite Ha in Ht. injection Ht as <-.
  intros ->. cbn [length] in Hlen.
  destruct alt; [congruence|cbn [length] in Hlen; lia].
Qed.

Lemma targets_nth (A : Q) (x : list Q) (i : nat) :
  (i < length x)%nat ->
  nth i (targets A x) 0 = if Qle_bool (nth i x 0) A then 1 else 0.
Proof.
  intros Hi. unfold targets.
  now rewrite nth_map_in with (d' := 0).
Qed.

(** A round of the weighted driver on well-formed points: the solver
    and the Selecting step return; when the points were samples of the
    grids, at least one candidate is selected. *)
Lemma remez2_round (A B Aweight : Q) (order : Z) (s : state) :
  0 < A -> A < B -> B < 1 -> 0 < Aweight -> (3 <= order)%Z ->
  state_ok A s -> st_x s <> [] ->
  exists s',
    remez2_body A B Aweight order s = Ok s' /\
    state_ok A s' /\ Forall (on_grid A B) (st_x s') /\ st_p s' <> None /\
    (Forall (on_grid A B) (st_x s) -> st_x s' <> []).
Proof.
  intros HA HAB HB Hw Hord [Hsorted Hy] Hne.
  assert (Hw0 : ~ Aweight == 0) by lra.
  assert (Hly : length (st_y s) = length (st_x s))
    by (rewrite Hy; apply targets_length).
  destruct (solve2_regular A Aweight _ _ Hw Hne Hly Hsorted)
    as (p & e & Hsolve).
  set (loc := fst (find_error_extrema p A B)).
  set (er := snd (find_error_extrema p A B)).
  set (cs := map (fun le => Cand.mk (fst le) (np_sign (snd le))
                                    (Qabs (snd le)
                                     / weight A Aweight (fst le)))
                 (combine loc er)).
  destruct (trim_returns order (fold_left (consider e) cs []) ltac:(lia))
    as [alt Ht].
  assert (Hsel : select (weighted_mag A Aweight) e order loc er = Ok alt).
  { unfold select. rewrite candidates_weighted by assumption. exact Ht. }
  assert (Hbody : remez2_body A B Aweight order s
                  = Ok (mkstate (map Cand.loc alt)
                          (targets A (map Cand.loc alt)) (Some p)
                          (mkdata (Some (st_x s)) (Some (st_y s)) None
                                  (Some (e / Aweight)) (Some e)
                                  (Some (map Cand.loc alt))))).
  { unfold remez2_body. rewrite Hsolve. cbn [bind].
    fold loc er. rewrite Hsel. reflexivity. }
  eexists. split; [exact Hbody|].
  destruct (remez2_body_ok A B Aweight order _ _ HA HAB HB Hbody)
    as (Hok & _).
  split; [exact Hok|]. cbn [st_x st_p].
  split.
  { destruct (select_invariants_aux _ _ _ _ _ _ Hsel) as [Hsub _].
    eapply subseq_Forall; [exact Hsub|].
    now apply locations_on_grid. }
  split; [discriminate|].
  intros Hgrid.
  assert (H0 : (0 < length (st_x s))%nat)
    by (destruct (st_x s); [congruence|cbn [length]; lia]).
  assert (Hv : on_grid A B (nth 0 (st_x s) 0)).
  { rewrite Forall_forall in Hgrid. apply Hgrid, nth_In, H0. }
  destruct (extrema_dominate p A B _ HA HAB HB Hv)
    as (l & r & Hin & _ & Hside & Hle).
  pose proof (solve2_residual A Aweight _ _ p e Hw Hsolve O H0) as Hres.
  rewrite Hy, targets_nth, <- peval_psum in Hres by exact H0.
  rewrite Hres in Hle.
  assert (Hwl : weight A Aweight l = weight A Aweight (nth 0 (st_x s) 0))
    by (unfold weight; now rewrite Hside).
  pose proof (weight_pos A Aweight (nth 0 (st_x s) 0) Hw) as Hwp.
  assert (Hex : Exists (fun c => e - tol <= Cand.err_mag c) cs).
  { apply Exists_exists.
    exists (Cand.mk l (np_sign r) (Qabs r / weight A Aweight l)).
    split; [unfold cs; apply in_map_iff; exists (l, r); now split|].
    cbn [Cand.err_mag]. rewrite Hwl.
    apply Qle_trans with e; [unfold tol; lra|].
    apply Qle_shift_div_l; assumption. }
  pose proof (walk_nonempty e cs [] (or_intror Hex)) as Hwalk.
  pose proof (trim_nonempty order _ _ Hord Hwalk Ht) as Halt.
  destruct alt; [congruence|discriminate].
Qed.

Lemma rounds_return (A B Aweight : Q) (order : Z) :
  0 < A -> A < B -> B < 1 -> 0 < Aweight -> (3 <= order)%Z ->
  forall n s,
    selecting A B s ->
    exists s',
      loop n (remez2_body A B Aweight order) s = Ok s' /\ selecting A B s'.
Proof.
  intros HA HAB HB Hw Hord.
  induction n as [|n IH]; intros s Hs.
  - exists s. now split.
  - destruct Hs as (Hok & Hne & Hgrid & _).
    destruct (remez2_round A B Aweight order s HA HAB HB Hw Hord Hok Hne)
      as (s1 & Hb & Hok1 & Hg1 & Hp1 & Hne1).
    destruct (IH s1) as (s' & Hl & Hs').
    { repeat split; auto; apply Hok1. }
    exists s'. split; [|exact Hs'].
    cbn [loop]. rewrite Hb. exact Hl.
Qed.

Lemma fit2_outcome (A B Aweight : Q) (order iterations : Z) :
  0 < A -> A < B -> B < 1 -> 0 < Aweight -> (3 <= order)%Z ->
  (1 <= iterations)%Z ->
  rounds_outcome (remez_fit2 A B Aweight order) iterations.
Proof.
  intros HA HAB HB Hw Hord Hit.
  destruct (initial_points_facts A B order HA HAB HB Hord)
    as (x & y & Hinit & Hsorted & Hy & _ & Hlen).
  assert (Hne : x <> []) by (intros ->; cbn [length] in Hlen; lia).
  destruct (remez2_round A B Aweight order (mkstate x y None no_data)
              HA HAB HB Hw Hord (conj Hsorted Hy) Hne)
    as (s1 & Hb & Hok1 & Hg1 & Hp1 & _).
  destruct (remez2_body_result _ _ _ _ _ _ Hb) as (p & e & _ & Hp & Hd).
  assert (Hfit : forall n,
             remez_fit2 A B Aweight order (Z.of_nat (S n))
             = (s <- loop n (remez2_body A B Aweight order) s1 ;; finish s)).
  { intros n. unfold remez_fit2. rewrite Hinit. cbn [bind].
    rewrite Nat2Z.id. cbn [loop]. rewrite Hb. reflexivity. }
  exists p, (st_data s1), (st_x s1).
  split.
  { pose proof (Hfit O) as H1. change (Z.of_nat 1) with 1%Z in H1.
    rewrite H1. cbn [loop bind]. unfold finish. now rewrite Hp. }
  split; [now rewrite Hd|].
  replace iterations with (Z.of_nat (S (Z.to_nat (iterations - 1)))) by lia.
  rewrite Hfit. split.
  - intros Hnx.
    destruct (rounds_return A B Aweight order HA HAB HB Hw Hord
                            (Z.to_nat (iterations - 1)) s1)
      as (s' & Hl & _ & _ & _ & Hp').
    { repeat split; auto; apply Hok1. }
    rewrite Hl. cbn [bind]. unfold finish.
    destruct (st_p s') as [q|]; [|congruence].
    eexists. reflexivity.
  - intros Hnx H2.
    destruct (Z.to_nat (iterations - 1)) as [|m] eqn:Em; [lia|].
    cbn [loop]. unfold remez2_body at 1. rewrite Hnx. reflexivity.
Qed.

Lemma fit_unit (A B : Q) (order iterations : Z) :
  (3 <= order)%Z ->
  agree (fun r2 r1 => new_x (snd r2) = new_x (snd r1))
        (remez_fit2 A B 1 order iterations)
        (remez_fit A B order iterations).
Proof.
  intros Hord. unfold remez_fit2, remez_fit.
  destruct (Z.ltb_spec order 3); [lia|].
  destruct (initial_points A B order) as [[x y]|ex]; cbn [bind agree];
    [|reflexivity].
  destruct (Z.to_nat iterations) as [|n] eqn:En; [reflexivity|].
  pose proof (loop_unit A B order (S n)
                (mkstate x y None no_data) (mkstate x y None no_data))
    as Hl.
  assert (Hinit : same_state (mkstate x y None no_data)
                             (mkstate x y None no_data))
    by (repeat split).
  specialize (Hl Hinit). unfold agree in Hl.
  destruct (loop (S n) (remez2_body A B 1 order) _) as [t2|e2];
    destruct (loop (S n) (remez_body A B order) _) as [t1|e1];
    cbn [bind]; try contradiction; [|exact Hl].
  destruct Hl as [(Hx & Hy & Hp) Hd].
  unfold finish. rewrite Hp.
  destruct (st_p t1) as [p|]; [|reflexivity].
  cbn [snd]. apply Hd. discriminate.
Qed.

Lemma fit_outcome (A B : Q) (order iterations : Z) :
  0 < A -> A < B -> B < 1 -> (3 <= order)%Z -> (1 <= iterations)%Z ->
  rounds_outcome (remez_fit A B order) iterations.
Proof.
  intros HA HAB HB Hord Hit.
  destruct (fit2_outcome A B 1 order iterations HA HAB HB eq_refl Hord Hit)
    as (p & d & nx & H1 & Hnx & Hok & Hraise).
  pose proof (fit_unit A B order 1 Hord) as Hu1.
  pose proof (fit_unit A B order iterations Hord) as Hu.
  unfold agree in Hu1, Hu. rewrite H1 in Hu1.
  destruct (remez_fit A B order 1) as [[p' d']|] eqn:E1; [|contradiction].
  cbn [snd] in Hu1.
  exists p', d', nx. split; [exact E1|].
  split; [congruence|]. split.
  - intros Hne. destruct (Hok Hne) as [r Hr]. rewrite Hr in Hu.
    destruct (remez_fit A B order iterations) as [r'|]; [|contradiction].
    now exists r'.
  - intros He H2. rewrite (Hraise He H2) in Hu.
    destruct (remez_fit A B order iterations) as [r'|ex]; [contradiction|].
    now subst.
Qed.

(** On a valid specification the first round of either fit always
    returns, and the rest is told by the points it selected: if there
    is at least one, every later round returns too (no singular
    system, no empty selection); if there is none, the second round
    raises [IndexError]. *)
Theorem fit_rounds_outcome (A B Aweight : Q) (order iterations : Z) :
  0 < A -> A < B -> B < 1 -> 0 < Aweight -> (3 <= order)%Z ->
  (1 <= iterations)%Z ->
  rounds_outcome (remez_fit A B order) iterations /\
  rounds_outcome (remez_fit2 A B Aweight order) iterations.
Proof.
  intros HA HAB HB Hw Hord Hit. split.
  - now apply fit_outcome.
  - now apply fit2_outcome.
Qed.

Lemma fit_rounds_outcome_witness :
  rounds_outcome (remez_fit (2#5) (3#5) 3) 2 /\
  rounds_outcome (remez_fit2 (2#5) (3#5) 10 3) 2.
Proof.
  apply (fit_rounds_outcome (2#5) (3#5) 10 3 2).
  - reflexivity.
  - reflexivity.
  - reflexivity.
  - reflexivity.
  - lia.
  - lia.
Defined.

End Outcome.

(** ** The solver returns a best approximation on its points *)

Section Minimax.

Lemma peval_opp (q : poly) (x : Q) : peval (map Qopp q) x == - peval q x.
Proof.
  induction q as [|c q IH]; cbn [map peval]; [reflexivity|].
  rewrite !Qred_correct, IH. ring.
Qed.

Lemma bounded_search (P Q : nat -> Prop) :
  (forall i, {P i} + {Q i}) ->
  forall n, (exists i, (i < n)%nat /\ P i) \/ (forall i, (i < n)%nat -> Q i).
Proof.
  intros Hdec. induction n as [|n [(i & Hi & HP)|IH]].
  - right. intros i Hi. lia.
  - left. exists i. split; [lia|exact HP].
  - destruct (Hdec n) as [HP|HQ].
    + left. exists n. split; [lia|exact HP].
    + right. intros i Hi. destruct (Nat.eq_dec i n) as [->|Hne];
        [exact HQ|apply IH; lia].
Qed.

(** Two polynomials with [len(x) - 1] coefficients cannot differ by
    values of strictly alternating sign at the increasing points [x]. *)
Lemma no_alternation (x : list Q) (p q : poly) (s : Q) :
  StronglySorted Qlt x ->
  (length p < length x)%nat -> (length q < length x)%nat ->
  (forall i, (i < length x)%nat ->
     0 < s * (alt_sign i * (peval p (nth i x 0) - peval q (nth i x 0)))) ->
  False.
Proof.
  intros Hs Hp Hq Hsign.
  set (xs := fun i => nth i x 0).
  set (n := (length x - 1)%nat).
  pose proof (sorted_nth x Hs) as Hincr.
  assert (Hx : forall a b, (a < b <= n)%nat -> xs a < xs b)
    by (intros a b Hab; apply Hincr; unfold n in Hab; lia).
  set (f := fun j => peval p (xs j) + peval (map Qopp q) (xs j)).
  assert (Hz : dd xs f n O == 0).
  { unfold f.
    rewrite (dd_add xs (fun j => peval p (xs j))
                    (fun j => peval (map Qopp q) (xs j))).
    rewrite (dd_poly xs n Hx p n O) by (unfold n; lia).
    rewrite (dd_poly xs n Hx (map Qopp q) n O)
      by (rewrite ?length_map; unfold n; lia).
    ring. }
  pose proof (dd_alternates xs n Hx f s n O (le_n _)) as Hpos.
  rewrite Hz in Hpos.
  assert (H : 0 < s * (alt_sign (0 + n) * 0)); [apply Hpos|lra].
  intros j Hj. unfold f. rewrite peval_opp.
  specialize (Hsign j ltac:(unfold n in Hj; lia)). unfold xs.
  assert (E : peval p (nth j x 0) + - peval q (nth j x 0)
              == peval p (nth j x 0) - peval q (nth j x 0)) by ring.
  now rewrite E.
Qed.

Lemma alt_sign_cases (i : nat) : alt_sign i = 1 \/ alt_sign i = -1.
Proof. unfold alt_sign. destruct (Nat.even i); auto. Qed.

(** The polynomial of the solver is a best approximation on its points
    (de la Vallee-Poussin): every polynomial with as many coefficients
    has, at one of the points at least, a weighted error of [e] or
    more. *)
Lemma solve_with_minimax (g : nat -> Q) (col x y : list Q)
      (p q : poly) (e : Q) :
  StronglySorted Qlt x -> length col = length x ->
  (forall i, (i < length x)%nat ->
     0 < g i /\ nth i col 0 == alt_sign i * g i) ->
  solve_with col x y = Ok (p, e) ->
  (length q < length x)%nat ->
  exists i, (i < length x)%nat /\
            e * g i <= Qabs (nth i y 0 - peval q (nth i x 0)).
Proof.
  intros Hs Hc Hcol Hsolve Hq.
  destruct (solve_with_identity _ _ _ _ _ Hc Hsolve)
    as (eps & -> & Hlp & _ & Hid).
  assert (Hdec : forall i,
             {Qabs eps * g i <= Qabs (nth i y 0 - peval q (nth i x 0))}
             + {Qabs (nth i y 0 - peval q (nth i x 0)) < Qabs eps * g i}).
  { intros i.
    destruct (Qlt_le_dec (Qabs (nth i y 0 - peval q (nth i x 0)))
                         (Qabs eps * g i)); [now right|now left]. }
  destruct (bounded_search _ _ Hdec (length x)) as [Hex|Hall];
    [exact Hex|exfalso].
  assert (Hx0 : (0 < length x)%nat) by lia.
  assert (Hne : ~ eps == 0).
  { intros E. specialize (Hall O Hx0). rewrite E in Hall.
    change (Qabs 0) with 0 in Hall.
    pose proof (Qabs_nonneg (nth 0 y 0 - peval q (nth 0 x 0))). lra. }
  assert (Hmain : forall s, s * eps == - Qabs eps -> (s == 1 \/ s == -1) ->
             forall i, (i < length x)%nat ->
               0 < s * (alt_sign i
                        * (peval p (nth i x 0) - peval q (nth i x 0)))).
  { intros s Hse Hs1 i Hi.
    specialize (Hall i Hi). specialize (Hid i Hi).
    destruct (Hcol i Hi) as [Hg Hci].
    rewrite <- peval_psum, Hci in Hid.
    apply Qabs_Qlt_condition in Hall.
    set (r := nth i y 0 - peval q (nth i x 0)) in *.
    assert (Hd : peval p (nth i x 0) - peval q (nth i x 0)
                 == r - alt_sign i * g i * eps) by (unfold r; lra).
    rewrite Hd.
    assert (Hr : s * (alt_sign i * (r - alt_sign i * g i * eps))
                 == s * alt_sign i * r
                    - (alt_sign i * alt_sign i) * g i * (s * eps)) by ring.
    rewrite Hr, alt_sign_square, Hse.
    assert (Hb : - (Qabs eps * g i) < s * alt_sign i * r).
    { destruct Hs1 as [E|E], (alt_sign_cases i) as [Ea|Ea];
        rewrite E, Ea; lra. }
    lra. }
  destruct (Q_dec eps 0) as [[Hlt|Hgt]|Heq]; [| |contradiction].
  - apply (no_alternation x p q 1 Hs); [lia|exact Hq|].
    apply Hmain; [|now left]. rewrite Qabs_neg by lra. ring.
  - apply (no_alternation x p q (-1) Hs); [lia|exact Hq|].
    apply Hmain; [|now right]. rewrite Qabs_pos by lra. ring.
Qed.

(** A lower bound for the levelled error (de la Vallee-Poussin): if
    the errors of some polynomial [q] alternate in sign along the
    points, with weighted magnitudes of [m] at least, the solver
    returns an error of [m] at least. *)
Lemma solve_with_lower_bound (g : nat -> Q) (col x y : list Q)
      (p q : poly) (e m s : Q) :
  StronglySorted Qlt x -> length col = length x ->
  (forall i, (i < length x)%nat ->
     0 < g i /\ nth i col 0 == alt_sign i * g i) ->
  solve_with col x y = Ok (p, e) ->
  (length q < length x)%nat ->
  s == 1 \/ s == -1 ->
  (forall i, (i < length x)%nat ->
     m * g i <= s * (alt_sign i * (nth i y 0 - peval q (nth i x 0)))) ->
  m <= e.
Proof.
  intros Hs Hc Hcol Hsolve Hq Hs1 Halt.
  destruct (solve_with_identity _ _ _ _ _ Hc Hsolve)
    as (eps & -> & Hlp & _ & Hid).
  destruct (Qlt_le_dec (Qabs eps) m) as [Hlt|Hle]; [exfalso|exact Hle].
  apply (no_alternation x p q s Hs); [lia|exact Hq|].
  intros i Hi.
  specialize (Halt i Hi). specialize (Hid i Hi).
  destruct (Hcol i Hi) as [Hg Hci].
  rewrite <- peval_psum, Hci in Hid.
  set (r := nth i y 0 - peval q (nth i x 0)) in *.
  assert (Hd : peval p (nth i x 0) - peval q (nth i x 0)
               == r - alt_sign i * g i * eps) by (unfold r; lra).
  rewrite Hd.
  assert (Hr : s * (alt_sign i * (r - alt_sign i * g i * eps))
               == s * (alt_sign i * r)
                  - (alt_sign i * alt_sign i) * (g i * (s * eps))) by ring.
  rewrite Hr, alt_sign_square.
  assert (Hse : s * eps <= Qabs eps).
  { pose proof (Qle_Qabs eps). pose proof (Qle_Qabs (- eps)) as Hn.
    rewrite Qabs_opp in Hn.
    destruct Hs1 as [E|E]; rewrite E; lra. }
  assert (Hprod : g i * (s * eps) <= g i * Qabs eps)
    by (apply Qmult_le_l; assumption).
  assert (Hm : g i * Qabs eps < m * g i).
  { rewrite (Qmult_comm m). apply Qmult_lt_l; assumption. }
  lra.
Qed.

(** The polynomial the solver returns is a best approximation on the
    points it was given, in the (weighted) maximum norm: its own
    weighted error is [e] at every point (C1), and every polynomial
    [q] with as many coefficients has a weighted error of [e] or more
    at one of the points at least. *)
Theorem solve_minimax_on_points
        (W : Q -> Q) (x y : list Q) (p q : poly) (e : Q) :
  StronglySorted Qlt x ->
  (W = (fun _ => 1) /\ solve x y = Ok (p, e)) \/
  (exists A Aweight,
      0 < Aweight /\ W = weight A Aweight /\
      solve2 A Aweight x y = Ok (p, e)) ->
  (length q < length x)%nat ->
  exists i, (i < length x)%nat /\
            e * W (nth i x 0) <= Qabs (nth i y 0 - peval q (nth i x 0)).
Proof.
  intros Hs [[-> Hsolve]|(A & Aweight & Hw & -> & Hsolve)] Hq.
  - unfold solve in Hsolve.
    apply (solve_with_minimax (fun _ => 1) _ x y p q e Hs
                              (signs_length _)); try assumption.
    intros i Hi. split; [reflexivity|].
    rewrite signs_nth by assumption. ring.
  - assert (Hw0 : ~ Aweight == 0) by lra.
    unfold solve2 in Hsolve.
    destruct x as [|x0 xs] eqn:Ex; [discriminate|]. rewrite <- Ex in *.
    destruct (error_column_ok A Aweight x Hw0) as (col & Hcol & Hlc & Hnth).
    rewrite Hcol in Hsolve. cbn [bind] in Hsolve.
    apply (solve_with_minimax (fun i => weight A Aweight (nth i x 0))
                              col x y p q e Hs Hlc); try assumption.
    intros i Hi. split; [now apply weight_pos|]. now rewrite Hnth.
Qed.

Lemma solve_minimax_on_points_witness :
  exists i, (i < 2)%nat /\
            (1#2) * 1 <= Qabs (nth i [0; 1] 0 - peval [0] (nth i [0; 1] 0)).
Proof.
  apply (solve_minimax_on_points (fun _ => 1) [0; 1] [0; 1] [1#2] [0] (1#2)).
  - repeat constructor.
  - left. split; [reflexivity|vm_compute; reflexivity].
  - cbn [length]. lia.
Defined.

End Minimax.

(** ** The levelled error from one round to the next *)

Section ErrorKept.

Lemma np_sign_Qeq (a b : Q) : a == b -> np_sign a = np_sign b.
Proof.
  intros H.
  destruct (Q_dec a 0) as [[Ha|Ha]|Ha].
  - rewrite (np_sign_neg a), (np_sign_neg b); [reflexivity|lra|lra].
  - rewrite (np_sign_pos a), (np_sign_pos b); [reflexivity|lra|lra].
  - rewrite (np_sign_zero a), (np_sign_zero b); [reflexivity|lra|lra].
Qed.

Lemma np_sign_differ (a b : Q) :
  ~ a == 0 -> ~ b == 0 -> np_sign a <> np_sign b ->
  (0 < a /\ b < 0) \/ (a < 0 /\ 0 < b).
Proof.
  intros Ha Hb Hne.
  destruct (Q_dec a 0) as [[Ha'|Ha']|Ha'], (Q_dec b 0) as [[Hb'|Hb']|Hb'];
    try contradiction; auto; exfalso; apply Hne.
  - now rewrite (np_sign_neg a), (np_sign_neg b).
  - now rewrite (np_sign_pos a), (np_sign_pos b).
Qed.

(** Candidates of alternating sign, numbered from 0. *)
Lemma alternation_by_index (h : Cand.t -> Q) (d : Cand.t) (alt : list Cand.t) :
  Forall (fun c => Cand.sign c = np_sign (h c) /\ ~ h c == 0) alt ->
  alternating alt ->
  exists s,
    (s == 1 \/ s == -1) /\
    forall j, (j < length alt)%nat -> 0 < s * (alt_sign j * h (nth j alt d)).
Proof.
  induction alt as [|a alt IH]; intros Hall Halt.
  - exists 1. split; [now left|]. intros j Hj. cbn [length] in Hj. lia.
  - inversion Hall as [|? ? [Hsa Ha] Hall']; subst.
    destruct alt as [|b tl].
    + destruct (Q_dec (h a) 0) as [[Hn|Hp]|Hz]; [| |contradiction].
      * exists (-1). split; [now right|].
        intros [|j] Hj; [|cbn [length] in Hj; lia].
        cbn [nth]. unfold alt_sign. cbn [Nat.even]. lra.
      * exists 1. split; [now left|].
        intros [|j] Hj; [|cbn [length] in Hj; lia].
        cbn [nth]. unfold alt_sign. cbn [Nat.even]. lra.
    + destruct Halt as [Hab Halt'].
      destruct (IH Hall' Halt') as (s' & Hs' & Hidx).
      inversion Hall' as [|? ? [Hsb Hb] _]; subst.
      rewrite Hsa, Hsb in Hab.
      pose proof (Hidx O ltac:(cbn [length]; lia)) as H0.
      cbn [nth] in H0. unfold alt_sign in H0. cbn [Nat.even] in H0.
      exists (- s'). split.
      { destruct Hs' as [E|E]; rewrite E; [right|left]; reflexivity. }
      intros [|j] Hj.
      * cbn [nth]. unfold alt_sign. cbn [Nat.even].
        destruct (np_sign_differ _ _ Ha Hb Hab) as [[H1 H2]|[H1 H2]];
          destruct Hs' as [E|E]; rewrite E in H0 |- *; lra.
      * cbn [nth]. specialize (Hidx j ltac:(cbn [length] in Hj |- *; lia)).
        assert (E : alt_sign (S j) == - alt_sign j).
        { unfold alt_sign. rewrite Nat.even_succ, <- Nat.negb_even.
          destruct (Nat.even j); reflexivity. }
        rewrite E.
        assert (E2 : - s' * (- alt_sign j * h (nth j (b :: tl) d))
                     == s' * (alt_sign j * h (nth j (b :: tl) d))) by ring.
        now rewrite E2.
Qed.

Lemma select_kept (mag : Q -> Q -> result Q) (e : Q) (order : Z)
      (loc err : list Q) (cs alt : list Cand.t) :
  candidates mag loc err = Ok cs ->
  select mag e order loc err = Ok alt ->
  alternating alt /\
  Forall (fun c => In c cs /\ e - tol <= Cand.err_mag c) alt.
Proof.
  intros Hcs H. unfold select in H. rewrite Hcs in H.
  cbn [bind] in H. unfold trim in H.
  apply trim_fuel_part in H. destruct H as [(l & r & Hpart) Hlen].
  pose proof (walk_alternating e cs [] I) as Halt.
  rewrite Hpart in Halt.
  split.
  { apply alternating_app in Halt. destruct Halt as [_ Halt].
    apply alternating_app in Halt. tauto. }
  apply Forall_forall. intros c Hc.
  assert (Hw : In c (fold_left (consider e) cs [])).
  { rewrite Hpart. apply in_or_app. right. apply in_or_app. now left. }
  apply walk_members in Hw. destruct Hw as [[]|[Hin Hab]].
  split; [exact Hin|].
  unfold above_threshold in Hab. now apply Qle_bool_iff in Hab.
Qed.

(** The errors the locator returns are the errors [D - p] at the
    locations it returns. *)
Lemma extrema_errors (p : poly) (A B : Q) :
  0 < A -> A < B -> B < 1 ->
  Forall (fun le => snd le == desired A (fst le) - peval p (fst le))
         (combine (fst (find_error_extrema p A B))
                  (snd (find_error_extrema p A B))).
Proof.
  intros HA HAB HB.
  rewrite find_error_extrema_eq by assumption. cbn [fst snd].
  rewrite combine_app by (now rewrite !take_length).
  rewrite !combine_take.
  apply Forall_app. split; rewrite Forall_map.
  - destruct (reported_sorted (map (fun x => 1 - peval p x)
                                   (linspace 0 A samples))) as [_ Hb];
      [now rewrite length_map, linspace_length|].
    eapply Forall_impl; [|exact Hb]. intros i Hi. cbn [fst snd].
    rewrite (nth_map_in _ _ i 0 0) by (now rewrite linspace_length).
    assert (Hin : In (nth i (linspace 0 A samples) 0) (linspace 0 A samples))
      by (apply nth_In; now rewrite linspace_length).
    destruct (linspace_bounds 0 A _ HA Hin) as [_ Hle].
    unfold desired. rewrite below_edge by assumption. reflexivity.
  - destruct (reported_sorted (map (fun x => 0 - peval p x)
                                   (linspace B 1 samples))) as [_ Hb];
      [now rewrite length_map, linspace_length|].
    eapply Forall_impl; [|exact Hb]. intros i Hi. cbn [fst snd].
    rewrite (nth_map_in _ _ i 0 0) by (now rewrite linspace_length).
    assert (Hin : In (nth i (linspace B 1 samples) 0) (linspace B 1 samples))
      by (apply nth_In; now rewrite linspace_length).
    destruct (linspace_bounds B 1 _ HB Hin) as [Hge _].
    unfold desired. rewrite above_edge by lra. reflexivity.
Qed.

Lemma unit_product (s a h : Q) :
  s == 1 \/ s == -1 -> a = 1 \/ a = -1 -> 0 < s * (a * h) ->
  s * (a * h) == Qabs h.
Proof.
  intros Hs Ha H.
  destruct Hs as [E|E], Ha as [E'|E']; rewrite E, E' in H |- *.
  - rewrite Qabs_pos by lra. ring.
  - rewrite Qabs_neg by lra. ring.
  - rewrite Qabs_neg by lra. ring.
  - rewrite Qabs_pos by lra. ring.
Qed.

(** From one round of the weighted driver to the next, when the number
    of points is kept, the levelled error does not drop by more than
    the tolerance. *)
Lemma remez2_error_kept (A B Aweight : Q) (order : Z) (s s1 s2 : state) :
  0 < A -> A < B -> B < 1 -> 0 < Aweight ->
  remez2_body A B Aweight order s = Ok s1 ->
  remez2_body A B Aweight order s1 = Ok s2 ->
  length (st_x s1) = length (st_x s) ->
  exists e e',
    Berr (st_data s1) = Some e /\ Berr (st_data s2) = Some e' /\
    e - tol <= e'.
Proof.
  intros HA HAB HB Hw Hb1 Hb2 Hlen.
  assert (Hw0 : ~ Aweight == 0) by lra.
  destruct (remez2_body_result _ _ _ _ _ _ Hb2)
    as (p' & e' & Hsolve2 & _ & Hd2).
  unfold remez2_body in Hb1.
  destruct (solve2 A Aweight (st_x s) (st_y s)) as [[p e]|] eqn:Hsolve1;
    [|discriminate].
  cbn [bind] in Hb1.
  destruct (select _ e order _ _) as [alt|] eqn:Hsel; [|discriminate].
  cbn [bind] in Hb1. injection Hb1 as <-.
  cbn [st_x st_y st_data Berr] in *.
  exists e, e'. split; [reflexivity|]. split; [now rewrite Hd2|].
  (* the first solve *)
  assert (Hlp : (length p + 1)%nat = length (st_x s)).
  { unfold solve2 in Hsolve1.
    destruct (st_x s) as [|x0 xs] eqn:Ex; [discriminate|]. rewrite <- Ex in *.
    destruct (error_column_ok A Aweight (st_x s) Hw0) as (col & Hcol & Hlc & _).
    rewrite Hcol in Hsolve1. cbn [bind] in Hsolve1.
    now destruct (solve_with_identity _ _ _ _ _ Hlc Hsolve1)
      as (_ & _ & H & _). }
  (* the second solve *)
  set (x1 := map Cand.loc alt) in *.
  destruct (round_points _ A B e order p alt HA HAB HB Hsel) as (Hsorted & _).
  fold x1 in Hsorted.
  unfold solve2 in Hsolve2.
  destruct x1 as [|x0 xs] eqn:Ex; [discriminate|]. rewrite <- Ex in *.
  destruct (error_column_ok A Aweight x1 Hw0) as (col & Hcol & Hlc & Hnth).
  rewrite Hcol in Hsolve2. cbn [bind] in Hsolve2.
  destruct (Qlt_le_dec 0 (e - tol)) as [Hpos|Hneg].
  2:{ destruct (solve_with_identity _ _ _ _ _ Hlc Hsolve2) as (eps & -> & _).
      pose proof (Qabs_nonneg eps). lra. }
  (* the selected candidates *)
  pose proof (candidates_weighted A Aweight
                (fst (find_error_extrema p A B))
                (snd (find_error_extrema p A B)) Hw0) as Hcs.
  destruct (select_kept _ _ _ _ _ _ _ Hcs Hsel) as [Halt Hkept].
  pose proof (extrema_errors p A B HA HAB HB) as Herr.
  set (h := fun c => desired A (Cand.loc c) - peval p (Cand.loc c)).
  assert (Hfacts : Forall (fun c =>
              (Cand.sign c = np_sign (h c) /\ ~ h c == 0) /\
              (e - tol) * weight A Aweight (Cand.loc c) <= Qabs (h c)) alt).
  { rewrite Forall_forall in Hkept, Herr |- *. intros c Hc.
    destruct (Hkept c Hc) as [Hin Hmag].
    apply in_map_iff in Hin. destruct Hin as ([l r] & <- & Hin).
    specialize (Herr _ Hin). cbn [fst snd] in Herr.
    cbn [Cand.loc Cand.sign Cand.err_mag] in *. unfold h. cbn [Cand.loc].
    pose proof (weight_pos A Aweight l Hw) as Hwl.
    assert (Hr : (e - tol) * weight A Aweight l <= Qabs r).
    { apply (Qmult_le_r _ _ (weight A Aweight l) Hwl) in Hmag.
      assert (E : Qabs r / weight A Aweight l * weight A Aweight l == Qabs r)
        by (field; lra).
      now rewrite E in Hmag. }
    split; [split|rewrite <- Herr; exact Hr].
    - now apply np_sign_Qeq.
    - intros Hz. rewrite <- Herr in Hz.
      rewrite Hz in Hr. change (Qabs 0) with 0 in Hr.
      assert (0 < (e - tol) * weight A Aweight l)
        by (apply Qmult_lt_0_compat; assumption).
      lra. }
  destruct (alternation_by_index h (Cand.mk 0 0 0) alt) as (sg & Hsg & Hidx).
  { eapply Forall_impl; [|exact Hfacts]. intros c Hc. apply Hc. }
  { exact Halt. }
  assert (Hl1 : length x1 = length alt) by (unfold x1; apply length_map).
  apply (solve_with_lower_bound
           (fun i => weight A Aweight (nth i x1 0)) col x1 (targets A x1)
           p' p e' (e - tol) sg Hsorted Hlc).
  - intros i Hi. split; [now apply weight_pos|]. now rewrite Hnth.
  - exact Hsolve2.
  - lia.
  - exact Hsg.
  - intros i Hi.
    rewrite targets_nth by exact Hi.
    assert (Hxi : nth i x1 0 = Cand.loc (nth i alt (Cand.mk 0 0 0))).
    { unfold x1. apply nth_map_in. lia. }
    specialize (Hidx i ltac:(lia)).
    rewrite Forall_forall in Hfacts.
    destruct (Hfacts (nth i alt (Cand.mk 0 0 0))) as [_ Hmag];
      [apply nth_In; lia|].
    rewrite Hxi. fold (desired A (Cand.loc (nth i alt (Cand.mk 0 0 0)))).
    fold (h (nth i alt (Cand.mk 0 0 0))).
    rewrite (unit_product sg _ _ Hsg (alt_sign_cases i) Hidx).
    exact Hmag.
Qed.

End ErrorKept.

Section ErrorKeptFit.

Lemma fit2_rounds (A B Aweight : Q) (order n : Z) (p p' : poly) (d d' : data) :
  (1 <= n)%Z ->
  remez_fit2 A B Aweight order n = Ok (p, d) ->
  remez_fit2 A B Aweight order (n + 1) = Ok (p', d') ->
  exists s s1 s2,
    remez2_body A B Aweight order s = Ok s1 /\
    remez2_body A B Aweight order s1 = Ok s2 /\
    d = st_data s1 /\ d' = st_data s2.
Proof.
  intros Hn H H'. unfold remez_fit2 in H, H'.
  destruct (initial_points A B order) as [[x y]|]; [|discriminate].
  cbn [bind] in H, H'.
  replace (Z.to_nat (n + 1)) with (S (Z.to_nat n)) in H' by lia.
  rewrite loop_last in H'.
  destruct (loop (Z.to_nat n) _ _) as [s1|] eqn:Hl1; [|discriminate].
  cbn [bind] in H, H'.
  destruct (remez2_body A B Aweight order s1) as [s2|] eqn:Hb2;
    [|discriminate].
  cbn [bind] in H'.
  destruct (Z.to_nat n) as [|k] eqn:Ek; [lia|].
  rewrite loop_last in Hl1.
  destruct (loop k _ _) as [s|]; [|discriminate]. cbn [bind] in Hl1.
  exists s, s1, s2. split; [exact Hl1|]. split; [exact Hb2|].
  unfold finish in H, H'.
  destruct (st_p s1); [|discriminate]. destruct (st_p s2); [|discriminate].
  injection H as _ <-. injection H' as _ <-. now split.
Qed.

Lemma fit2_error_kept (A B Aweight : Q) (order n : Z) (p p' : poly)
      (d d' : data) :
  0 < A -> A < B -> B < 1 -> 0 < Aweight -> (1 <= n)%Z ->
  remez_fit2 A B Aweight order n = Ok (p, d) ->
  remez_fit2 A B Aweight order (n + 1) = Ok (p', d') ->
  exists px nx e e',
    prev_x d = Some px /\ new_x d = Some nx /\ prev_x d' = Some nx /\
    Berr d = Some e /\ Berr d' = Some e' /\
    (length nx = length px -> e - tol <= e').
Proof.
  intros HA HAB HB Hw Hn H H'.
  destruct (fit2_rounds _ _ _ _ _ _ _ _ _ Hn H H')
    as (s & s1 & s2 & Hb1 & Hb2 & -> & ->).
  destruct (remez2_body_result _ _ _ _ _ _ Hb1) as (q & e & _ & _ & Hd1).
  destruct (remez2_body_result _ _ _ _ _ _ Hb2) as (q' & e' & _ & _ & Hd2).
  exists (st_x s), (st_x s1), e, e'.
  rewrite Hd1, Hd2. cbn [prev_x new_x Berr].
  repeat (split; [reflexivity|]).
  intros Hlen.
  destruct (remez2_error_kept A B Aweight order s s1 s2 HA HAB HB Hw
                              Hb1 Hb2 Hlen) as (e0 & e0' & H1 & H2 & Hle).
  rewrite Hd1 in H1. rewrite Hd2 in H2. cbn [Berr] in H1, H2.
  injection H1 as <-. injection H2 as <-. exact Hle.
Qed.

Lemma fit_unit_data (A B : Q) (order iterations : Z) :
  (3 <= order)%Z ->
  agree (fun r2 r1 =>
           prev_x (snd r2) = prev_x (snd r1) /\
           new_x (snd r2) = new_x (snd r1) /\
           Berr (snd r2) = err (snd r1))
        (remez_fit2 A B 1 order iterations)
        (remez_fit A B order iterations).
Proof.
  intros Hord. unfold remez_fit2, remez_fit.
  destruct (Z.ltb_spec order 3); [lia|].
  destruct (initial_points A B order) as [[x y]|ex]; cbn [bind agree];
    [|reflexivity].
  destruct (Z.to_nat iterations) as [|n] eqn:En; [reflexivity|].
  pose proof (loop_unit A B order (S n)
                (mkstate x y None no_data) (mkstate x y None no_data))
    as Hl.
  assert (Hinit : same_state (mkstate x y None no_data)
                             (mkstate x y None no_data))
    by (repeat split).
  specialize (Hl Hinit). unfold agree in Hl.
  destruct (loop (S n) (remez2_body A B 1 order) _) as [t2|e2];
    destruct (loop (S n) (remez_body A B order) _) as [t1|e1];
    cbn [bind]; try contradiction; [|exact Hl].
  destruct Hl as [(Hx & Hy & Hp) Hd].
  unfold finish. rewrite Hp.
  destruct (st_p t1) as [p|]; [|reflexivity].
  cbn [snd]. specialize (Hd ltac:(discriminate)).
  destruct Hd as (H1 & H2 & H3 & H4). repeat split; assumption.
Qed.

Lemma fit_error_kept (A B : Q) (order n : Z) (p p' : poly) (d d' : data) :
  0 < A -> A < B -> B < 1 -> (1 <= n)%Z ->
  remez_fit A B order n = Ok (p, d) ->
  remez_fit A B order (n + 1) = Ok (p', d') ->
  exists px nx e e',
    prev_x d = Some px /\ new_x d = Some nx /\ prev_x d' = Some nx /\
    err d = Some e /\ err d' = Some e' /\
    (length nx = length px -> e - tol <= e').
Proof.
  intros HA HAB HB Hn H H'.
  assert (Hord : (3 <= order)%Z).
  { unfold remez_fit in H. destruct (Z.ltb_spec order 3); [discriminate|lia]. }
  pose proof (fit_unit_data A B order n Hord) as Hu.
  pose proof (fit_unit_data A B order (n + 1) Hord) as Hu'.
  unfold agree in Hu, Hu'. rewrite H in Hu. rewrite H' in Hu'.
  destruct (remez_fit2 A B 1 order n) as [[q c]|] eqn:E; [|contradiction].
  destruct (remez_fit2 A B 1 order (n + 1)) as [[q' c']|] eqn:E';
    [|contradiction].
  cbn [snd] in Hu, Hu'.
  destruct Hu as (U1 & U2 & U3). destruct Hu' as (U1' & U2' & U3').
  destruct (fit2_error_kept A B 1 order n q q' c c' HA HAB HB eq_refl Hn E E')
    as (px & nx & e & e' & H1 & H2 & H3 & H4 & H5 & H6).
  exists px, nx, e, e'. repeat split; try congruence. exact H6.
Qed.

Lemma returned (X : Type) (r : result X) :
  match r with Ok _ => true | Raise _ => false end = true ->
  exists a, r = Ok a.
Proof. destruct r as [a|]; [now exists a|discriminate]. Qed.

(** From one round of a fit to the next the levelled error ([err] of
    [remez_fit], [Berr] of [remez_fit2]) does not drop by more than the
    tolerance [1e-3] of the Selecting step, as long as the round kept
    the number of points: the points the earlier round selected are
    the points the later round solved on, the errors of the earlier
    polynomial alternate there with magnitudes of [e - 1e-3] at least,
    and so no polynomial of that degree can do better. *)
Theorem levelled_error_kept
        (A B Aweight : Q) (order n : Z) (level : data -> option Q)
        (p p' : poly) (d d' : data) :
  0 < A -> A < B -> B < 1 -> 0 < Aweight -> (1 <= n)%Z ->
  (level = err /\
   remez_fit A B order n = Ok (p, d) /\
   remez_fit A B order (n + 1) = Ok (p', d')) \/
  (level = Berr /\
   remez_fit2 A B Aweight order n = Ok (p, d) /\
   remez_fit2 A B Aweight order (n + 1) = Ok (p', d')) ->
  exists px nx e e',
    prev_x d = Some px /\ new_x d = Some nx /\ prev_x d' = Some nx /\
    level d = Some e /\ level d' = Some e' /\
    (length nx = length px -> e - tol <= e').
Proof.
  intros HA HAB HB Hw Hn [(-> & H & H')|(-> & H & H')].
  - now apply (fit_error_kept A B order n p p').
  - now apply (fit2_error_kept A B Aweight order n p p').
Qed.

Lemma levelled_error_kept_witness :
  exists d d' px nx e e',
    (exists p, remez_fit (2#5) (3#5) 3 1 = Ok (p, d)) /\
    (exists p', remez_fit (2#5) (3#5) 3 (1 + 1) = Ok (p', d')) /\
    prev_x d = Some px /\ new_x d = Some nx /\ prev_x d' = Some nx /\
    err d = Some e /\ err d' = Some e' /\
    (length nx = length px -> e - tol <= e').
Proof.
  destruct (returned _ (remez_fit (2#5) (3#5) 3 1)) as [[p d] E1];
    [vm_compute; reflexivity|].
  destruct (returned _ (remez_fit (2#5) (3#5) 3 (1 + 1))) as [[p' d'] E2];
    [vm_compute; reflexivity|].
  destruct (levelled_error_kept (2#5) (3#5) 1 3 1 err p p' d d'
              eq_refl eq_refl eq_refl eq_refl ltac:(lia)
              (or_introl (conj eq_refl (conj E1 E2))))
    as (px & nx & e & e' & F1 & F2 & F3 & F4 & F5 & F6).
  exists d, d', px, nx, e, e'.
  split; [now exists p|]. split; [now exists p'|].
  repeat (split; [assumption|]). exact F6.
Defined.

End ErrorKeptFit.

(** ** The weighted fit end to end *)

Section Weighted.








(** [remez_fit2] is [remez_fit2_from] at the exact quotient. *)
Lemma remez_fit2_at_exact_quotient (A B Aweight : Q) (order iterations : Z) :
  Qeq_bool (A - B + 1) 0 = false ->
  remez_fit2 A B Aweight order iterations
  = remez_fit2_from (inject_Z (order + 2) * A / (A - B + 1))
                    A B Aweight order iterations.
Proof.
  intros H. unfold remez_fit2, remez_fit2_from, initial_points.
  now rewrite H.
Qed.




End Weighted.
